(** * Request routing between a service worker and in-page PHP runtimes

    A shallow embedding of the messaging layer ([postMessageExpectReply],
    [awaitReply], [responseTo]), of the service worker's fetch handler
    ([initializeServiceWorker], [seemsLikeAPHPServerPath], [parsePost],
    [cloneRequest], [broadcastMessageExpectReply]) and of the URL scope
    codec, followed by the properties proved about them.

    Conventions.  JavaScript strings are [string]; integral JavaScript
    numbers (request ids, status codes, milliseconds) are [Z], which is
    what a JavaScript number holds exactly up to 2^53; plain
    objects are finite maps from property names to values, so that object
    spread followed by a property is a map insertion and a property read
    is a lookup.  Promises, event listeners and timers are explicit state
    of an event loop that is stepped by a trace of events. *)

From stdpp Require Import gmap strings list sorting.
From Stdlib Require Import ZArith Lia Ascii.

(** ** JavaScript values *)

Module JS.

#[warnings="-register-all"]
Inductive Value : Type :=
  | Undefined
  | Null
  | Boolean (b : bool)
  | Number (n : Z)
  | Str (s : string)
  | File (name type content : string)
  | Object (props : gmap string Value).

(** [v.k]: reading a property of a plain object; a missing property reads
    as [undefined].  Reading a property of a primitive that is not
    [undefined]/[null] also gives [undefined]; on [undefined] and [null]
    JavaScript throws, which callers that can meet it handle themselves. *)
Definition get (v : Value) (k : string) : Value :=
  match v with
  | Object props => default Undefined (props !! k)
  | _ => Undefined
  end.

(** [v === 'literal'] *)
Definition strictEqStr (v : Value) (s : string) : bool :=
  match v with
  | Str s' => String.eqb s' s
  | _ => false
  end.

(** [v === n] for a number [n] *)
Definition strictEqNum (v : Value) (n : Z) : bool :=
  match v with
  | Number n' => Z.eqb n' n
  | _ => false
  end.

(** How a piece of code completes: with a value, or by throwing.  The
    third case is a computation parked at an [await] whose promise is still
    pending when the trace of events ends. *)
Inductive Completion (A : Type) : Type :=
  | Return (a : A)
  | Throw (error : string)
  | Suspended.
Arguments Return {A} a.
Arguments Throw {A} error.
Arguments Suspended {A}.

(** [v.k] where [v] may be [undefined] or [null]. *)
Definition member (v : Value) (k : string) : Completion Value :=
  match v with
  | Undefined | Null => Throw "TypeError"
  | _ => Return (get v k)
  end.

(** *** String methods used by the sources *)

(** [s.startsWith(p)] *)
Fixpoint startsWith (s p : string) : bool :=
  match p, s with
  | EmptyString, _ => true
  | String a p', String b s' => Ascii.eqb a b && startsWith s' p'
  | String _ _, EmptyString => false
  end.

(** [s.includes(sub)] *)
Fixpoint includes (s sub : string) : bool :=
  startsWith s sub ||
  match s with
  | EmptyString => false
  | String _ s' => includes s' sub
  end.

(** [s.endsWith(suf)] *)
Fixpoint endsWith (s suf : string) : bool :=
  String.eqb s suf ||
  match s with
  | EmptyString => false
  | String _ s' => endsWith s' suf
  end.

(** [s.split(sep)] for a one-character separator: never an empty array. *)
Fixpoint split (sep : ascii) (s : string) : list string :=
  match s with
  | EmptyString => [EmptyString]
  | String c s' =>
      if Ascii.eqb c sep then EmptyString :: split sep s'
      else match split sep s' with
           | [] => [String c EmptyString]
           | seg :: segs => String c seg :: segs
           end
  end.

(** [a.join(sep)] *)
Fixpoint join (sep : string) (a : list string) : string :=
  match a with
  | [] => EmptyString
  | [x] => x
  | x :: xs => x +:+ sep +:+ join sep xs
  end.

(** [a.pop()], as the value it returns: [None] stands for [undefined]. *)
Definition pop (a : list string) : option string := last a.

(** [a.slice(n)] *)
Definition slice (n : nat) (a : list string) : list string := drop n a.

(** *** Conversions of values

    [ToPrimitive], [ToNumber] and the conversion to a WebIDL
    [unsigned short], for the values above. *)


(** White space and line terminators that [StringToNumber] strips. *)
Definition isStrWhiteSpace (c : ascii) : bool :=
  bool_decide (nat_of_ascii c ∈ [9; 10; 11; 12; 13; 32; 160]).

Fixpoint trimStart (s : string) : string :=
  match s with
  | String c s' => if isStrWhiteSpace c then trimStart s' else s
  | EmptyString => EmptyString
  end.

Fixpoint trimEnd (s : string) : string :=
  match s with
  | EmptyString => EmptyString
  | String c s' =>
      match trimEnd s' with
      | EmptyString => if isStrWhiteSpace c then EmptyString else String c EmptyString
      | t => String c t
      end
  end.

(** The value of a digit in a base up to 16. *)
Definition digitValue (base : Z) (c : ascii) : option Z :=
  let n := Z.of_nat (nat_of_ascii c) in
  let d := if (48 <=? n)%Z && (n <=? 57)%Z then Some (n - 48)%Z
           else if (97 <=? n)%Z && (n <=? 102)%Z then Some (n - 87)%Z
           else if (65 <=? n)%Z && (n <=? 70)%Z then Some (n - 55)%Z
           else None in
  match d with
  | Some v => if (v <? base)%Z then Some v else None
  | None => None
  end.

(** The longest prefix of digits: its value, its length and what follows. *)
Fixpoint digitsPrefix (base : Z) (acc : Z) (len : nat) (s : string)
    : Z * nat * string :=
  match s with
  | String c s' =>
      match digitValue base c with
      | Some d => digitsPrefix base (acc * base + d)%Z (S len) s'
      | None => (acc, len, s)
      end
  | EmptyString => (acc, len, s)
  end.

(** A number as [StringToNumber] reads it, before it is rounded to a
    double: not a number, infinite, or the fraction [num / den] with its
    sign. *)
Inductive Numeric : Type :=
  | NaN
  | Infinite
  | Finite (negative : bool) (num den : Z).

(** [0x], [0o] and [0b] literals: unsigned integers. *)
Definition nonDecimalBase (s : string) : option (Z * string) :=
  match s with
  | String "0" (String c rest) =>
      if Ascii.eqb c "x" || Ascii.eqb c "X" then Some (16%Z, rest)
      else if Ascii.eqb c "o" || Ascii.eqb c "O" then Some (8%Z, rest)
      else if Ascii.eqb c "b" || Ascii.eqb c "B" then Some (2%Z, rest)
      else None
  | _ => None
  end.

(** [ExponentPart], when the literal has one: the exponent. *)
Definition exponentPart (s : string) : option Z :=
  match s with
  | EmptyString => Some 0%Z
  | String c rest =>
      if Ascii.eqb c "e" || Ascii.eqb c "E" then
        let '(negative, digits) :=
          match rest with
          | String "+" digits => (false, digits)
          | String "-" digits => (true, digits)
          | _ => (false, rest)
          end in
        match digitsPrefix 10 0 0 digits with
        | (x, S _, EmptyString) => Some (if negative then - x else x)%Z
        | _ => None
        end
      else None
  end.

(** [StrUnsignedDecimalLiteral] *)
Definition unsignedDecimal (negative : bool) (s : string) : Numeric :=
  if String.eqb s "Infinity" then Infinite
  else
    let '(i, li, afterInt) := digitsPrefix 10 0 0 s in
    let '(f, lf, afterFraction) :=
      match afterInt with
      | String "." fraction => digitsPrefix 10 0 0 fraction
      | _ => (0%Z, 0, afterInt)
      end in
    if Nat.eqb li 0 && Nat.eqb lf 0 then NaN
    else
      match exponentPart afterFraction with
      | Some e =>
          let mantissa := (i * 10 ^ Z.of_nat lf + f)%Z in
          let scale := (e - Z.of_nat lf)%Z in
          if (0 <=? scale)%Z then Finite negative (mantissa * 10 ^ scale) 1
          else Finite negative mantissa (10 ^ (- scale))
      | None => NaN
      end.

(** [StringToNumber], before rounding. *)
Definition stringToNumeric (s : string) : Numeric :=
  let t := trimEnd (trimStart s) in
  match t with
  | EmptyString => Finite false 0 1
  | String "+" rest => unsignedDecimal false rest
  | String "-" rest => unsignedDecimal true rest
  | _ =>
      match nonDecimalBase t with
      | Some (base, digits) =>
          match digitsPrefix base 0 0 digits with
          | (v, S _, EmptyString) => Finite false v 1
          | _ => NaN
          end
      | None => unsignedDecimal false t
      end
  end.

(** The integral part of the double nearest to [num / den] (ties to even),
    for [num ≥ 0] and [den > 0]; [None] when that double is infinite. *)
Definition truncatedDouble (num den : Z) : option Z :=
  if (num =? 0)%Z then Some 0%Z
  else
    let l := (Z.log2 num - Z.log2 den)%Z in
    let l := if (num * 2 ^ Z.max 0 (- l) <? den * 2 ^ Z.max 0 l)%Z
             then (l - 1)%Z else l in
    let e := (l - 52)%Z in
    let n := (num * 2 ^ Z.max 0 (- e))%Z in
    let d := (den * 2 ^ Z.max 0 e)%Z in
    let q := (n / d)%Z in
    let r := (n mod d)%Z in
    let m := if (2 * r <? d)%Z then q
             else if (d <? 2 * r)%Z then (q + 1)%Z
             else if Z.even q then q else (q + 1)%Z in
    if (0 <=? e)%Z then
      if (2 ^ 1024 <=? m * 2 ^ e)%Z then None else Some (m * 2 ^ e)%Z
    else Some (m / 2 ^ (- e))%Z.

(** Conversion to a WebIDL [unsigned short]: not a number and the
    infinities give 0, other numbers are truncated and taken modulo 2^16. *)
Definition numericToUint16 (x : Numeric) : Z :=
  match x with
  | NaN | Infinite => 0%Z
  | Finite negative num den =>
      match truncatedDouble num den with
      | Some i => ((if negative then - i else i) mod 65536)%Z
      | None => 0%Z
      end
  end.

(** [ToPrimitive] throws for a plain object that has a property [toString]
    of its own: a value received in a message carries no function, so that
    property is not callable, and [valueOf] gives the object back.  Every
    other object is converted by the [toString] it inherits. *)
Definition toPrimitiveThrows (v : Value) : bool :=
  match v with
  | Object props => bool_decide (is_Some (props !! "toString"))
  | _ => false
  end.

(** [ToNumber] followed by the conversion to [unsigned short], for a value
    on which [ToPrimitive] does not throw. *)
Definition toUint16 (v : Value) : Z :=
  match v with
  | Undefined => 0                     (* NaN *)
  | Null => 0
  | Boolean b => if b then 1 else 0
  | Number n => n mod 65536
  | Str s => numericToUint16 (stringToNumeric s)
  | File _ _ _ => 0                    (* "[object File]": NaN *)
  | Object _ => 0                      (* "[object Object]": NaN *)
  end%Z.

End JS.

(** ** Request/response dynamics on top of [postMessage] *)

Module Messaging.
Import JS.

Definition DEFAULT_RESPONSE_TIMEOUT : Z := 25000.

(** Objects with a [postMessage] method, and objects emitting [message]
    events, are named by a handle. *)
Definition Target : Type := nat.

(** *** Sending: [postMessageExpectReply]

    The module-level counter [lastRequestId] and, for each call of
    [target.postMessage], what was posted to which target. *)
Record Sender : Type := {
  lastRequestId : Z;
  posted : list (Target * gmap string Value * list Value)
}.

Definition initialSender : Sender :=
  {| lastRequestId := 0; posted := [] |}.

Definition postMessageExpectReply
    (target : Target) (message : gmap string Value) (postMessageArgs : list Value)
    (s : Sender) : Z * Sender :=
  let requestId := (lastRequestId s + 1)%Z in
  (requestId,
   {| lastRequestId := requestId;
      posted := posted s ++
        [(target, <["requestId" := Number requestId]> message, postMessageArgs)] |}).

(** Modelled from the spec: [getNextRequestId], which the service worker
    imports from this module, is not in the sources at hand.  The spec's
    [nextId()] "returns an integer strictly greater than every previously
    returned value in this process"; it is the counter step of
    [postMessageExpectReply], on the same counter. *)
Definition getNextRequestId (s : Sender) : Z * Sender :=
  let requestId := (lastRequestId s + 1)%Z in
  (requestId, {| lastRequestId := requestId; posted := posted s |}).

(** The call [(target, message, args)] as it reaches [target.postMessage]:
    the message with [requestId] added (or replaced). *)
Definition branded (requestId : Z)
    (call : Target * gmap string Value * list Value)
    : Target * gmap string Value * list Value :=
  (call.1.1, <["requestId" := Number requestId]> call.1.2, call.2).

(** A sequence of calls, with the ids they return in call order. *)
Fixpoint postAll (calls : list (Target * gmap string Value * list Value))
    (s : Sender) : list Z * Sender :=
  match calls with
  | [] => ([], s)
  | (target, message, args) :: rest =>
      let '(requestId, s1) := postMessageExpectReply target message args s in
      let '(ids, s2) := postAll rest s1 in
      (requestId :: ids, s2)
  end.

(** *** Replying: [responseTo] *)
Definition responseTo (requestId : Z) (response : Value) : Value :=
  Object (<["type" := Str "response"]>
          (<["requestId" := Number requestId]>
           (<["response" := response]> ∅))).

(** *** Waiting: [awaitReply]

    Each call of [awaitReply] creates one promise, one [responseHandler]
    closure and one [failOntimeout] timer; the three share the number of the
    call.  The event loop holds the listeners registered for [message]
    events (in registration order), the armed timers, and every call made
    to a [resolve] or [reject] function (in call order). *)

Inductive Settlement : Type :=
  | Resolve (value : Value)
  | Reject (error : string).

(** A registered [responseHandler] with the variables it closes over. *)
Record Listener : Type := {
  l_target : Target;     (* messageTarget *)
  l_id : nat;            (* which call of awaitReply made the closure *)
  l_requestId : Z        (* requestId *)
}.

(** An armed [failOntimeout] with the variables its callback closes over. *)
Record Timer : Type := {
  t_id : nat;
  t_deadline : Z;        (* clock value at which the timer is due *)
  t_target : Target      (* messageTarget *)
}.

Record Loop : Type := {
  clock : Z;                             (* milliseconds *)
  listeners : list Listener;
  timers : list Timer;
  settles : list (nat * Settlement);
  fresh : nat                            (* number of promises created *)
}.

Definition initialLoop : Loop :=
  {| clock := 0; listeners := []; timers := []; settles := []; fresh := 0 |}.

#[global] Instance Listener_eq_dec : EqDecision Listener.
Proof. solve_decision. Defined.

#[global] Instance Timer_eq_dec : EqDecision Timer.
Proof. solve_decision. Defined.

(** [messageTarget.addEventListener('message', handler)] for a handler that
    was just created, hence is not registered yet. *)
Definition addEventListener (l : Listener) (st : Loop) : Loop :=
  {| clock := clock st; listeners := listeners st ++ [l]; timers := timers st;
     settles := settles st; fresh := fresh st |}.

(** [messageTarget.removeEventListener('message', handler)] *)
Definition removeEventListener (target : Target) (k : nat) (st : Loop) : Loop :=
  {| clock := clock st;
     listeners := filter (λ l, ¬ (l_target l = target ∧ l_id l = k)) (listeners st);
     timers := timers st; settles := settles st; fresh := fresh st |}.

(** [setTimeout(callback, timeout)]: a negative delay counts as zero. *)
Definition setTimeout (k : nat) (target : Target) (timeout : Z) (st : Loop) : Loop :=
  {| clock := clock st; listeners := listeners st;
     timers := timers st ++
       [{| t_id := k; t_deadline := (clock st + Z.max 0 timeout)%Z; t_target := target |}];
     settles := settles st; fresh := fresh st |}.

(** [clearTimeout(failOntimeout)] *)
Definition clearTimeout (k : nat) (st : Loop) : Loop :=
  {| clock := clock st; listeners := listeners st;
     timers := filter (λ t, t_id t ≠ k) (timers st);
     settles := settles st; fresh := fresh st |}.

(** A call of the [resolve] or [reject] function of promise [k]. *)
Definition settle (k : nat) (s : Settlement) (st : Loop) : Loop :=
  {| clock := clock st; listeners := listeners st; timers := timers st;
     settles := settles st ++ [(k, s)]; fresh := fresh st |}.

Inductive PromiseState : Type :=
  | Pending
  | Fulfilled (value : Value)
  | Rejected (error : string).

(** A promise is settled by the first call of its [resolve] or [reject];
    later calls have no effect on it. *)
Definition settlesOf (k : nat) (st : Loop) : list (nat * Settlement) :=
  filter (λ c, c.1 = k) (settles st).

Definition promiseState (k : nat) (st : Loop) : PromiseState :=
  match settlesOf k st with
  | [] => Pending
  | (_, Resolve v) :: _ => Fulfilled v
  | (_, Reject e) :: _ => Rejected e
  end.

(** The test made by [responseHandler] on [event.data].  When [event.data]
    is [undefined] or [null] the test throws inside the handler, which
    leaves the loop as a failed test does. *)
Definition isReplyTo (requestId : Z) (data : Value) : bool :=
  strictEqStr (get data "type") "response" &&
  strictEqNum (get data "requestId") requestId.

Definition responseHandler (l : Listener) (data : Value) (st : Loop) : Loop :=
  if isReplyTo (l_requestId l) data then
    settle (l_id l) (Resolve (get data "response"))
      (clearTimeout (l_id l)
        (removeEventListener (l_target l) (l_id l) st))
  else st.

Definition failOntimeout (t : Timer) (st : Loop) : Loop :=
  removeEventListener (t_target t) (t_id t)
    (settle (t_id t) (Reject "Request timed out") st).

(** The [timeout] argument may be left out ([None]); it then defaults to
    [DEFAULT_RESPONSE_TIMEOUT]. *)
Definition timeoutOrDefault (timeout : option Z) : Z :=
  default DEFAULT_RESPONSE_TIMEOUT timeout.

Definition awaitReply (messageTarget : Target) (requestId : Z) (timeout : option Z)
    (st : Loop) : nat * Loop :=
  let timeout := timeoutOrDefault timeout in
  let k := fresh st in
  let st0 := {| clock := clock st; listeners := listeners st; timers := timers st;
                settles := settles st; fresh := S k |} in
  let st1 := setTimeout k messageTarget timeout st0 in
  let st2 := addEventListener
               {| l_target := messageTarget; l_id := k; l_requestId := requestId |} st1 in
  (k, st2).

(** Dispatch of one [message] event on [target]: the listeners registered
    on the target when the dispatch starts are called in registration
    order, except those removed in the meantime. *)
Fixpoint callListeners (ls : list Listener) (data : Value) (st : Loop) : Loop :=
  match ls with
  | [] => st
  | l :: rest =>
      callListeners rest data
        (if bool_decide (l ∈ listeners st) then responseHandler l data st else st)
  end.

Definition dispatchMessage (target : Target) (data : Value) (st : Loop) : Loop :=
  callListeners (filter (λ l, l_target l = target) (listeners st)) data st.

(** Timers that are due run in the order of their deadlines, earlier calls
    of [setTimeout] first among equal deadlines. *)
Fixpoint insertTimer (t : Timer) (ts : list Timer) : list Timer :=
  match ts with
  | [] => [t]
  | t' :: rest =>
      if (t_deadline t <=? t_deadline t')%Z then t :: t' :: rest
      else t' :: insertTimer t rest
  end.

Definition byDeadline (ts : list Timer) : list Timer := foldr insertTimer [] ts.

(** A timer that fires leaves the timer table, then its callback runs. *)
Definition fire (t : Timer) (st : Loop) : Loop :=
  if bool_decide (t ∈ timers st) then
    failOntimeout t
      {| clock := clock st; listeners := listeners st;
         timers := filter (λ t', t' ≠ t) (timers st);
         settles := settles st; fresh := fresh st |}
  else st.

Definition elapse (d : Z) (st : Loop) : Loop :=
  let now := (clock st + Z.max 0 d)%Z in
  let st' := {| clock := now; listeners := listeners st; timers := timers st;
                settles := settles st; fresh := fresh st |} in
  foldl (λ s t, fire t s) st'
    (byDeadline (filter (λ t, (t_deadline t <= now)%Z) (timers st))).

(** What can happen in the event loop. *)
Inductive Event : Type :=
  | EvAwait (messageTarget : Target) (requestId : Z) (timeout : option Z)
  | EvMessage (target : Target) (data : Value)
  | EvElapse (d : Z).

Definition step (st : Loop) (ev : Event) : Loop :=
  match ev with
  | EvAwait target requestId timeout => (awaitReply target requestId timeout st).2
  | EvMessage target data => dispatchMessage target data st
  | EvElapse d => elapse d st
  end.

Definition run (evs : list Event) (st : Loop) : Loop := foldl step st evs.

Definition reachable (st : Loop) : Prop := ∃ evs, st = run evs initialLoop.

(** Observations of one call [k] of [awaitReply]. *)
Definition listening (k : nat) (st : Loop) : bool :=
  bool_decide (Exists (λ l, l_id l = k) (listeners st)).

(** Time that passes in a trace. *)
Definition elapsed (evs : list Event) : Z :=
  foldr (λ ev acc, match ev with EvElapse d => (Z.max 0 d + acc)%Z | _ => acc end) 0%Z evs.

(** No reply to [requestId] is delivered on [target] in the trace. *)
Definition noReplyIn (target : Target) (requestId : Z) (evs : list Event) : Prop :=
  Forall (λ ev, match ev with
                | EvMessage target' data =>
                    target' = target → isReplyTo requestId data = false
                | _ => True
                end) evs.

(** What the event loop holds on behalf of call [k] of [awaitReply]: the
    registered listeners and armed timers made by the call, and the calls
    made to the [resolve] and [reject] of its promise. *)
Definition listenersOf (k : nat) (st : Loop) : list Listener :=
  filter (λ l, l_id l = k) (listeners st).

Definition timersOf (k : nat) (st : Loop) : list Timer :=
  filter (λ t, t_id t = k) (timers st).

Definition view (k : nat) (st : Loop)
    : list Listener * list Timer * list (nat * Settlement) :=
  (listenersOf k st, timersOf k st, settlesOf k st).

Definition unused (k : nat) (st : Loop) : Prop := view k st = ([], [], []).

Definition waiting (k : nat) (target : Target) (requestId deadline : Z)
    (st : Loop) : Prop :=
  view k st =
    ([{| l_target := target; l_id := k; l_requestId := requestId |}],
     [{| t_id := k; t_deadline := deadline; t_target := target |}],
     []).

Definition settled (k : nat) (s : Settlement) (st : Loop) : Prop :=
  view k st = ([], [], [(k, s)]).

(** Invariant of the event loop: a number not yet given to a call is
    unused; a call is either waiting or settled by exactly one call of
    [resolve] or [reject]. *)
Definition wf (st : Loop) : Prop :=
  ∀ k,
    (fresh st ≤ k → unused k st) ∧
    (k < fresh st →
       (∃ target requestId deadline, waiting k target requestId deadline st) ∨
       (∃ s, settled k s st)).

End Messaging.

(** ** URLs and the scope codec *)

Module Scope.
Import JS.

(** A parsed URL, as the [URL] class exposes it.  The [pathname] of an
    [http(s)] URL starts with ["/"]. *)
Record URL : Type := {
  origin : string;
  pathname : string;
  search : string;
  hash : string
}.

Definition withPathname (url : URL) (p : string) : URL :=
  {| origin := origin url; pathname := p; search := search url; hash := hash url |}.

Definition absolute (url : URL) : Prop := ∃ rest, pathname url = String "/" rest.

(** A scope token is any string without the path separator. *)
Definition validToken (token : string) : bool := negb (includes token "/").

(** [s.substring(n)] *)
Fixpoint substringFrom (n : nat) (s : string) : string :=
  match n, s with
  | S n', String _ s' => substringFrom n' s'
  | _, _ => s
  end.

(** Modelled from the spec: the scope codec ([isURLScoped], [getURLScope],
    [setURLScope], [removeURLScope]) is imported by the service worker from
    a module that is not in the sources at hand.  The spec embeds the token
    as "a distinguished leading path segment, e.g.
    [/scope:<token>/<original-path>]". *)
Definition isURLScoped (url : URL) : bool :=
  startsWith (pathname url) "/scope:".

(** Modelled from the spec: [getScope(url) → token | absent]. *)
Definition getURLScope (url : URL) : option string :=
  if isURLScoped url then
    match split "/" (pathname url) with
    | _ :: segment :: _ => Some (substringFrom 6 segment)
    | _ => None
    end
  else None.

(** Modelled from the spec: [removeScope(url)] "strips an existing token;
    identity if unscoped".  The leading segment is dropped the way the
    development server of the repository does it for scoped request paths
    (['/' + url.split('/').slice(2).join('/')]). *)
Definition removeURLScope (url : URL) : URL :=
  if isURLScoped url then
    withPathname url ("/" +:+ join "/" (slice 2 (split "/" (pathname url))))
  else url.

(** Modelled from the spec: [setScope(url, token)] "embeds token; fails (or
    is a no-op, implementation's choice, but must be documented) if already
    scoped".  Both choices are kept: [None] is the failure. *)
Inductive OnScoped : Type := Fails | NoOp.

Definition setURLScope (choice : OnScoped) (url : URL) (token : string)
    : option URL :=
  if isURLScoped url then
    match choice with
    | Fails => None
    | NoOp => Some url
    end
  else Some (withPathname url ("/scope:" +:+ token +:+ pathname url)).

(** The round-trip law as the spec words it, for one URL and one token:
    embedding succeeds, stripping the result gives the URL back, and
    reading the result gives the token back. *)
Definition roundTrip (choice : OnScoped) (url : URL) (token : string) : Prop :=
  ∃ url', setURLScope choice url token = Some url' ∧
          removeURLScope url' = url ∧
          getURLScope url' = Some token.

(** Modelled from the spec: [getPathQueryFragment], imported from a
    utilities module that is not in the sources at hand; the spec's
    forwarded path is "path+query+fragment". *)
Definition getPathQueryFragment (url : URL) : string :=
  pathname url +:+ search url +:+ hash url.

End Scope.

(** ** The service worker *)

Module ServiceWorker.
Import JS Messaging.

(** *** Requests and responses *)

Inductive FormDataEntryValue : Type :=
  | FieldValue (value : string)
  | FileValue (name type content : string).

(** A request body: its bytes, and what [formData()] and [json()] make of
    them. *)
Record Body : Type := {
  blob : string;
  formData : Completion (list (string * FormDataEntryValue));
  json : Completion Value
}.

Record Request : Type := {
  url : Scope.URL;
  method : string;
  headers : list (string * string);
  body : option Body;
  referrer : string;
  referrerPolicy : string;
  mode : string;
  credentials : string;
  cache : string;
  redirect : string;
  integrity : string
}.

(** [new Response(body, { headers, status })], as the three values it is
    built from. *)
Record Response : Type := {
  responseBody : Value;
  responseHeaders : Value;
  status : Value
}.

(** The constructor throws on some arguments.  In the order of the
    platform: the arguments are converted ([body] to a string unless it is
    [undefined], [null] or a blob; [headers] to a record of strings;
    [status] to an [unsigned short], 200 when it is [undefined]), which
    throws a [TypeError] where [ToPrimitive] does and for [headers] that is
    neither [undefined] nor an object; a status outside 200..599 is a
    [RangeError]; a header name that is not a token, a header value with a
    NUL, LF or CR inside, and a body together with a null body status are
    [TypeError]s. *)
Definition isTokenChar (c : ascii) : bool :=
  let n := nat_of_ascii c in
  (Nat.leb 97 n && Nat.leb n 122) ||    (* a-z *)
  (Nat.leb 65 n && Nat.leb n 90) ||     (* A-Z *)
  (Nat.leb 48 n && Nat.leb n 57) ||     (* 0-9 *)
  bool_decide (n ∈ [33; 35; 36; 37; 38; 39; 42; 43; 45; 46; 94; 95; 96; 124; 126]).
                                        (* ! # $ % & ' * + - . ^ _ ` | ~ *)

Fixpoint allChars (p : ascii → bool) (s : string) : bool :=
  match s with
  | EmptyString => true
  | String c s' => p c && allChars p s'
  end.

Definition validHeaderName (name : string) : bool :=
  negb (String.eqb name "") && allChars isTokenChar name.

(** HTTP whitespace, which is stripped from both ends of a header value. *)
Definition isHTTPWhitespace (c : ascii) : bool :=
  bool_decide (nat_of_ascii c ∈ [9; 10; 13; 32]).

Fixpoint stripStart (s : string) : string :=
  match s with
  | String c s' => if isHTTPWhitespace c then stripStart s' else s
  | EmptyString => EmptyString
  end.

Fixpoint stripEnd (s : string) : string :=
  match s with
  | EmptyString => EmptyString
  | String c s' =>
      match stripEnd s' with
      | EmptyString => if isHTTPWhitespace c then EmptyString else String c EmptyString
      | t => String c t
      end
  end.

Definition validHeaderValue (value : string) : bool :=
  allChars (λ c, negb (bool_decide (nat_of_ascii c ∈ [0; 10; 13])))
    (stripEnd (stripStart value)).

(** A header value is the string of any value; only a string of the sender
    can have a character that a header value may not have. *)
Definition headerValueOk (v : Value) : bool :=
  match v with
  | Str s => validHeaderValue s
  | _ => true
  end.

(** Statuses of responses that have no body. *)
Definition nullBodyStatus (n : Z) : bool :=
  bool_decide (n ∈ [101; 103; 204; 205; 304]%Z).

Definition nullBody (body : Value) : bool :=
  match body with
  | Undefined | Null => true
  | _ => false
  end.

(** The error that [new Response(body, { headers, status })] throws, if
    any. *)
Definition responseError (body headers status : Value) : option string :=
  let entries :=
    match headers with
    | Undefined => Some []
    | Object props =>
        if forallb (λ entry, negb (toPrimitiveThrows entry.2)) (map_to_list props)
        then Some (map_to_list props) else None
    | File _ _ _ => Some []              (* an object without properties of its own *)
    | _ => None
    end in
  match entries with
  | None => Some "TypeError"
  | Some entries =>
      if toPrimitiveThrows body || toPrimitiveThrows status then Some "TypeError"
      else
        let n := match status with Undefined => 200%Z | _ => toUint16 status end in
        if negb ((200 <=? n)%Z && (n <=? 599)%Z) then Some "RangeError"
        else if negb (forallb (λ entry, validHeaderName entry.1 && headerValueOk entry.2)
                        entries)
        then Some "TypeError"
        else if negb (nullBody body) && nullBodyStatus n then Some "TypeError"
        else None
  end.

Definition newResponse (body headers status : Value) : Completion Response :=
  match responseError body headers status with
  | Some e => Throw e
  | None =>
      Return {| responseBody := body; responseHeaders := headers; status := status |}
  end.

(** [headers.get(name)] *)
Fixpoint headersGet (name : string) (hs : list (string * string)) : option string :=
  match hs with
  | [] => None
  | (k, v) :: rest => if String.eqb k name then Some v else headersGet name rest
  end.

(** [formData.get(key)]: the first value under the key. *)
Fixpoint formDataGet (key : string) (fd : list (string * FormDataEntryValue))
    : option FormDataEntryValue :=
  match fd with
  | [] => None
  | (k, v) :: rest => if String.eqb k key then Some v else formDataGet key rest
  end.

(** *** The default forwarding policy *)

Definition seemsLikeAPHPFile (path : string) : bool :=
  endsWith path ".php" || includes path ".php/".

Definition seemsLikeADirectoryRoot (path : string) : bool :=
  match pop (split "/" path) with
  | Some lastSegment => negb (includes lastSegment ".")
  | None => false   (* [split] never returns an empty array *)
  end.

Definition seemsLikeAPHPServerPath (path : string) : bool :=
  seemsLikeAPHPFile path || seemsLikeADirectoryRoot path.

(** Shapes of paths, stated without the string methods above: [sub] occurs
    in [s]; [segment] is what follows the last slash of [path]. *)
Definition occursIn (sub s : string) : Prop := ∃ a b, s = a +:+ sub +:+ b.

Definition finalSegment (path segment : string) : Prop :=
  ¬ occursIn "/" segment ∧
  (path = segment ∨ ∃ dir, path = dir +:+ "/" +:+ segment).

(** *** Parsing the body of a forwarded request *)

Record Parsed : Type := { post : Value; files : Value }.

Definition requestFormData (request : Request)
    : Completion (list (string * FormDataEntryValue)) :=
  match body request with
  | Some b => formData b
  | None => Throw "TypeError"
  end.

Definition requestJson (request : Request) : Completion Value :=
  match body request with
  | Some b => json b
  | None => Throw "SyntaxError"
  end.

(** The loop over [formData.keys()]. *)
Definition sortEntries (fd : list (string * FormDataEntryValue))
    : gmap string Value * gmap string Value :=
  foldl (λ '(post, files) key,
           match formDataGet key fd with
           | Some (FileValue name type content) =>
               (post, <[key := File name type content]> files)
           | Some (FieldValue value) => (<[key := Str value]> post, files)
           | None => (<[key := Null]> post, files)
           end)
        (∅, ∅) (fd.*1).

Definition parsePost (request : Request) : Completion Parsed :=
  if negb (String.eqb (method request) "POST") then
    Return {| post := Undefined; files := Undefined |}
  else
    match requestFormData request with
    | Return fd =>
        let '(post, files) := sortEntries fd in
        Return {| post := Object post; files := Object files |}
    | Throw _ => (* catch (e) {} *)
        match requestJson request with
        | Return v => Return {| post := v; files := Object ∅ |}
        | Throw e => Throw e
        | Suspended => Suspended
        end
    | Suspended => Suspended
    end.

(** *** Copying a request *)

(** The [overrides] argument of [cloneRequest]: the properties it may
    carry.  [o_body] is [Some] as soon as the property is present. *)
Record Overrides : Type := {
  o_url : option Scope.URL;
  o_body : option (option Body);
  o_method : option string;
  o_headers : option (list (string * string));
  o_referrer : option string;
  o_referrerPolicy : option string;
  o_mode : option string;
  o_credentials : option string;
  o_cache : option string;
  o_redirect : option string;
  o_integrity : option string
}.

Definition onlyUrl (u : Scope.URL) : Overrides :=
  {| o_url := Some u; o_body := None; o_method := None; o_headers := None;
     o_referrer := None; o_referrerPolicy := None; o_mode := None;
     o_credentials := None; o_cache := None; o_redirect := None;
     o_integrity := None |}.

Definition cloneRequest (request : Request) (overrides : Overrides) : Request :=
  let body' :=
    if bool_decide (method request ∈ ["GET"; "HEAD"]) || bool_decide (is_Some (o_body overrides))
    then None
    else body request (* await request.blob() *) in
  {| url := default (url request) (o_url overrides);
     body := default body' (o_body overrides);
     method := default (method request) (o_method overrides);
     headers := default (headers request) (o_headers overrides);
     referrer := default (referrer request) (o_referrer overrides);
     referrerPolicy := default (referrerPolicy request) (o_referrerPolicy overrides);
     mode := default (if String.eqb (mode request) "navigate" then "same-origin"
                      else mode request) (o_mode overrides);
     credentials := default (credentials request) (o_credentials overrides);
     cache := default (cache request) (o_cache overrides);
     redirect := default (redirect request) (o_redirect overrides);
     integrity := default (integrity request) (o_integrity overrides) |}.

(** *** The world of the service worker *)

Record World : Type := {
  clients : list Target;     (* self.clients.matchAll() *)
  sender : Sender;           (* the request id counter, and what was posted *)
  loop : Loop                (* listeners, timers and promises of awaitReply *)
}.

(** What [accept] is called with. *)
Inductive Accepted : Type :=
  | AResponse (r : Response)
  | AFetch (request : Request).   (* the promise of [fetch(request)] *)

(** Code of an async function body: it reads and writes the world, may call
    [accept], and completes, throws or stays parked at an [await]. *)
Record ExecState : Type := { world : World; accepted : list Accepted }.

Definition Exec (A : Type) : Type := ExecState → Completion A * ExecState.

#[global] Instance Exec_ret : MRet Exec := λ A a s, (Return a, s).

#[global] Instance Exec_bind : MBind Exec := λ A B f m s,
  match m s with
  | (Return a, s') => f a s'
  | (Throw e, s') => (Throw e, s')
  | (Suspended, s') => (Suspended, s')
  end.

Definition liftC {A} (c : Completion A) : Exec A := λ s, (c, s).

Definition throw {A} (e : string) : Exec A := liftC (Throw e).

(** [try { body } catch (e) { handler(e) }] *)
Definition tryCatch {A} (body : Exec A) (handler : string → Exec A) : Exec A :=
  λ s, match body s with
       | (Throw e, s') => handler e s'
       | r => r
       end.

Definition accept (a : Accepted) : Exec unit :=
  λ s, (Return (), {| world := world s; accepted := accepted s ++ [a] |}).

(** The promise handed to [event.respondWith]: fulfilled with what
    [accept] was called with, rejected (the browser then fails the fetch
    with a network error), not settled yet, or never to be settled. *)
Inductive ResponsePromise : Type :=
  | SettledWith (a : Accepted)
  | RejectedWith (error : string)
  | Waiting                              (* parked at an await, may still settle *)
  | NeverSettles (unhandled : option string).

(** [new Promise(async (accept) => { body })].  The executor receives
    [accept] only.  Being an async function it never throws into the
    constructor: an exception in its body rejects the promise that the
    executor itself returns, which nothing observes, and the constructed
    promise is left unsettled. *)
Definition newPromiseAsync (body : Exec unit) (w : World) : ResponsePromise * World :=
  let '(c, s) := body {| world := w; accepted := [] |} in
  (match accepted s with
   | a :: _ => SettledWith a
   | [] =>
       match c with
       | Suspended => Waiting
       | Return _ => NeverSettles None
       | Throw e => NeverSettles (Some e)
       end
   end, world s).

(** What the fetch listener does with an event. *)
Inductive Handling : Type :=
  | BrowserDefault                         (* returned without respondWith *)
  | RespondWith (defaultPrevented : bool) (p : ResponsePromise).

Record ServiceWorkerConfiguration : Type := {
  shouldForwardRequestToPHPServer : option (Request → Scope.URL → bool)
}.

Section imports.
(** Imported from the scope module, and the [URL] constructor. *)
Variable isURLScoped : Scope.URL → bool.
Variable getURLScope : Scope.URL → option string.
Variable setURLScope : Scope.URL → option string → Scope.URL.
Variable removeURLScope : Scope.URL → Scope.URL.
Variable newURL : string → option Scope.URL.
(** The global scope of the service worker, as a message target. *)
Variable self : Target.

Definition broadcastMessageExpectReply (message : gmap string Value) : Exec Z :=
  λ s,
    let w := world s in
    let '(requestId, sender1) := getNextRequestId (sender w) in
    let sender2 :=
      {| lastRequestId := lastRequestId sender1;
         posted := posted sender1 ++
           ((λ client, (client, <["requestId" := Number requestId]> message, []))
              <$> clients w) |} in
    (Return requestId,
     {| world := {| clients := clients w; sender := sender2; loop := loop w |};
        accepted := accepted s |}).

(** [await awaitReply(self, requestId)], with the events that follow. *)
Definition awaitReplyOn (requestId : Z) (future : list Event) : Exec Value :=
  λ s,
    let w := world s in
    let '(k, loop1) := awaitReply self requestId None (loop w) in
    let loop2 := run future loop1 in
    (match promiseState k loop2 with
     | Fulfilled v => Return v
     | Rejected e => Throw e
     | Pending => Suspended
     end,
     {| world := {| clients := clients w; sender := sender w; loop := loop2 |};
        accepted := accepted s |}).

Definition scopeValue (scope : option string) : Value :=
  match scope with Some token => Str token | None => Null end.

Definition requestHeadersOf (request : Request) : gmap string Value :=
  foldl (λ requestHeaders pair, <[pair.1 := Str pair.2]> requestHeaders)
        ∅ (headers request).

Definition forwardedMessage (request : Request) (url : Scope.URL) (parsed : Parsed)
    : gmap string Value :=
  <["type" := Str "HTTPRequest"]>
  (<["scope" := scopeValue (getURLScope url)]>
   (<["request" :=
        Object (<["path" := Str (Scope.getPathQueryFragment url)]>
                (<["method" := Str (method request)]>
                 (<["files" := files parsed]>
                  (<["_POST" := post parsed]>
                   (<["headers" := Object (requestHeadersOf request)]> ∅)))))]> ∅)).

(** The executor of the forwarding branch. *)
Definition forward (request : Request) (url : Scope.URL) (future : list Event)
    : Exec unit :=
  parsed ← liftC (parsePost request);
  phpResponse ←
    tryCatch
      (requestId ← broadcastMessageExpectReply (forwardedMessage request url parsed);
       awaitReplyOn requestId future)
      (λ e, (* console.error(e, { requestedPath }) *) throw e);
  body ← liftC (member phpResponse "body");
  headers ← liftC (member phpResponse "headers");
  statusCode ← liftC (member phpResponse "statusCode");
  response ← liftC (newResponse body headers statusCode);
  accept (AResponse response).

(** The world after the broadcast of a forwarded request and the events
    that follow. *)
Definition afterForward (request : Request) (url : Scope.URL) (parsed : Parsed)
    (future : list Event) (w : World) : World :=
  let requestId := (lastRequestId (sender w) + 1)%Z in
  {| clients := clients w;
     sender :=
       {| lastRequestId := requestId;
          posted := posted (sender w) ++
            ((λ client,
                (client,
                 <["requestId" := Number requestId]>
                   (forwardedMessage request url parsed), []))
               <$> clients w) |};
     loop := run future (awaitReply self requestId None (loop w)).2 |}.

(** The executor of the unscoping branch. *)
Definition passthrough (request : Request) (unscopedUrl : Scope.URL) : Exec unit :=
  let newRequest := cloneRequest request (onlyUrl unscopedUrl) in
  accept (AFetch newRequest).

(** The URL of the event, with the scope of the referer when it has none
    of its own. *)
Definition resolveScope (request : Request) : Scope.URL :=
  let url := url request in
  if negb (isURLScoped url) then
    match newURL (default "" (headersGet "referer" (headers request))) with
    | Some referer =>
        if isURLScoped referer then setURLScope url (getURLScope referer) else url
    | None => url
    end
  else url.

Definition shouldForward (config : ServiceWorkerConfiguration)
    (request : Request) (unscopedUrl : Scope.URL) : bool :=
  match shouldForwardRequestToPHPServer config with
  | Some f => f request unscopedUrl
  | None => seemsLikeAPHPServerPath (Scope.pathname unscopedUrl)
  end.

(** The [fetch] listener installed by [initializeServiceWorker]. *)
Definition initializeServiceWorker (config : ServiceWorkerConfiguration)
    (request : Request) (future : list Event) (w : World) : Handling * World :=
  let url := resolveScope request in
  let unscopedUrl := removeURLScope url in
  if negb (isURLScoped url) || negb (shouldForward config request unscopedUrl) then
    if isURLScoped url then
      let '(p, w') := newPromiseAsync (passthrough request unscopedUrl) w in
      (RespondWith true p, w')
    else (BrowserDefault, w)
  else
    let '(p, w') := newPromiseAsync (forward request url future) w in
    (RespondWith true p, w').

End imports.

(** The imports as the spec describes them. *)
Definition specSetURLScope (choice : Scope.OnScoped) (url : Scope.URL)
    (token : option string) : Scope.URL :=
  match token with
  | Some t => default url (Scope.setURLScope choice url t)
  | None => url
  end.

(** Requests and worlds used in the examples below. *)
Definition exampleURL (path : string) : Scope.URL :=
  {| Scope.origin := "http://localhost:8777"; Scope.pathname := path;
     Scope.search := ""; Scope.hash := "" |}.

Definition exampleRequest (method path mode : string)
    (headers : list (string * string)) (body : option Body) : Request :=
  {| url := exampleURL path; method := method; headers := headers; body := body;
     referrer := "about:client"; referrerPolicy := "";
     mode := mode; credentials := "same-origin"; cache := "default";
     redirect := "follow"; integrity := "" |}.

(** A body that is neither form data nor JSON. *)
Definition unparsableBody : Body :=
  {| blob := "neither a form nor JSON"; formData := Throw "TypeError";
     json := Throw "SyntaxError" |}.

(** A JSON body. *)
Definition jsonBody (v : Value) : Body :=
  {| blob := "{}"; formData := Throw "TypeError"; json := Return v |}.

(** The reply payload of the execution engine. *)
Definition engineReply (statusCode : Z) (body : string) : Value :=
  Object (<["statusCode" := Number statusCode]>
          (<["headers" := Object ∅]>
           (<["body" := Str body]> ∅))).

Definition exampleWorld : World :=
  {| clients := [1; 2]; sender := initialSender; loop := initialLoop |}.

(** The listener with the scope codec of the spec, a [URL] constructor that
    knows one referer, and target [0] for the worker itself. *)
Definition exampleListener (choice : Scope.OnScoped) :=
  initializeServiceWorker Scope.isURLScoped Scope.getURLScope
    (specSetURLScope choice) Scope.removeURLScope
    (λ s, if String.eqb s "http://localhost:8777/scope:abc/index.php"
          then Some (exampleURL "/scope:abc/index.php") else None)
    0 {| shouldForwardRequestToPHPServer := None |}.

End ServiceWorker.

(** ** The development server of the build script *)

Module DevServer.
Import JS.

(** The middleware rewrites the path of a scoped request before anything
    else looks at it. *)
Definition unscope (url : string) : string :=
  if startsWith url "/scope:" then "/" +:+ join "/" (slice 2 (split "/" url))
  else url.

(** The characters that the class [[^a-zA-Z0-9\.\-_]] does not match. *)
Definition allowedInPluginName (c : ascii) : bool :=
  let n := nat_of_ascii c in
  (Nat.leb 97 n && Nat.leb n 122) ||    (* a-z *)
  (Nat.leb 65 n && Nat.leb n 90) ||     (* A-Z *)
  (Nat.leb 48 n && Nat.leb n 57) ||     (* 0-9 *)
  Nat.eqb n 46 || Nat.eqb n 45 || Nat.eqb n 95.   (* . - _ *)

(** [name.replace(/[^a-zA-Z0-9\.\-_]/, '')]: the pattern has no [g] flag, so
    only its first match is replaced. *)
Fixpoint sanitizePluginName (name : string) : string :=
  match name with
  | EmptyString => EmptyString
  | String c rest =>
      if allowedInPluginName c then String c (sanitizePluginName rest)
      else rest
  end.

(** Number of characters of a string that the pattern matches. *)
Fixpoint disallowedCount (name : string) : nat :=
  match name with
  | EmptyString => 0
  | String c rest =>
      (if allowedInPluginName c then 0 else 1) + disallowedCount rest
  end.

(** What the middleware does with a request. *)
Inductive Routed : Type :=
  | Next (url : string) (responseHeaders : list (string * string))
  | Proxied (upstream : string)
  | Crashed (error : string).

(** The middleware.  [pluginParam url] stands for
    [new URL(url, 'http://127.0.0.1:8777').searchParams.get('plugin')],
    [None] being [null]. *)
Definition middleware (pluginParam : string → option string) (reqUrl : string)
    : Routed :=
  let url := unscope reqUrl in
  if endsWith url "iframe-worker.html" then
    Next url [("Origin-Agent-Cluster", "?1")]
  else if startsWith url "/plugin-proxy" then
    match pluginParam url with
    | Some name =>
        Proxied ("https://downloads.wordpress.org/plugin/" +:+ sanitizePluginName name)
    | None => Crashed "TypeError"
    end
  else Next url [].

(** [copyToDist].  [fs.copyFileSync(src, dest)] is the platform's: it
    changes the file system or throws, for a missing source, a missing
    output directory and whatever else the file system refuses; [Some e]
    stands for throwing [e]. *)
Section fs.
Variable FS : Type.
Variable copyFileSync : string → string → FS → option string * FS.

Definition copyToDist (outdir filePath : string) (fs : FS)
    : Completion string * FS :=
  let filename := default "undefined" (pop (split "/" filePath)) in
  let outPath := outdir +:+ "/" +:+ filename in
  match copyFileSync filePath outPath fs with
  | (Some e, fs') => (Throw e, fs')
  | (None, fs') => (Return outPath, fs')
  end.
End fs.

Arguments copyToDist {FS} copyFileSync outdir filePath fs.

(** A file system for the examples: the directories that exist and the
    contents of the files.  Copying fails when the source is not a file or
    the directory of the destination does not exist. *)
Definition dirname (path : string) : string :=
  join "/" (take (length (split "/" path) - 1) (split "/" path)).

Record ExampleFS : Type := {
  directories : list string;
  contents : gmap string string
}.

Definition exampleCopyFileSync (src dest : string) (fs : ExampleFS)
    : option string * ExampleFS :=
  match contents fs !! src with
  | Some content =>
      if bool_decide (dirname dest ∈ directories fs) then
        (None, {| directories := directories fs;
                  contents := <[dest := content]> (contents fs) |})
      else (Some "ENOENT", fs)
  | None => (Some "ENOENT", fs)
  end.

End DevServer.

(** ** The script that runs the API extractor over the packages *)

Module ApiExtractor.
Import JS.

Definition recipe : list (string * list string) :=
  [("php-wasm", ["php-wasm"]);
   ("php-wasm-browser",
    ["php-wasm-browser"; "php-wasm-browser/worker-thread";
     "php-wasm-browser/service-worker"]);
   ("wordpress-wasm",
    ["wordpress-wasm"; "wordpress-wasm/worker-thread";
     "wordpress-wasm/service-worker"])].

Record ExtractorResult : Type := {
  succeeded : bool;
  errorCount : nat
}.

(** The three lines the script can log after a run of the extractor. *)
Inductive LogLine : Type :=
  | CompletedSuccessfully
  | CompletedWithErrors
  | CompletedWithWarnings.

(** What the script has done so far: the extractor runs it made, the exit
    code it set ([None] while [process.exitCode] is untouched), and what it
    logged. *)
Record Progress : Type := {
  invoked : list (string * string);
  exitCode : option Z;
  logged : list LogLine
}.

Definition start : Progress := {| invoked := []; exitCode := None; logged := [] |}.

Section script.
(** The path of the configuration file, whether it exists, and the outcome
    of [Extractor.invoke] for a package and an entry point. *)
Variable configObjectFullPath : string.
Variable configExists : bool.
Variable invoke : string → string → ExtractorResult.

(** The inner loop, over the entry points of one package. *)
Fixpoint overEntrypoints (package : string) (entrypoints : list string)
    (p : Progress) : Completion Progress :=
  match entrypoints with
  | [] => Return p
  | entrypoint :: rest =>
      if negb configExists then
        Throw ("Config file not found: " +:+ configObjectFullPath)
      else
        let extractorResult := invoke package entrypoint in
        let ran := invoked p ++ [(package, entrypoint)] in
        if succeeded extractorResult then
          overEntrypoints package rest
            {| invoked := ran; exitCode := exitCode p;
               logged := logged p ++ [CompletedSuccessfully] |}
        else
          (* break *)
          Return
            {| invoked := ran; exitCode := Some 1%Z;
               logged := logged p ++
                 [if Nat.ltb 0 (errorCount extractorResult)
                  then CompletedWithErrors else CompletedWithWarnings] |}
  end.

(** The entry points of a package that the extractor is run on: all of
    them up to and including the first one that fails. *)
Fixpoint attempted (package : string) (entrypoints : list string) : list string :=
  match entrypoints with
  | [] => []
  | entrypoint :: rest =>
      entrypoint ::
        (if succeeded (invoke package entrypoint) then attempted package rest
         else [])
  end.

(** The outer loop, over the packages. *)
Fixpoint overPackages (packages : list (string * list string)) (p : Progress)
    : Completion Progress :=
  match packages with
  | [] => Return p
  | (package, entrypoints) :: rest =>
      match overEntrypoints package entrypoints p with
      | Return p' => overPackages rest p'
      | Throw e => Throw e
      | Suspended => Suspended
      end
  end.
End script.

End ApiExtractor.

(** ** The PHP runtime wrapper *)

Module PHPWrapper.
Import JS.

(** A property of [phpModuleArgs]: a function of the caller, or data. *)
Inductive CallerArg : Type :=
  | Fn (name : string)
  | Data (v : Value).

(** [if (x)] *)
Definition truthy (x : CallerArg) : bool :=
  match x with
  | Fn _ => true
  | Data (Undefined | Null | Boolean false | Number 0 | Str EmptyString) => false
  | Data _ => true
  end.

(** How a property of the argument object handed to the Emscripten loader
    is filled by [startPHP]. *)
Inductive ModuleArg : Type :=
  | LogAbort                 (* onAbort: console.error *)
  | PushToStdout             (* print: streams.stdout.push(...chunks) *)
  | PushToStderr             (* printErr: streams.stderr.push(...chunks) *)
  | FromCaller (x : CallerArg)   (* a property of phpModuleArgs *)
  | ForcedTrue               (* noInitialRun: true *)
  | InitHook                 (* onRuntimeInitialized() { ... } *)
  | DependencyMonitor.       (* monitorRunDependencies(nbLeft) { ... } *)

(** The object literal [{ onAbort, print, printErr, ...phpModuleArgs,
    noInitialRun, onRuntimeInitialized, monitorRunDependencies }]: a later
    property replaces an earlier one of the same name. *)
Definition emscriptenArgs (phpModuleArgs : gmap string CallerArg)
    : gmap string ModuleArg :=
  <["monitorRunDependencies" := DependencyMonitor]>
  (<["onRuntimeInitialized" := InitHook]>
   (<["noInitialRun" := ForcedTrue]>
    ((FromCaller <$> phpModuleArgs) ∪
     (<["onAbort" := LogAbort]>
      (<["print" := PushToStdout]>
       (<["printErr" := PushToStderr]> ∅)))))).

(** *** Waiting for the runtime: [startPHP] *)

(** The two promises [startPHP] awaits, whether [monitorRunDependencies] is
    still a property of the runtime, and how often the caller's own
    [onRuntimeInitialized] was called. *)
Record Loading : Type := {
  depsReady : bool;
  phpReady : bool;
  monitoring : bool;
  callerInitCalls : nat
}.

(** What the Emscripten runtime may call while it loads. *)
Inductive LoaderEvent : Type :=
  | OnRuntimeInitialized
  | MonitorRunDependencies (nbLeft : Z).

#[global] Instance LoaderEvent_eq_dec : EqDecision LoaderEvent.
Proof. solve_decision. Defined.

(** The state when [startPHP] reaches its first [await]. *)
Definition startLoading (dataDependenciesModules : nat) : Loading :=
  {| depsReady := Nat.eqb dataDependenciesModules 0;
     phpReady := false; monitoring := true; callerInitCalls := 0 |}.

(** One call made by the runtime.  In [onRuntimeInitialized] the caller's
    own hook is called first when it is set; calling something that is not
    a function throws, and [phpReady] is then not resolved. *)
Definition loaderStep (phpModuleArgs : gmap string CallerArg)
    (st : Loading) (ev : LoaderEvent) : Loading :=
  match ev with
  | OnRuntimeInitialized =>
      match phpModuleArgs !! "onRuntimeInitialized" with
      | Some (Fn _) =>
          {| depsReady := depsReady st; phpReady := true;
             monitoring := monitoring st;
             callerInitCalls := S (callerInitCalls st) |}
      | Some (Data v) =>
          if truthy (Data v) then st
          else {| depsReady := depsReady st; phpReady := true;
                  monitoring := monitoring st;
                  callerInitCalls := callerInitCalls st |}
      | None =>
          {| depsReady := depsReady st; phpReady := true;
             monitoring := monitoring st;
             callerInitCalls := callerInitCalls st |}
      end
  | MonitorRunDependencies nbLeft =>
      if monitoring st && Z.eqb nbLeft 0 then
        {| depsReady := true; phpReady := phpReady st; monitoring := false;
           callerInitCalls := callerInitCalls st |}
      else st
  end.

(** The caller's hook is absent, a function, or falsy data: calling it
    does not throw. *)
Definition hookCallable (phpModuleArgs : gmap string CallerArg) : Prop :=
  match phpModuleArgs !! "onRuntimeInitialized" with
  | Some (Data v) => truthy (Data v) = false
  | _ => True
  end.

(** [startPHP] returns once both promises are resolved. *)
Definition started (st : Loading) : bool := depsReady st && phpReady st.

(** *** The [PHP] class *)

(** Arrays are objects: the two streams are references into a heap of
    arrays, so that an array handed out by [run] is the very array the
    [printErr] handler pushes to until [#refresh] puts a new one in its
    place. *)
Definition Ref : Type := nat.
Definition Heap : Type := list (list string).

(** [array.push(...chunks)] *)
Definition push (r : Ref) (chunks : list string) (h : Heap) : Heap :=
  alter (λ a, a ++ chunks) r h.

(** [[]]: a new array. *)
Definition newArray (h : Heap) : Ref * Heap := (length h, h ++ [[]]).

Definition readArray (r : Ref) (h : Heap) : list string := default [] (h !! r).

Record Streams : Type := {
  stdout : Ref;
  stderr : Ref
}.

Record PHPOutput : Type := {
  out_exitCode : Z;
  out_stdout : string;
  out_stderr : Ref
}.

Section runtime.
(** The Emscripten runtime: its state, and what a [ccall] of an exported
    function returns, prints and leaves behind. *)
Variable Runtime : Type.

Record Called : Type := {
  returned : Z;
  printed : list string;
  printedErr : list string;
  after : Runtime
}.

Variable ccall : string → list string → Runtime → Called.

(** A [PHP] object: the runtime, the streams, the [print] and [printErr]
    the runtime was loaded with, and the arrays of the program. *)
Record PHP : Type := {
  runtime : Runtime;
  streams : Streams;
  args : gmap string ModuleArg;
  heap : Heap
}.

Definition pushesToStdout (arg : option ModuleArg) : bool :=
  match arg with Some PushToStdout => true | _ => false end.

Definition pushesToStderr (arg : option ModuleArg) : bool :=
  match arg with Some PushToStderr => true | _ => false end.

(** A [ccall] with the output it prints collected by the handlers, which
    push to the arrays that [streams.stdout] and [streams.stderr] name when
    they are called. *)
Definition call (name : string) (arguments : list string) (php : PHP) : Z * PHP :=
  let r := ccall name arguments (runtime php) in
  (returned r,
   {| runtime := after r;
      streams := streams php;
      args := args php;
      heap :=
        push (stderr (streams php))
          (if pushesToStderr (args php !! "printErr") then printedErr r else [])
          (push (stdout (streams php))
             (if pushesToStdout (args php !! "print") then printed r else [])
             (heap php)) |}).

(** [#refresh()] *)
Definition refresh (php : PHP) : PHP :=
  let php1 := (call "phpwasm_refresh" [] php).2 in
  let '(out, heap1) := newArray (heap php1) in
  let '(err, heap2) := newArray heap1 in
  {| runtime := runtime php1;
     streams := {| stdout := out; stderr := err |};
     args := args php1;
     heap := heap2 |}.

(** [run(code)]: the standard output is joined into a string before
    [#refresh()]; the standard error is handed out as the array itself. *)
Definition run (code : string) (php : PHP) : PHPOutput * PHP :=
  let '(exitCode, php1) := call "phpwasm_run" ["?>" +:+ code] php in
  let response :=
    {| out_exitCode := exitCode;
       out_stdout :=
         join (String "010"%char EmptyString)
           (readArray (stdout (streams php1)) (heap php1));
       out_stderr := stderr (streams php1) |} in
  (response, refresh php1).

(** A sequence of runs, with their outputs in order. *)
Fixpoint runAll (codes : list string) (php : PHP) : list PHPOutput * PHP :=
  match codes with
  | [] => ([], php)
  | code :: rest =>
      let '(output, php1) := run code php in
      let '(outputs, php2) := runAll rest php1 in
      (output :: outputs, php2)
  end.

(** The streams of a [PHP] object made by [startPHP] are two arrays. *)
Definition streamsAllocated (php : PHP) : Prop :=
  stdout (streams php) < length (heap php) ∧
  stderr (streams php) < length (heap php) ∧
  stdout (streams php) ≠ stderr (streams php).
End runtime.

Arguments returned {Runtime} _.
Arguments printed {Runtime} _.
Arguments printedErr {Runtime} _.
Arguments after {Runtime} _.
Arguments runtime {Runtime} _.
Arguments streams {Runtime} _.
Arguments args {Runtime} _.
Arguments heap {Runtime} _.
Arguments call {Runtime} ccall name arguments php.
Arguments refresh {Runtime} ccall php.
Arguments run {Runtime} ccall code php.
Arguments runAll {Runtime} ccall codes php.
Arguments streamsAllocated {Runtime} php.

(** The line feed that joins the chunks of the standard output. *)
Definition LF : string := String "010"%char EmptyString.

End PHPWrapper.

(** ** Replies and headers, for the statements below *)

Module Extras.
Import JS Messaging ServiceWorker.

(** The last value listed for a header name. *)
Fixpoint lastHeader (name : string) (hs : list (string * string)) : option string :=
  match hs with
  | [] => None
  | (k, v) :: rest =>
      match lastHeader name rest with
      | Some v' => Some v'
      | None => if String.eqb k name then Some v else None
      end
  end.

(** What the loop over [formData.keys()] stores for a key: in [post] ... *)
Definition fieldOf (fd : list (string * FormDataEntryValue)) (key : string)
    : option Value :=
  match formDataGet key fd with
  | Some (FieldValue value) => Some (Str value)
  | Some (FileValue _ _ _) => None
  | None => Some Null
  end.

(** ... and in [files]. *)
Definition fileOf (fd : list (string * FormDataEntryValue)) (key : string)
    : option Value :=
  match formDataGet key fd with
  | Some (FileValue name type content) => Some (File name type content)
  | _ => None
  end.

(** [cloneRequest(request, {})]: no override at all. *)
Definition noOverrides : Overrides :=
  {| o_url := None; o_body := None; o_method := None; o_headers := None;
     o_referrer := None; o_referrerPolicy := None; o_mode := None;
     o_credentials := None; o_cache := None; o_redirect := None;
     o_integrity := None |}.

(** The messages that [broadcastMessageExpectReply] posts: one for each
    client, with the request id added. *)
Definition broadcast (requestId : Z) (message : gmap string Value)
    (clients : list Target) : list (Target * gmap string Value * list Value) :=
  (λ client, (client, <["requestId" := Number requestId]> message, [])) <$> clients.

(** Calls of [awaitReply] that are still pending. *)
Definition isPending (p : PromiseState) : bool :=
  match p with Pending => true | _ => false end.

Definition pendingCalls (st : Loop) : list nat :=
  filter (λ k, isPending (promiseState k st) = true) (seq 0 (fresh st)).

End Extras.

(** * Properties *)

(** ** Lists *)

Section filter_facts.
Context {A : Type} (P Q : A → Prop).
Context `{!∀ x, Decision (P x)} `{!∀ x, Decision (Q x)}.

Lemma filter_absorb (l : list A) :
  (∀ x, P x → Q x) → filter P (filter Q l) = filter P l.
Proof.
  intros HPQ. induction l as [|x l IH]; [done|].
  rewrite (filter_cons Q). destruct (decide (Q x)) as [HQ|HQ].
  - rewrite !(filter_cons P). destruct (decide (P x)); by rewrite IH.
  - rewrite (filter_cons P). destruct (decide (P x)) as [HP|HP]; [|done].
    exfalso. auto.
Qed.

Lemma filter_swap (l : list A) :
  filter P (filter Q l) = filter Q (filter P l).
Proof.
  induction l as [|x l IH]; [done|].
  rewrite (filter_cons Q), (filter_cons P).
  destruct (decide (Q x)) as [HQ|HQ], (decide (P x)) as [HP|HP];
    rewrite ?(filter_cons P), ?(filter_cons Q);
    repeat (case_decide; try done); by rewrite IH.
Qed.

Lemma filter_none (l : list A) :
  (∀ x, x ∈ l → ¬ P x) → filter P l = [].
Proof.
  induction l as [|x l IH]; [done|]. intros Hall.
  rewrite filter_cons_False by (apply Hall; left).
  apply IH. intros y Hy. apply Hall. by right.
Qed.

End filter_facts.

(** ** The event loop of [awaitReply] *)

Module LoopFacts.
Import JS Messaging.

(** Primitive operations made on behalf of call [j] leave the view of any
    other call [k] as it is. *)

Lemma view_addEventListener_ne k l st :
  l_id l ≠ k → view k (addEventListener l st) = view k st.
Proof.
  intros Hne. unfold view, listenersOf, timersOf, settlesOf; simpl.
  by rewrite filter_app, filter_cons_False, filter_nil, app_nil_r.
Qed.

Lemma view_removeEventListener_ne k target j st :
  j ≠ k → view k (removeEventListener target j st) = view k st.
Proof.
  intros Hne. unfold view, listenersOf, timersOf, settlesOf; simpl.
  rewrite filter_absorb; [done|]. intros l Hl [_ Hj]. congruence.
Qed.

Lemma view_setTimeout_ne k j target timeout st :
  j ≠ k → view k (setTimeout j target timeout st) = view k st.
Proof.
  intros Hne. unfold view, listenersOf, timersOf, settlesOf; simpl.
  rewrite filter_app, filter_cons_False, filter_nil, app_nil_r; done.
Qed.

Lemma view_clearTimeout_ne k j st :
  j ≠ k → view k (clearTimeout j st) = view k st.
Proof.
  intros Hne. unfold view, listenersOf, timersOf, settlesOf; simpl.
  rewrite filter_absorb; [done|]. intros t Ht. congruence.
Qed.

Lemma view_settle_ne k j s st :
  j ≠ k → view k (settle j s st) = view k st.
Proof.
  intros Hne. unfold view, listenersOf, timersOf, settlesOf; simpl.
  by rewrite filter_app, filter_cons_False, filter_nil, app_nil_r.
Qed.

Lemma view_responseHandler_ne k l data st :
  l_id l ≠ k → view k (responseHandler l data st) = view k st.
Proof.
  intros Hne. unfold responseHandler. destruct (isReplyTo _ _); [|done].
  by rewrite view_settle_ne, view_clearTimeout_ne, view_removeEventListener_ne.
Qed.

Lemma view_failOntimeout_ne k t st :
  t_id t ≠ k → view k (failOntimeout t st) = view k st.
Proof.
  intros Hne. unfold failOntimeout.
  by rewrite view_removeEventListener_ne, view_settle_ne.
Qed.

Lemma view_fire_ne k t st :
  t_id t ≠ k → view k (fire t st) = view k st.
Proof.
  intros Hne. unfold fire. case_bool_decide; [|done].
  rewrite view_failOntimeout_ne by done.
  unfold view, listenersOf, timersOf, settlesOf; simpl.
  rewrite filter_absorb; [done|]. intros t' Ht' ->. done.
Qed.

Lemma view_awaitReply_ne k target requestId timeout st :
  k ≠ fresh st → view k (awaitReply target requestId timeout st).2 = view k st.
Proof.
  intros Hne. unfold awaitReply; simpl.
  rewrite view_addEventListener_ne, view_setTimeout_ne; done.
Qed.

(** The clock and the promise counter move only by [elapse] and
    [awaitReply]. *)

Lemma responseHandler_clock_fresh l data st :
  clock (responseHandler l data st) = clock st ∧
  fresh (responseHandler l data st) = fresh st.
Proof. unfold responseHandler. by destruct (isReplyTo _ _). Qed.

Lemma callListeners_clock_fresh ls data st :
  clock (callListeners ls data st) = clock st ∧
  fresh (callListeners ls data st) = fresh st.
Proof.
  revert st. induction ls as [|l ls IH]; intros st; [done|]. simpl.
  destruct (IH (if bool_decide (l ∈ listeners st)
                then responseHandler l data st else st)) as [-> ->].
  case_bool_decide; [apply responseHandler_clock_fresh | done].
Qed.

Lemma fire_clock_fresh t st :
  clock (fire t st) = clock st ∧ fresh (fire t st) = fresh st.
Proof. unfold fire. by case_bool_decide. Qed.

Lemma foldl_fire_clock_fresh ts st :
  clock (foldl (λ s t, fire t s) st ts) = clock st ∧
  fresh (foldl (λ s t, fire t s) st ts) = fresh st.
Proof.
  revert st. induction ts as [|t ts IH]; intros st; [done|]. simpl.
  destruct (IH (fire t st)) as [-> ->]. apply fire_clock_fresh.
Qed.

Lemma elapse_clock d st : clock (elapse d st) = (clock st + Z.max 0 d)%Z.
Proof. unfold elapse. by rewrite (proj1 (foldl_fire_clock_fresh _ _)). Qed.

Lemma elapse_fresh d st : fresh (elapse d st) = fresh st.
Proof. unfold elapse. by rewrite (proj2 (foldl_fire_clock_fresh _ _)). Qed.

Lemma step_fresh st ev :
  fresh (step st ev) =
    match ev with EvAwait _ _ _ => S (fresh st) | _ => fresh st end.
Proof.
  destruct ev; simpl; [done | | apply elapse_fresh].
  apply callListeners_clock_fresh.
Qed.

Lemma step_clock st ev :
  clock (step st ev) = (clock st + elapsed [ev])%Z.
Proof.
  destruct ev; simpl.
  - lia.
  - unfold dispatchMessage.
    rewrite (proj1 (callListeners_clock_fresh _ _ _)). lia.
  - rewrite elapse_clock. lia.
Qed.

Lemma elapsed_app evs1 evs2 :
  elapsed (evs1 ++ evs2) = (elapsed evs1 + elapsed evs2)%Z.
Proof.
  induction evs1 as [|ev evs1 IH]; simpl; [done|].
  fold (elapsed (evs1 ++ evs2)); fold (elapsed evs1).
  destruct ev; lia.
Qed.

Lemma elapsed_nonneg evs : (0 <= elapsed evs)%Z.
Proof.
  induction evs as [|ev evs IH]; simpl; [done|].
  fold (elapsed evs). destruct ev; lia.
Qed.

Lemma run_app evs1 evs2 st : run (evs1 ++ evs2) st = run evs2 (run evs1 st).
Proof. apply foldl_app. Qed.

Lemma run_cons ev evs st : run (ev :: evs) st = run evs (step st ev).
Proof. reflexivity. Qed.

Lemma run_clock evs st : clock (run evs st) = (clock st + elapsed evs)%Z.
Proof.
  revert st. induction evs as [|ev evs IH]; intros st.
  - unfold run, elapsed; simpl. lia.
  - rewrite run_cons, IH, step_clock.
    change (ev :: evs) with ([ev] ++ evs). rewrite (elapsed_app [ev] evs). lia.
Qed.

Lemma run_fresh_mono evs st : fresh st ≤ fresh (run evs st).
Proof.
  revert st. induction evs as [|ev evs IH]; intros st; [done|].
  rewrite run_cons. etrans; [|apply IH]. rewrite step_fresh. destruct ev; lia.
Qed.

(** *** Dispatch of a message *)

Lemma callListeners_other k ls data st :
  (∀ l, l ∈ ls → l_id l ≠ k) → view k (callListeners ls data st) = view k st.
Proof.
  revert st. induction ls as [|l ls IH]; intros st Hls; [done|]. simpl.
  rewrite IH by (intros l' Hl'; apply Hls; by right).
  case_bool_decide; [|done]. apply view_responseHandler_ne, Hls. by left.
Qed.

Lemma listenersOf_nil_not_elem k l st :
  listenersOf k st = [] → l_id l = k → l ∉ listeners st.
Proof. intros Hnil Hk. by eapply (filter_nil_not_elem_of _ _ _ Hnil). Qed.

Lemma timersOf_nil_not_elem k t st :
  timersOf k st = [] → t_id t = k → t ∉ timers st.
Proof. intros Hnil Hk. by eapply (filter_nil_not_elem_of _ _ _ Hnil). Qed.

(** Once the listener of call [k] is gone, no dispatch touches the call. *)
Lemma callListeners_not_listening k ls data st :
  listenersOf k st = [] → view k (callListeners ls data st) = view k st.
Proof.
  revert st. induction ls as [|l ls IH]; intros st Hnil; [done|]. simpl.
  case_bool_decide as Hreg; [|by apply IH].
  assert (l_id l ≠ k) as Hne.
  { intros Hk. by apply (listenersOf_nil_not_elem k l st). }
  assert (view k (responseHandler l data st) = view k st) as Hv
    by by apply view_responseHandler_ne.
  rewrite IH; [done|]. injection Hv as -> _ _. done.
Qed.

Section one_call.
Variables (k : nat) (target : Target) (requestId deadline : Z).

Let L : Listener :=
  {| l_target := target; l_id := k; l_requestId := requestId |}.
Let T : Timer :=
  {| t_id := k; t_deadline := deadline; t_target := target |}.

Lemma waiting_inv st :
  waiting k target requestId deadline st →
  listenersOf k st = [L] ∧ timersOf k st = [T] ∧ settlesOf k st = [].
Proof. unfold waiting, view. intros [= -> -> ->]. done. Qed.

Lemma waiting_listener st l :
  waiting k target requestId deadline st →
  l ∈ listeners st → l_id l = k → l = L.
Proof.
  intros (HL & _ & _)%waiting_inv Hin Hk.
  assert (l ∈ listenersOf k st) as Hl by by apply list_elem_of_filter.
  rewrite HL in Hl. by apply list_elem_of_singleton in Hl.
Qed.

Lemma waiting_timer st t :
  waiting k target requestId deadline st →
  t ∈ timers st → t_id t = k → t = T.
Proof.
  intros (_ & HT & _)%waiting_inv Hin Hk.
  assert (t ∈ timersOf k st) as Ht by by apply list_elem_of_filter.
  rewrite HT in Ht. by apply list_elem_of_singleton in Ht.
Qed.

Lemma waiting_registered st :
  waiting k target requestId deadline st → L ∈ listeners st ∧ T ∈ timers st.
Proof.
  intros (HL & HT & _)%waiting_inv. split.
  - assert (L ∈ listenersOf k st) as Hl by (rewrite HL; by left).
    by apply list_elem_of_filter in Hl as [_ ?].
  - assert (T ∈ timersOf k st) as Ht by (rewrite HT; by left).
    by apply list_elem_of_filter in Ht as [_ ?].
Qed.

(** The handler of the call meets its reply. *)
Lemma responseHandler_waiting_match data st :
  waiting k target requestId deadline st →
  isReplyTo requestId data = true →
  settled k (Resolve (get data "response")) (responseHandler L data st).
Proof.
  intros (HL & HT & HS)%waiting_inv Hm.
  unfold responseHandler; simpl. rewrite Hm.
  unfold settled, view, listenersOf, timersOf, settlesOf; simpl.
  f_equal; [f_equal|].
  - rewrite filter_swap. fold (listenersOf k st). rewrite HL.
    rewrite filter_cons_False; [done|]. intros Hn. by apply Hn.
  - rewrite filter_swap. fold (timersOf k st). rewrite HT.
    rewrite filter_cons_False; [done|]. intros Hn. by apply Hn.
  - rewrite filter_app. fold (settlesOf k st). rewrite HS.
    by rewrite filter_cons_True.
Qed.

Lemma responseHandler_waiting_nomatch data st :
  isReplyTo requestId data = false → responseHandler L data st = st.
Proof. intros Hm. unfold responseHandler; simpl. by rewrite Hm. Qed.

Lemma callListeners_waiting_nomatch ls data st :
  waiting k target requestId deadline st →
  (∀ l, l ∈ ls → l_id l = k → l = L) →
  isReplyTo requestId data = false →
  view k (callListeners ls data st) = view k st.
Proof.
  revert st. induction ls as [|l ls IH]; intros st Hw Hls Hm; [done|]. simpl.
  assert (view k (if bool_decide (l ∈ listeners st)
                  then responseHandler l data st else st) = view k st) as Hv.
  { case_bool_decide; [|done]. destruct (decide (l_id l = k)) as [Hk|Hk].
    - rewrite (Hls l) by (done || by left).
      by rewrite responseHandler_waiting_nomatch.
    - by apply view_responseHandler_ne. }
  rewrite IH; [done | | | done].
  - unfold waiting. by rewrite Hv.
  - intros l' Hl'. apply Hls. by right.
Qed.

Lemma callListeners_waiting_match ls data st :
  waiting k target requestId deadline st →
  (∀ l, l ∈ ls → l_id l = k → l = L) →
  L ∈ ls →
  isReplyTo requestId data = true →
  settled k (Resolve (get data "response")) (callListeners ls data st).
Proof.
  revert st. induction ls as [|l ls IH]; intros st Hw Hls Hin Hm.
  { by apply elem_of_nil in Hin. }
  simpl. destruct (decide (l_id l = k)) as [Hk|Hk].
  - rewrite (Hls l) by (done || by left).
    rewrite bool_decide_eq_true_2 by by apply waiting_registered.
    pose proof (responseHandler_waiting_match data st Hw Hm) as Hs.
    unfold settled in *. rewrite callListeners_not_listening; [done|].
    by injection Hs as -> _ _.
  - apply IH; [| | |done].
    + unfold waiting. case_bool_decide; [|done].
      by rewrite view_responseHandler_ne.
    + intros l' Hl'. apply Hls. by right.
    + apply elem_of_cons in Hin as [Heq|Hin]; [|done].
      destruct Hk. by rewrite <- Heq.
Qed.

(** A message event seen from a waiting call. *)
Lemma dispatchMessage_waiting target' data st :
  waiting k target requestId deadline st →
  if bool_decide (target' = target) && isReplyTo requestId data
  then settled k (Resolve (get data "response")) (dispatchMessage target' data st)
  else view k (dispatchMessage target' data st) = view k st.
Proof.
  intros Hw. unfold dispatchMessage.
  assert (∀ l, l ∈ filter (λ l, l_target l = target') (listeners st) →
               l_id l = k → l = L) as Hls.
  { intros l [_ Hl]%list_elem_of_filter Hk. by eapply waiting_listener. }
  case_bool_decide as Ht; simpl.
  - subst target'. destruct (isReplyTo requestId data) eqn:Hm.
    + apply callListeners_waiting_match; [done..| |done].
      apply list_elem_of_filter. split; [done|]. by apply waiting_registered.
    + by apply callListeners_waiting_nomatch.
  - apply callListeners_other. intros l Hl Hk.
    pose proof (Hls l Hl Hk) as ->.
    apply list_elem_of_filter in Hl as [Hl _]. by apply Ht.
Qed.

End one_call.

(** *** Timers *)

Lemma elem_of_insertTimer t t' ts : t ∈ insertTimer t' ts ↔ t = t' ∨ t ∈ ts.
Proof.
  induction ts as [|u ts IH]; simpl.
  - rewrite list_elem_of_singleton. split; [by left | intros [?|[]%elem_of_nil]; done].
  - destruct (t_deadline t' <=? t_deadline u)%Z.
    + by rewrite elem_of_cons.
    + rewrite !elem_of_cons, IH. tauto.
Qed.

Lemma elem_of_byDeadline t ts : t ∈ byDeadline ts ↔ t ∈ ts.
Proof.
  induction ts as [|u ts IH]; simpl; [done|].
  rewrite elem_of_insertTimer, elem_of_cons. fold (byDeadline ts). by rewrite IH.
Qed.

Lemma foldl_fire_other k ts st :
  (∀ t, t ∈ ts → t_id t ≠ k) →
  view k (foldl (λ s t, fire t s) st ts) = view k st.
Proof.
  revert st. induction ts as [|t ts IH]; intros st Hts; [done|]. simpl.
  rewrite IH by (intros t' Ht'; apply Hts; by right).
  apply view_fire_ne, Hts. by left.
Qed.

(** Once the timer of call [k] is gone, no timer touches the call. *)
Lemma foldl_fire_no_timer k ts st :
  timersOf k st = [] → view k (foldl (λ s t, fire t s) st ts) = view k st.
Proof.
  revert st. induction ts as [|t ts IH]; intros st Hnil; [done|]. simpl.
  assert (view k (fire t st) = view k st) as Hv.
  { destruct (decide (t_id t = k)) as [Hk|Hk]; [|by apply view_fire_ne].
    unfold fire. rewrite bool_decide_eq_false_2; [done|].
    by apply (timersOf_nil_not_elem k). }
  rewrite IH; [done|]. by injection Hv as _ -> _.
Qed.

Section one_call_timer.
Variables (k : nat) (target : Target) (requestId deadline : Z).

Let L : Listener :=
  {| l_target := target; l_id := k; l_requestId := requestId |}.
Let T : Timer :=
  {| t_id := k; t_deadline := deadline; t_target := target |}.

Lemma fire_waiting st :
  waiting k target requestId deadline st →
  settled k (Reject "Request timed out") (fire T st).
Proof.
  intros Hw. pose proof (waiting_registered _ _ _ _ _ Hw) as [_ HTin].
  apply waiting_inv in Hw as (HL & HT & HS).
  unfold fire. rewrite bool_decide_eq_true_2 by done.
  unfold failOntimeout, settled, view, listenersOf, timersOf, settlesOf; simpl.
  f_equal; [f_equal|].
  - rewrite filter_swap. fold (listenersOf k st). rewrite HL.
    rewrite filter_cons_False; [done|]. intros Hn. by apply Hn.
  - rewrite filter_swap. fold (timersOf k st). rewrite HT.
    rewrite filter_cons_False; [done|]. intros Hn. by apply Hn.
  - rewrite filter_app. fold (settlesOf k st). rewrite HS.
    by rewrite filter_cons_True.
Qed.

Lemma foldl_fire_waiting_due ts st :
  waiting k target requestId deadline st →
  (∀ t, t ∈ ts → t_id t = k → t = T) →
  T ∈ ts →
  settled k (Reject "Request timed out") (foldl (λ s t, fire t s) st ts).
Proof.
  revert st. induction ts as [|t ts IH]; intros st Hw Hts Hin.
  { by apply elem_of_nil in Hin. }
  simpl. destruct (decide (t_id t = k)) as [Hk|Hk].
  - rewrite (Hts t) by (done || by left).
    pose proof (fire_waiting st Hw) as Hs.
    unfold settled in *. rewrite foldl_fire_no_timer; [done|].
    by injection Hs as _ -> _.
  - apply IH.
    + unfold waiting. by rewrite view_fire_ne.
    + intros t' Ht'. apply Hts. by right.
    + apply elem_of_cons in Hin as [Heq|Hin]; [|done].
      destruct Hk. by rewrite <- Heq.
Qed.

(** Passing time seen from a waiting call. *)
Lemma elapse_waiting d st :
  waiting k target requestId deadline st →
  if (deadline <=? clock st + Z.max 0 d)%Z
  then settled k (Reject "Request timed out") (elapse d st)
  else view k (elapse d st) = view k st.
Proof.
  intros Hw. unfold elapse.
  set (now := (clock st + Z.max 0 d)%Z).
  set (st' := {| clock := now; listeners := listeners st; timers := timers st;
                 settles := settles st; fresh := fresh st |}).
  assert (waiting k target requestId deadline st') as Hw' by exact Hw.
  assert (∀ t, t ∈ byDeadline (filter (λ t, (t_deadline t <= now)%Z) (timers st)) →
               t_id t = k → t = T) as Hts.
  { intros t [_ Ht]%elem_of_byDeadline%list_elem_of_filter Hk.
    by eapply waiting_timer. }
  destruct (Z.leb_spec deadline now) as [Hdue|Hnot].
  - apply foldl_fire_waiting_due; [done..|].
    apply elem_of_byDeadline, list_elem_of_filter. split; [done|].
    by apply (waiting_registered _ _ _ _ _ Hw).
  - change (view k st) with (view k st'). apply foldl_fire_other.
    intros t Ht Hk. pose proof (Hts t Ht Hk) as ->.
    apply elem_of_byDeadline, list_elem_of_filter in Ht as [Ht _].
    simpl in Ht. lia.
Qed.

End one_call_timer.

(** *** One step of the event loop, seen from one call *)

Lemma step_quiet_view k st ev :
  listenersOf k st = [] → timersOf k st = [] →
  match ev with EvAwait _ _ _ => k ≠ fresh st | _ => True end →
  view k (step st ev) = view k st.
Proof.
  intros HL HT Hk. destruct ev as [target requestId timeout|target data|d]; simpl.
  - by apply view_awaitReply_ne.
  - by apply callListeners_not_listening.
  - unfold elapse.
    by rewrite foldl_fire_no_timer.
Qed.

Lemma step_settled k s st ev :
  settled k s st → k ≠ fresh st → settled k s (step st ev).
Proof.
  unfold settled. intros Hs Hk. rewrite step_quiet_view; [done| | |by destruct ev].
  - by injection Hs as -> _ _.
  - by injection Hs as _ -> _.
Qed.

Lemma step_unused k st ev :
  unused k st →
  match ev with EvAwait _ _ _ => k ≠ fresh st | _ => True end →
  unused k (step st ev).
Proof.
  unfold unused. intros Hs Hk. rewrite step_quiet_view; [done| | |done].
  - by injection Hs as -> _ _.
  - by injection Hs as _ -> _.
Qed.

Lemma step_await_new target requestId timeout st :
  unused (fresh st) st →
  waiting (fresh st) target requestId
    (clock st + Z.max 0 (timeoutOrDefault timeout))
    (step st (EvAwait target requestId timeout)).
Proof.
  unfold unused, view. intros [= HL HT HS].
  unfold waiting, view, listenersOf, timersOf, settlesOf in *; simpl.
  rewrite !filter_app, HL, HT, HS. by rewrite !filter_cons_True.
Qed.

Lemma step_waiting k target requestId deadline st ev :
  waiting k target requestId deadline st → k ≠ fresh st →
  match ev with
  | EvAwait _ _ _ => waiting k target requestId deadline (step st ev)
  | EvMessage target' data =>
      if bool_decide (target' = target) && isReplyTo requestId data
      then settled k (Resolve (get data "response")) (step st ev)
      else waiting k target requestId deadline (step st ev)
  | EvElapse d =>
      if (deadline <=? clock st + Z.max 0 d)%Z
      then settled k (Reject "Request timed out") (step st ev)
      else waiting k target requestId deadline (step st ev)
  end.
Proof.
  intros Hw Hk.
  destruct ev as [target' requestId' timeout|target' data|d]; cbn [step].
  - unfold waiting. by rewrite view_awaitReply_ne.
  - pose proof (dispatchMessage_waiting _ _ _ _ target' data st Hw) as H.
    destruct (bool_decide (target' = target) && isReplyTo requestId data);
      [done|]. unfold waiting. by rewrite H.
  - pose proof (elapse_waiting _ _ _ _ d st Hw) as H.
    destruct (deadline <=? clock st + Z.max 0 d)%Z; [done|].
    unfold waiting. by rewrite H.
Qed.

(** *** The invariant *)

Lemma wf_initialLoop : wf initialLoop.
Proof. intros k. split; [done|]. simpl. intros Hk. lia. Qed.

Lemma wf_step st ev : wf st → wf (step st ev).
Proof.
  intros Hwf k. pose proof (step_fresh st ev) as Hf. split.
  - intros Hk. rewrite Hf in Hk. apply step_unused.
    + apply Hwf. destruct ev; lia.
    + destruct ev; [lia|done..].
  - intros Hk. rewrite Hf in Hk. destruct (decide (k < fresh st)) as [Hlt|Hge].
    + destruct (proj2 (Hwf k) Hlt) as [(tg & id & dl & Hw)|[s Hs]].
      * pose proof (step_waiting k tg id dl st ev Hw ltac:(lia)) as H.
        destruct ev as [?|target' data|d].
        -- left. eauto.
        -- destruct (bool_decide (target' = tg) && isReplyTo id data); eauto 6.
        -- destruct (dl <=? clock st + Z.max 0 d)%Z; eauto 6.
      * right. exists s. apply step_settled; [done|lia].
    + destruct ev as [target requestId timeout|?|?]; try lia.
      assert (k = fresh st) as -> by lia.
      left. do 3 eexists. apply step_await_new, Hwf. done.
Qed.

Lemma wf_run evs st : wf st → wf (run evs st).
Proof.
  revert st. induction evs as [|ev evs IH]; intros st Hwf; [done|].
  rewrite run_cons. by apply IH, wf_step.
Qed.

Lemma wf_reachable st : reachable st → wf st.
Proof. intros [evs ->]. apply wf_run, wf_initialLoop. Qed.

Lemma reachable_run evs st : reachable st → reachable (run evs st).
Proof. intros [evs0 ->]. exists (evs0 ++ evs). by rewrite run_app. Qed.

(** *** Traces, seen from one call *)

Lemma run_settled k s evs st :
  settled k s st → k < fresh st → settled k s (run evs st).
Proof.
  revert st. induction evs as [|ev evs IH]; intros st Hs Hk; [done|].
  rewrite run_cons. apply IH.
  - apply step_settled; [done|lia].
  - rewrite step_fresh. destruct ev; lia.
Qed.

(** While no reply comes and the deadline is not reached, the call waits. *)
Lemma run_waiting k target requestId deadline evs st :
  waiting k target requestId deadline st → k < fresh st →
  noReplyIn target requestId evs →
  (clock st + elapsed evs < deadline)%Z →
  waiting k target requestId deadline (run evs st).
Proof.
  revert st. induction evs as [|ev evs IH]; intros st Hw Hk Hq Hc; [done|].
  rewrite run_cons. apply Forall_cons in Hq as [Hev Hq].
  change (ev :: evs) with ([ev] ++ evs) in Hc. rewrite elapsed_app in Hc.
  pose proof (elapsed_nonneg evs) as Hnn.
  pose proof (step_waiting k target requestId deadline st ev Hw ltac:(lia)) as H.
  apply IH; [| |done|].
  - destruct ev as [?|target' data|d]; [done| |].
    + case_bool_decide as Ht; simpl in H; [|done].
      by rewrite (Hev Ht) in H.
    + destruct (Z.leb_spec deadline (clock st + Z.max 0 d)) as [Hle|Hgt]; [|done].
      simpl in Hc. lia.
  - rewrite step_fresh. destruct ev; lia.
  - rewrite step_clock. lia.
Qed.

(** Without a reply, the call waits or has timed out. *)
Lemma run_no_reply k target requestId deadline evs st :
  waiting k target requestId deadline st → k < fresh st →
  noReplyIn target requestId evs →
  waiting k target requestId deadline (run evs st) ∨
  settled k (Reject "Request timed out") (run evs st).
Proof.
  revert st. induction evs as [|ev evs IH]; intros st Hw Hk Hq; [by left|].
  rewrite run_cons. apply Forall_cons in Hq as [Hev Hq].
  pose proof (step_waiting k target requestId deadline st ev Hw ltac:(lia)) as H.
  assert (k < fresh (step st ev)) as Hk'.
  { rewrite step_fresh. destruct ev; lia. }
  assert (waiting k target requestId deadline (step st ev) ∨
          settled k (Reject "Request timed out") (step st ev)) as [Hw'|Hs'].
  { destruct ev as [?|target' data|d]; [by left| |].
    - case_bool_decide as Ht; simpl in H; [|by left].
      rewrite (Hev Ht) in H. by left.
    - destruct (deadline <=? clock st + Z.max 0 d)%Z; [by right|by left]. }
  - by apply IH.
  - right. by apply run_settled.
Qed.

(** *** What a caller observes *)

Lemma waiting_observed k target requestId deadline st :
  waiting k target requestId deadline st →
  promiseState k st = Pending ∧ listening k st = true ∧
  timersOf k st = [{| t_id := k; t_deadline := deadline; t_target := target |}] ∧
  settlesOf k st = [].
Proof.
  intros Hw. pose proof (waiting_registered _ _ _ _ _ Hw) as [HLin _].
  apply waiting_inv in Hw as (HL & HT & HS).
  unfold promiseState. rewrite HS. split_and!; [done| |done..].
  apply bool_decide_eq_true_2, Exists_exists. eauto.
Qed.

Lemma settled_observed k s st :
  settled k s st →
  promiseState k st =
    match s with Resolve v => Fulfilled v | Reject e => Rejected e end ∧
  listening k st = false ∧ timersOf k st = [] ∧ settlesOf k st = [(k, s)].
Proof.
  unfold settled, view. intros [= HL HT HS].
  unfold promiseState. rewrite HS. split_and!; [done| |done..].
  apply bool_decide_eq_false_2. intros (l & Hl & Hk)%Exists_exists.
  by apply (listenersOf_nil_not_elem k l st).
Qed.

(** A call made in a reachable loop starts out waiting. *)
Lemma awaitReply_waiting target requestId timeout st :
  reachable st →
  let k := (awaitReply target requestId timeout st).1 in
  let st1 := (awaitReply target requestId timeout st).2 in
  k = fresh st ∧ k < fresh st1 ∧ clock st1 = clock st ∧ reachable st1 ∧
  waiting k target requestId (clock st + Z.max 0 (timeoutOrDefault timeout)) st1.
Proof.
  intros Hr. simpl. split_and!; [done|lia|done| |].
  - apply (reachable_run [EvAwait target requestId timeout] st Hr).
  - apply (step_await_new target requestId timeout st).
    by apply wf_reachable.
Qed.

(** The reply constructor against the handler's test. *)
Lemma get_responseTo requestId response :
  get (responseTo requestId response) "type" = Str "response" ∧
  get (responseTo requestId response) "requestId" = Number requestId ∧
  get (responseTo requestId response) "response" = response.
Proof.
  unfold responseTo, get. split_and!.
  - by rewrite lookup_insert_eq.
  - rewrite lookup_insert_ne by done. by rewrite lookup_insert_eq.
  - do 2 (rewrite lookup_insert_ne by done). by rewrite lookup_insert_eq.
Qed.

Lemma isReplyTo_responseTo n m response :
  isReplyTo n (responseTo m response) = bool_decide (m = n).
Proof.
  unfold isReplyTo.
  destruct (get_responseTo m response) as (-> & -> & _). simpl.
  case_bool_decide; [by apply Z.eqb_eq | by apply Z.eqb_neq].
Qed.

(** The first reply that comes before the deadline settles the call, and
    nothing that follows changes it. *)
Lemma awaitReply_first_reply st0 target requestId timeout pre data post :
  reachable st0 →
  noReplyIn target requestId pre →
  (elapsed pre < timeoutOrDefault timeout)%Z →
  isReplyTo requestId data = true →
  settled (awaitReply target requestId timeout st0).1
    (Resolve (get data "response"))
    (run (pre ++ EvMessage target data :: post)
       (awaitReply target requestId timeout st0).2).
Proof.
  intros Hr Hq Hel Hm.
  destruct (awaitReply_waiting target requestId timeout st0 Hr)
    as (Hk & Hlt & Hc & _ & Hw).
  set (k := (awaitReply target requestId timeout st0).1) in *.
  set (st1 := (awaitReply target requestId timeout st0).2) in *.
  rewrite run_app, run_cons.
  assert (waiting k target requestId
            (clock st0 + Z.max 0 (timeoutOrDefault timeout)) (run pre st1)) as Hw'.
  { apply run_waiting; [done..|]. lia. }
  pose proof (run_fresh_mono pre st1) as Hmono.
  apply run_settled.
  - pose proof (step_waiting _ _ _ _ _ (EvMessage target data) Hw' ltac:(lia)) as H.
    simpl in H. rewrite bool_decide_eq_true_2, Hm in H by done. exact H.
  - rewrite step_fresh. lia.
Qed.

(** Without a reply the call is rejected once its deadline has passed. *)
Lemma awaitReply_timeout st0 target requestId timeout pre d post :
  reachable st0 →
  noReplyIn target requestId pre →
  (timeoutOrDefault timeout <= elapsed pre + Z.max 0 d)%Z →
  settled (awaitReply target requestId timeout st0).1
    (Reject "Request timed out")
    (run (pre ++ EvElapse d :: post)
       (awaitReply target requestId timeout st0).2).
Proof.
  intros Hr Hq Hel.
  destruct (awaitReply_waiting target requestId timeout st0 Hr)
    as (Hk & Hlt & Hc & _ & Hw).
  set (k := (awaitReply target requestId timeout st0).1) in *.
  set (st1 := (awaitReply target requestId timeout st0).2) in *.
  rewrite run_app, run_cons.
  pose proof (run_fresh_mono pre st1) as Hmono.
  pose proof (elapsed_nonneg pre) as Hnn.
  apply run_settled; [|rewrite step_fresh; lia].
  destruct (run_no_reply _ _ _ _ pre st1 Hw Hlt Hq) as [Hw'|Hs'].
  - pose proof (step_waiting _ _ _ _ _ (EvElapse d) Hw' ltac:(lia)) as H.
    simpl in H. rewrite run_clock, Hc in H.
    destruct (Z.leb_spec (clock st0 + Z.max 0 (timeoutOrDefault timeout))
                (clock st0 + elapsed pre + Z.max 0 d)); [done|lia].
  - apply step_settled; [done|lia].
Qed.

End LoopFacts.

(** ** The request id counter *)

Module SenderFacts.
Import JS Messaging.

Lemma postAll_cons target message args rest s :
  postAll ((target, message, args) :: rest) s =
    let r := postMessageExpectReply target message args s in
    let rs := postAll rest r.2 in
    (r.1 :: rs.1, rs.2).
Proof.
  simpl. by destruct (postAll rest _) as [ids s2].
Qed.

Lemma postAll_length calls s : length (postAll calls s).1 = length calls.
Proof.
  revert s. induction calls as [|[[target message] args] rest IH]; intros s;
    [done|].
  rewrite postAll_cons. simpl. by rewrite IH.
Qed.

Lemma postAll_lastRequestId calls s :
  lastRequestId (postAll calls s).2 = (lastRequestId s + Z.of_nat (length calls))%Z.
Proof.
  revert s. induction calls as [|[[target message] args] rest IH]; intros s.
  - simpl. lia.
  - rewrite postAll_cons. cbn [snd]. rewrite IH. simpl. lia.
Qed.

Lemma postAll_ids calls s :
  (postAll calls s).1 = seqZ (lastRequestId s + 1) (Z.of_nat (length calls)).
Proof.
  revert s. induction calls as [|[[target message] args] rest IH]; intros s;
    [done|].
  rewrite postAll_cons. cbn [fst snd]. rewrite IH. simpl lastRequestId.
  rewrite (seqZ_cons _ (Z.of_nat (length (_ :: rest)))) by (simpl; lia).
  repeat f_equal; simpl; lia.
Qed.

Lemma postAll_sorted calls s :
  Forall (Z.lt (lastRequestId s)) (postAll calls s).1 ∧
  StronglySorted Z.lt (postAll calls s).1.
Proof.
  revert s. induction calls as [|[[target message] args] rest IH]; intros s.
  - split; constructor.
  - rewrite postAll_cons. cbn [fst snd].
    destruct (IH (postMessageExpectReply target message args s).2) as [Hgt Hs].
    simpl lastRequestId in Hgt. split.
    + constructor; [simpl; lia|].
      eapply Forall_impl; [exact Hgt|]. simpl. intros id Hid. lia.
    + by constructor.
Qed.

Lemma postAll_posted calls s :
  posted (postAll calls s).2 =
    posted s ++ zip_with branded (postAll calls s).1 calls.
Proof.
  revert s. induction calls as [|[[target message] args] rest IH]; intros s.
  - simpl. by rewrite app_nil_r.
  - rewrite postAll_cons. cbn [fst snd]. rewrite IH. simpl.
    by rewrite <- app_assoc.
Qed.

Lemma StronglySorted_lt_lookup (l : list Z) i j a b :
  StronglySorted Z.lt l → l !! i = Some a → l !! j = Some b → i < j → (a < b)%Z.
Proof.
  intros Hs. revert i j. induction Hs as [|x l Hs IH Hall]; intros i j Hi Hj Hij.
  { done. }
  destruct j as [|j]; [lia|]. destruct i as [|i]; simpl in *.
  - injection Hi as <-. rewrite Forall_forall in Hall.
    apply Hall. by eapply list_elem_of_lookup_2.
  - eapply IH; [done..|lia].
Qed.

Lemma StronglySorted_lt_NoDup (l : list Z) : StronglySorted Z.lt l → NoDup l.
Proof.
  induction 1 as [|x l Hs IH Hall]; constructor; [|done].
  intros Hin. rewrite Forall_forall in Hall. specialize (Hall x Hin). lia.
Qed.

End SenderFacts.

(** ** Strings *)

Module StringFacts.
Import JS.

Lemma append_cons x (a b : string) : String x a +:+ b = String x (a +:+ b).
Proof. reflexivity. Qed.

Lemma append_nil_l (a : string) : "" +:+ a = a.
Proof. reflexivity. Qed.

Lemma append_assoc (a b c : string) : (a +:+ b) +:+ c = a +:+ (b +:+ c).
Proof. induction a as [|x a IH]; [done|]. rewrite !append_cons. by f_equal. Qed.

Lemma append_nil_r (a : string) : a +:+ "" = a.
Proof. induction a as [|x a IH]; [done|]. rewrite append_cons. by f_equal. Qed.

Lemma startsWith_spec s p : startsWith s p = true ↔ ∃ r, s = p +:+ r.
Proof.
  revert s. induction p as [|a p IH]; intros s.
  - split; [intros _; by exists s | intros _; by destruct s].
  - destruct s as [|b s]; simpl.
    + split; [done | intros [r Hr]; discriminate].
    + rewrite andb_true_iff, IH. split.
      * intros [->%Ascii.eqb_eq [r ->]]. by exists r.
      * intros [r [= -> ->]]. split; [apply Ascii.eqb_refl | by exists r].
Qed.

Lemma includes_spec s sub : includes s sub = true ↔ ∃ a b, s = a +:+ sub +:+ b.
Proof.
  induction s as [|c s IH]; cbn [includes].
  - rewrite orb_false_r, startsWith_spec. split.
    + intros [r ->]. by exists "", r.
    + intros (a & b & H). destruct a as [|x a]; [by exists b | discriminate].
  - rewrite orb_true_iff, startsWith_spec, IH. split.
    + intros [[r ->]|(a & b & ->)]; [by exists "", r | by exists (String c a), b].
    + intros (a & b & H). destruct a as [|x a].
      * left. by exists b.
      * rewrite append_cons in H. injection H as -> ->. right. by exists a, b.
Qed.

Lemma endsWith_spec s suf : endsWith s suf = true ↔ ∃ a, s = a +:+ suf.
Proof.
  induction s as [|c s IH]; cbn [endsWith].
  - rewrite orb_false_r, String.eqb_eq. split.
    + intros <-. by exists "".
    + intros [a H]. destruct a as [|x a]; [done | discriminate].
  - rewrite orb_true_iff, String.eqb_eq, IH. split.
    + intros [<-|[a ->]]; [by exists "" | by exists (String c a)].
    + intros [a H]. destruct a as [|x a].
      * by left.
      * rewrite append_cons in H. injection H as -> ->. right. by exists a.
Qed.

Lemma includes_char_cons sep c s :
  includes (String c s) (String sep "") = Ascii.eqb sep c || includes s (String sep "").
Proof.
  cbn [includes startsWith].
  replace (startsWith s "") with true by by destruct s.
  by rewrite andb_true_r.
Qed.

Section split.
Variable sep : ascii.

Lemma split_not_nil s : split sep s ≠ [].
Proof.
  destruct s as [|c s]; simpl; [done|].
  destruct (Ascii.eqb c sep); [done|]. by destruct (split sep s).
Qed.

Lemma split_app_sep a b :
  split sep (a +:+ String sep b) = split sep a ++ split sep b.
Proof.
  induction a as [|c a IH].
  - rewrite append_nil_l. simpl. by rewrite Ascii.eqb_refl.
  - rewrite append_cons. simpl.
    destruct (Ascii.eqb c sep); [by rewrite IH|].
    rewrite IH. pose proof (split_not_nil a). by destruct (split sep a).
Qed.

Lemma split_no_sep s :
  includes s (String sep "") = false → split sep s = [s].
Proof.
  induction s as [|c s IH]; [done|].
  rewrite includes_char_cons, orb_false_iff. intros [Hc Hs].
  simpl. rewrite Ascii.eqb_sym, Hc, IH; done.
Qed.

Lemma split_segments s :
  Forall (λ seg, includes seg (String sep "") = false) (split sep s).
Proof.
  induction s as [|c s IH]; simpl; [by repeat constructor|].
  destruct (Ascii.eqb c sep) eqn:Hc; [by constructor|].
  pose proof (split_not_nil s).
  destruct (split sep s) as [|seg segs]; [done|].
  apply Forall_cons in IH as [Hseg Hsegs]. constructor; [|done].
  by rewrite includes_char_cons, Ascii.eqb_sym, Hc, Hseg.
Qed.

Lemma join_cons x y segs :
  join (String sep "") (x :: y :: segs) =
    x +:+ String sep "" +:+ join (String sep "") (y :: segs).
Proof. reflexivity. Qed.

Lemma join_split s : join (String sep "") (split sep s) = s.
Proof.
  induction s as [|c s IH]; simpl; [done|].
  pose proof (split_not_nil s).
  destruct (Ascii.eqb c sep) eqn:Hc.
  - apply Ascii.eqb_eq in Hc as ->.
    destruct (split sep s) as [|seg segs]; [done|].
    rewrite join_cons, IH. done.
  - destruct (split sep s) as [|seg segs]; [done|].
    destruct segs as [|seg' segs].
    + simpl in *. by rewrite IH.
    + rewrite join_cons, append_cons. rewrite join_cons in IH. by rewrite IH.
Qed.

Lemma join_snoc segs seg :
  segs ≠ [] →
  join (String sep "") (segs ++ [seg]) =
    join (String sep "") segs +:+ String sep "" +:+ seg.
Proof.
  induction segs as [|x segs IH]; [done|]. intros _.
  destruct segs as [|y segs]; [done|].
  change ((x :: y :: segs) ++ [seg]) with (x :: y :: (segs ++ [seg])).
  rewrite !join_cons.
  change (y :: (segs ++ [seg])) with ((y :: segs) ++ [seg]).
  rewrite IH by done. by rewrite !append_assoc.
Qed.

(** The last segment of a path is what follows its last separator. *)
Lemma pop_split s seg :
  pop (split sep s) = Some seg ↔
  includes seg (String sep "") = false ∧
  (s = seg ∨ ∃ dir, s = dir +:+ String sep "" +:+ seg).
Proof.
  unfold pop. split.
  - intros Hlast. apply last_Some in Hlast as [segs Hsplit].
    pose proof (split_segments s) as Hall. rewrite Hsplit in Hall.
    apply Forall_app in Hall as [_ [Hseg _]%Forall_cons]. split; [done|].
    pose proof (join_split s) as Hjoin. rewrite Hsplit in Hjoin.
    destruct segs as [|x segs]; [by left|]. right.
    rewrite join_snoc in Hjoin by done. eauto.
  - intros [Hseg [->|[dir ->]]].
    + by rewrite split_no_sep.
    + rewrite append_cons, append_nil_l, split_app_sep.
      rewrite (split_no_sep seg) by done. by rewrite last_snoc.
Qed.

End split.

End StringFacts.

(** ** The scope codec *)

Module ScopeFacts.
Import JS Scope StringFacts.

Lemma withPathname_id url : withPathname url (pathname url) = url.
Proof. by destruct url. Qed.

Lemma withPathname_twice url p q :
  withPathname (withPathname url p) q = withPathname url q.
Proof. done. Qed.

Lemma scope_segment_no_slash token :
  validToken token = true → includes ("scope:" +:+ token) "/" = false.
Proof.
  unfold validToken. intros Ht%negb_true_iff.
  rewrite !append_cons, append_nil_l.
  by rewrite !includes_char_cons, Ht.
Qed.

(** The segments of a path with an embedded token. *)
Lemma split_scoped token rest :
  validToken token = true →
  split "/" ("/scope:" +:+ token +:+ String "/" rest) =
    "" :: ("scope:" +:+ token) :: split "/" rest.
Proof.
  intros Ht.
  change ("/scope:" +:+ token +:+ String "/" rest)
    with ("" +:+ String "/" ("scope:" +:+ token +:+ String "/" rest)).
  rewrite split_app_sep.
  change ("scope:" +:+ token +:+ String "/" rest)
    with (("scope:" +:+ token) +:+ String "/" rest) at 1.
  rewrite split_app_sep, (split_no_sep _ ("scope:" +:+ token))
    by by apply scope_segment_no_slash.
  done.
Qed.

(** Embedding a token in an unscoped URL, then reading and stripping. *)
Lemma embed_then_read choice url token :
  absolute url → isURLScoped url = false → validToken token = true →
  let url' := withPathname url ("/scope:" +:+ token +:+ pathname url) in
  setURLScope choice url token = Some url' ∧
  isURLScoped url' = true ∧
  getURLScope url' = Some token ∧
  removeURLScope url' = url.
Proof.
  intros [rest Hp] Hu Ht url'.
  assert (isURLScoped url' = true) as Hs.
  { unfold isURLScoped, url'; simpl. apply startsWith_spec.
    exists (token +:+ pathname url). done. }
  split_and!.
  - unfold setURLScope. by rewrite Hu.
  - done.
  - unfold getURLScope. rewrite Hs. unfold url', withPathname; cbn [pathname].
    rewrite Hp, split_scoped by done. done.
  - unfold removeURLScope. rewrite Hs.
    replace (pathname url') with ("/scope:" +:+ token +:+ String "/" rest)
      by (unfold url', withPathname; cbn [pathname]; by rewrite Hp).
    rewrite split_scoped by done.
    change (slice 2 ("" :: ("scope:" +:+ token) :: split "/" rest))
      with (split "/" rest).
    rewrite join_split.
    unfold url'. rewrite withPathname_twice.
    change ("/" +:+ rest) with (String "/" rest). rewrite <- Hp.
    apply withPathname_id.
Qed.

End ScopeFacts.

(** ** The fetch listener *)

Module ServiceWorkerFacts.
Import JS Messaging ServiceWorker LoopFacts.




Section imports.
Variable isURLScoped : Scope.URL → bool.
Variable getURLScope : Scope.URL → option string.
Variable setURLScope : Scope.URL → option string → Scope.URL.
Variable removeURLScope : Scope.URL → Scope.URL.
Variable newURL : string → option Scope.URL.
Variable self : Target.

Let listener :=
  initializeServiceWorker isURLScoped getURLScope setURLScope removeURLScope
    newURL self.
Let resolved := resolveScope isURLScoped getURLScope setURLScope newURL.

(** The three branches of the listener. *)
Lemma listener_default config request future w :
  isURLScoped (resolved request) = false →
  listener config request future w = (BrowserDefault, w).
Proof.
  intros Hs. unfold listener, resolved, initializeServiceWorker in *.
  by rewrite Hs.
Qed.

Lemma listener_passthrough config request future w :
  isURLScoped (resolved request) = true →
  shouldForward config request (removeURLScope (resolved request)) = false →
  listener config request future w =
    (RespondWith true
       (SettledWith
          (AFetch (cloneRequest request
                     (onlyUrl (removeURLScope (resolved request)))))), w).
Proof.
  intros Hs Hf. unfold listener, resolved, initializeServiceWorker in *.
  by rewrite Hs, Hf.
Qed.

Lemma listener_forward config request future w :
  isURLScoped (resolved request) = true →
  shouldForward config request (removeURLScope (resolved request)) = true →
  listener config request future w =
    let '(p, w') :=
      newPromiseAsync (forward getURLScope self request (resolved request) future) w in
    (RespondWith true p, w').
Proof.
  intros Hs Hf. unfold listener, resolved, initializeServiceWorker in *.
  by rewrite Hs, Hf.
Qed.

Lemma forward_parse_failure request url future w e :
  parsePost request = Throw e →
  newPromiseAsync (forward getURLScope self request url future) w =
    (NeverSettles (Some e), w).
Proof.
  intros Hp. unfold newPromiseAsync, forward, mbind, Exec_bind, liftC.
  rewrite Hp. reflexivity.
Qed.

Lemma forward_outcome request url future w parsed :
  parsePost request = Return parsed →
  newPromiseAsync (forward getURLScope self request url future) w =
    (match promiseState (awaitReply self (lastRequestId (sender w) + 1) None (loop w)).1
             (run future (awaitReply self (lastRequestId (sender w) + 1) None (loop w)).2)
     with
     | Fulfilled (Undefined | Null) => NeverSettles (Some "TypeError")
     | Fulfilled v =>
         match newResponse (get v "body") (get v "headers") (get v "statusCode") with
         | Return response => SettledWith (AResponse response)
         | Throw e => NeverSettles (Some e)
         | Suspended => Waiting
         end
     | Rejected e => NeverSettles (Some e)
     | Pending => Waiting
     end,
     afterForward getURLScope self request url parsed future w).
Proof.
  intros Hp.
  unfold newPromiseAsync, forward, mbind, Exec_bind, liftC, tryCatch, throw,
    liftC, broadcastMessageExpectReply, awaitReplyOn, afterForward, accept.
  rewrite Hp.
  cbn [world accepted getNextRequestId lastRequestId posted loop clients sender].
  destruct (awaitReply self (lastRequestId (sender w) + 1) None (loop w))
    as [k loop1]. cbn [fst snd].
  destruct (promiseState k (run future loop1)) as [|v|e];
    [reflexivity| |reflexivity].
  destruct v; try reflexivity; cbn [member get];
    match goal with |- context [newResponse ?b ?h ?s] =>
      destruct (newResponse b h s) end; reflexivity.
Qed.

End imports.

End ServiceWorkerFacts.

(** ** The development server *)

Module DevServerFacts.
Import JS DevServer.

Lemma sanitize_count name :
  disallowedCount (sanitizePluginName name) = pred (disallowedCount name).
Proof.
  induction name as [|c name IH]; [done|].
  cbn [sanitizePluginName disallowedCount].
  destruct (allowedInPluginName c) eqn:Hc.
  - cbn [disallowedCount]. rewrite Hc. exact IH.
  - simpl. lia.
Qed.

Lemma sanitize_clean name :
  disallowedCount name = 0 → sanitizePluginName name = name.
Proof.
  induction name as [|c name IH]; [done|].
  cbn [sanitizePluginName disallowedCount].
  destruct (allowedInPluginName c); [|simpl; lia].
  intros Hz. f_equal. by apply IH.
Qed.

Lemma sanitize_length name :
  String.length (sanitizePluginName name) =
    String.length name - (if Nat.eqb (disallowedCount name) 0 then 0 else 1).
Proof.
  induction name as [|c name IH]; [done|].
  cbn [sanitizePluginName disallowedCount].
  destruct (allowedInPluginName c).
  - cbn [String.length]. rewrite IH. simpl.
    destruct (disallowedCount name =? 0) eqn:Hz; [lia|].
    apply Nat.eqb_neq in Hz.
    assert (0 < String.length name); [|lia].
    destruct name; simpl in *; lia.
  - simpl. lia.
Qed.

End DevServerFacts.

(** ** The API extractor script *)

Module ApiExtractorFacts.
Import JS ApiExtractor.

Section script.
Variable configObjectFullPath : string.
Variable invoke : string → string → ExtractorResult.

Let ok (run : string * string) : bool := succeeded (invoke run.1 run.2).

Lemma overEntrypoints_spec package entrypoints p :
  ∃ p',
    overEntrypoints configObjectFullPath true invoke package entrypoints p
      = Return p' ∧
    invoked p' = invoked p ++ ((package,.) <$> attempted invoke package entrypoints) ∧
    exitCode p' =
      (if forallb (λ e, succeeded (invoke package e))
            (attempted invoke package entrypoints)
       then exitCode p else Some 1%Z) ∧
    length (logged p') =
      length (logged p) + length (attempted invoke package entrypoints).
Proof.
  revert p. induction entrypoints as [|e rest IH]; intros p.
  - exists p. simpl. by rewrite app_nil_r, Nat.add_0_r.
  - cbn [overEntrypoints attempted negb].
    destruct (succeeded (invoke package e)) eqn:He.
    + destruct (IH {| invoked := invoked p ++ [(package, e)];
                      exitCode := exitCode p;
                      logged := logged p ++ [CompletedSuccessfully] |})
        as (p' & Hrun & Hinv & Hexit & Hlog).
      exists p'. split; [exact Hrun|]. cbn [invoked exitCode logged] in *.
      rewrite Hinv, Hexit, Hlog. cbn [forallb fmap list_fmap]. rewrite He.
      rewrite <- app_assoc, length_app. simpl. split_and!; [done|done|lia].
    + eexists. split; [reflexivity|]. cbn [invoked exitCode logged].
      cbn [forallb fmap list_fmap]. rewrite He, length_app. simpl.
      split_and!; [done|done|lia].
Qed.

Lemma overPackages_spec packages p :
  ∃ p',
    overPackages configObjectFullPath true invoke packages p = Return p' ∧
    invoked p' =
      invoked p ++
      (packages ≫= λ pe, (pe.1,.) <$> attempted invoke pe.1 pe.2) ∧
    exitCode p' =
      (if forallb ok (packages ≫= λ pe, (pe.1,.) <$> attempted invoke pe.1 pe.2)
       then exitCode p else Some 1%Z) ∧
    length (logged p') = length (logged p) + (length (invoked p') - length (invoked p)).
Proof.
  revert p. induction packages as [|[package entrypoints] rest IH]; intros p.
  - exists p. simpl. rewrite app_nil_r. split_and!; [done..|lia].
  - cbn [overPackages].
    destruct (overEntrypoints_spec package entrypoints p)
      as (p1 & -> & Hinv1 & Hexit1 & Hlog1).
    destruct (IH p1) as (p' & Hrun & Hinv & Hexit & Hlog).
    exists p'. split; [exact Hrun|].
    rewrite Hinv, Hexit, Hinv1, Hexit1. cbn [mbind list_bind fst snd].
    rewrite <- app_assoc. split_and!; [done| |].
    + rewrite forallb_app.
      assert (forallb ok ((package,.) <$> attempted invoke package entrypoints)
              = forallb (λ e, succeeded (invoke package e))
                  (attempted invoke package entrypoints)) as ->.
      { clear. induction (attempted invoke package entrypoints) as [|e l IHl];
          [done|]. simpl. f_equal. exact IHl. }
      destruct (forallb _ (attempted invoke package entrypoints)); simpl;
        [done|].
      by destruct (forallb ok _).
    + rewrite Hlog, Hinv, Hlog1, Hinv1. rewrite !length_app, length_fmap. lia.
Qed.

(** An entry point is attempted when all before it succeed, and not when
    one before it fails. *)
Lemma attempted_reached package e1 ep e2 :
  Forall (λ e, succeeded (invoke package e) = true) e1 →
  ep ∈ attempted invoke package (e1 ++ ep :: e2).
Proof.
  induction 1 as [|e e1 He _ IH]; simpl; [by left|].
  rewrite He. by right.
Qed.

Lemma attempted_subseteq package entrypoints e :
  e ∈ attempted invoke package entrypoints → e ∈ entrypoints.
Proof.
  induction entrypoints as [|x rest IH]; simpl; [done|].
  intros [->|Hin]%elem_of_cons; [by left|]. right.
  destruct (succeeded (invoke package x)); [by apply IH|].
  by apply elem_of_nil in Hin.
Qed.

Lemma attempted_cut package e1 rest :
  Exists (λ e, succeeded (invoke package e) = false) e1 →
  attempted invoke package (e1 ++ rest) = attempted invoke package e1.
Proof.
  induction e1 as [|e e1 IH]; intros Hex; [by apply Exists_nil in Hex|].
  simpl. destruct (succeeded (invoke package e)) eqn:He; [|done].
  f_equal. apply IH. apply Exists_cons in Hex as [Hex|Hex]; [congruence|done].
Qed.

End script.

End ApiExtractorFacts.

(** ** The PHP runtime wrapper *)

Module PHPFacts.
Import JS PHPWrapper.

Lemma emscriptenArgs_forced a :
  emscriptenArgs a !! "noInitialRun" = Some ForcedTrue ∧
  emscriptenArgs a !! "onRuntimeInitialized" = Some InitHook ∧
  emscriptenArgs a !! "monitorRunDependencies" = Some DependencyMonitor.
Proof.
  unfold emscriptenArgs. split_and!.
  - do 2 (rewrite lookup_insert_ne by done). by rewrite lookup_insert_eq.
  - rewrite lookup_insert_ne by done. by rewrite lookup_insert_eq.
  - by rewrite lookup_insert_eq.
Qed.

Lemma emscriptenArgs_other a key :
  key ≠ "noInitialRun" → key ≠ "onRuntimeInitialized" →
  key ≠ "monitorRunDependencies" →
  emscriptenArgs a !! key =
    match a !! key with
    | Some x => Some (FromCaller x)
    | None =>
        if decide (key = "onAbort") then Some LogAbort
        else if decide (key = "print") then Some PushToStdout
        else if decide (key = "printErr") then Some PushToStderr
        else None
    end.
Proof.
  intros H1 H2 H3. unfold emscriptenArgs.
  do 3 (rewrite lookup_insert_ne by done).
  rewrite lookup_union, lookup_fmap.
  destruct (a !! key) as [x|]; simpl.
  - by destruct (_ !! key).
  - rewrite (left_id_L None _).
    repeat case_decide; subst.
    + by rewrite lookup_insert_eq.
    + rewrite lookup_insert_ne by done. by rewrite lookup_insert_eq.
    + do 2 (rewrite lookup_insert_ne by done). by rewrite lookup_insert_eq.
    + by do 3 (rewrite lookup_insert_ne by done).
Qed.

Section runtime.
Variable Runtime : Type.
Variable ccall : string → list string → Runtime → Called Runtime.

(** What the handlers push during a [ccall]. *)
Let outChunks (php : PHP Runtime) (r : Called Runtime) : list string :=
  if pushesToStdout (args php !! "print") then printed r else [].
Let errChunks (php : PHP Runtime) (r : Called Runtime) : list string :=
  if pushesToStderr (args php !! "printErr") then printedErr r else [].

Lemma length_push r chunks h : length (push r chunks h) = length h.
Proof. apply length_alter. Qed.

Lemma readArray_push_eq r chunks h :
  r < length h → readArray r (push r chunks h) = readArray r h ++ chunks.
Proof.
  intros Hr. unfold readArray, push, Heap, Ref. rewrite list_lookup_alter_eq.
  destruct (lookup_lt_is_Some_2 h r Hr) as [a ->]. done.
Qed.

Lemma readArray_push_ne r r' chunks h :
  r ≠ r' → readArray r (push r' chunks h) = readArray r h.
Proof.
  intros Hr. unfold readArray, push, Heap, Ref. by rewrite list_lookup_alter_ne.
Qed.

Lemma readArray_app_l r h h' :
  r < length h → readArray r (h ++ h') = readArray r h.
Proof. intros Hr. unfold readArray, Heap, Ref. by rewrite lookup_app_l. Qed.

Lemma run_spec code php :
  let r := ccall "phpwasm_run" ["?>" +:+ code] (runtime php) in
  let q := ccall "phpwasm_refresh" [] (after r) in
  let out := stdout (streams php) in
  let err := stderr (streams php) in
  out_exitCode (run ccall code php).1 = returned r ∧
  out_stdout (run ccall code php).1 =
    join LF (readArray out
               (push err (errChunks php r) (push out (outChunks php r) (heap php)))) ∧
  out_stderr (run ccall code php).1 = err ∧
  runtime (run ccall code php).2 = after q ∧
  args (run ccall code php).2 = args php ∧
  streams (run ccall code php).2 =
    {| stdout := length (heap php); stderr := S (length (heap php)) |} ∧
  heap (run ccall code php).2 =
    push err (errChunks php q)
      (push out (outChunks php q)
         (push err (errChunks php r) (push out (outChunks php r) (heap php))))
    ++ [[]; []].
Proof.
  intros r q out err. unfold run, refresh, call, newArray. cbn [fst snd].
  cbn [runtime streams args heap out_exitCode out_stdout out_stderr].
  rewrite length_app, !length_push. cbn [length].
  rewrite <- (assoc_L (++)). split_and!; try reflexivity.
  f_equal. lia.
Qed.

Lemma run_args code php : args (run ccall code php).2 = args php.
Proof. apply run_spec. Qed.

Lemma run_allocated code php :
  streamsAllocated (run ccall code php).2 ∧
  length (heap php) < length (heap (run ccall code php).2) ∧
  length (heap php) ≤ stdout (streams (run ccall code php).2) ∧
  length (heap php) ≤ stderr (streams (run ccall code php).2) ∧
  readArray (stdout (streams (run ccall code php).2))
    (heap (run ccall code php).2) = [] ∧
  readArray (stderr (streams (run ccall code php).2))
    (heap (run ccall code php).2) = [].
Proof.
  destruct (run_spec code php) as (_ & _ & _ & _ & _ & Hs & Hh).
  unfold streamsAllocated. rewrite Hs, Hh. cbn [stdout stderr].
  rewrite length_app, !length_push. cbn [length].
  split_and!; try lia.
  - unfold readArray, Heap, Ref.
    rewrite lookup_app_r by (rewrite !length_push; lia).
    rewrite !length_push. by replace (_ - _) with 0 by lia.
  - unfold readArray, Heap, Ref.
    rewrite lookup_app_r by (rewrite !length_push; lia).
    rewrite !length_push. by replace (_ - _) with 1 by lia.
Qed.

(** The array handed out as [stderr] holds, when [run] returns, what the
    stream held before, what the script wrote and what the refresh
    wrote. *)
Lemma run_stderr code php :
  streamsAllocated php →
  let r := ccall "phpwasm_run" ["?>" +:+ code] (runtime php) in
  let q := ccall "phpwasm_refresh" [] (after r) in
  readArray (out_stderr (run ccall code php).1) (heap (run ccall code php).2) =
    readArray (stderr (streams php)) (heap php)
    ++ errChunks php r ++ errChunks php q.
Proof.
  intros (Ho & He & Hne) r q.
  destruct (run_spec code php) as (_ & _ & -> & _ & _ & _ & ->).
  rewrite readArray_app_l by by rewrite !length_push.
  rewrite readArray_push_eq by by rewrite !length_push.
  rewrite readArray_push_ne by done.
  rewrite readArray_push_eq by by rewrite !length_push.
  rewrite readArray_push_ne by done.
  by rewrite <- (assoc_L (++)).
Qed.

Lemma run_stdout code php :
  streamsAllocated php →
  let r := ccall "phpwasm_run" ["?>" +:+ code] (runtime php) in
  out_stdout (run ccall code php).1 =
    join LF (readArray (stdout (streams php)) (heap php) ++ outChunks php r).
Proof.
  intros (Ho & He & Hne) r.
  destruct (run_spec code php) as (_ & -> & _).
  rewrite readArray_push_ne by done.
  by rewrite readArray_push_eq.
Qed.

(** A run touches no array but the two of the streams. *)
Lemma run_frame code php x :
  x < length (heap php) →
  x ≠ stdout (streams php) → x ≠ stderr (streams php) →
  readArray x (heap (run ccall code php).2) = readArray x (heap php).
Proof.
  intros Hx Ho He.
  destruct (run_spec code php) as (_ & _ & _ & _ & _ & _ & ->).
  rewrite readArray_app_l by by rewrite !length_push.
  by rewrite !readArray_push_ne.
Qed.

Lemma runAll_cons code codes php :
  runAll ccall (code :: codes) php =
    ((run ccall code php).1 :: (runAll ccall codes (run ccall code php).2).1,
     (runAll ccall codes (run ccall code php).2).2).
Proof.
  cbn [runAll]. destruct (run ccall code php) as [output php1]. cbn [fst snd].
  destruct (runAll ccall codes php1); reflexivity.
Qed.

Lemma runAll_frame codes php x :
  x < length (heap php) →
  x ≠ stdout (streams php) → x ≠ stderr (streams php) →
  readArray x (heap (runAll ccall codes php).2) = readArray x (heap php).
Proof.
  revert php. induction codes as [|code codes IH]; intros php Hx Ho He; [done|].
  rewrite runAll_cons. cbn [snd].
  destruct (run_allocated code php) as (_ & Hlen & Hout & Herr & _).
  rewrite IH by lia. by apply run_frame.
Qed.

(** An array handed out by [run] is not written to by later runs. *)
Lemma run_stderr_detached code codes php :
  streamsAllocated php →
  readArray (out_stderr (run ccall code php).1)
    (heap (runAll ccall codes (run ccall code php).2).2) =
  readArray (out_stderr (run ccall code php).1) (heap (run ccall code php).2).
Proof.
  intros (Ho & He & Hne).
  destruct (run_allocated code php) as (_ & Hlen & Hout & Herr & _).
  assert (out_stderr (run ccall code php).1 = stderr (streams php)) as ->
    by apply run_spec.
  apply runAll_frame; lia.
Qed.

(** When [print] is not the pushing handler, the standard output stays
    empty over any number of runs. *)
Lemma runAll_silent codes php :
  pushesToStdout (args php !! "print") = false →
  streamsAllocated php →
  readArray (stdout (streams php)) (heap php) = [] →
  Forall (λ output, out_stdout output = "") (runAll ccall codes php).1.
Proof.
  revert php. induction codes as [|code codes IH]; intros php Hp Hwf Hs.
  { constructor. }
  rewrite runAll_cons. cbn [fst]. constructor.
  - rewrite run_stdout by done. unfold outChunks. by rewrite Hs, Hp.
  - destruct (run_allocated code php) as (Hwf' & _ & _ & _ & Hempty & _).
    apply IH; [|done|done]. by rewrite run_args.
Qed.

(** When [printErr] is not the pushing handler, the arrays handed out as
    standard error are empty and stay so. *)
Lemma runAll_silent_stderr codes php :
  pushesToStderr (args php !! "printErr") = false →
  streamsAllocated php →
  readArray (stderr (streams php)) (heap php) = [] →
  Forall (λ output,
            readArray (out_stderr output) (heap (runAll ccall codes php).2) = [])
    (runAll ccall codes php).1.
Proof.
  revert php. induction codes as [|code codes IH]; intros php Hp Hwf Hs.
  { constructor. }
  rewrite runAll_cons. cbn [fst snd]. constructor.
  - rewrite run_stderr_detached, run_stderr by done.
    unfold errChunks. by rewrite Hs, Hp.
  - destruct (run_allocated code php) as (Hwf' & _ & _ & _ & _ & Hempty).
    apply IH; [|done|done]. by rewrite run_args.
Qed.
End runtime.

(** *** Loading *)

Section loading.
Variable phpModuleArgs : gmap string CallerArg.

Lemma step_monitor_phpReady st n :
  phpReady (loaderStep phpModuleArgs st (MonitorRunDependencies n)) = phpReady st.
Proof. simpl. by destruct (monitoring st && (n =? 0)%Z). Qed.

Lemma step_init_phpReady st :
  hookCallable phpModuleArgs →
  phpReady (loaderStep phpModuleArgs st OnRuntimeInitialized) = true.
Proof.
  unfold hookCallable. cbn [loaderStep].
  destruct (phpModuleArgs !! "onRuntimeInitialized") as [[name|v]|];
    [done| |done].
  intros Hv. rewrite Hv. reflexivity.
Qed.

Lemma step_init_rest st :
  depsReady (loaderStep phpModuleArgs st OnRuntimeInitialized) = depsReady st ∧
  monitoring (loaderStep phpModuleArgs st OnRuntimeInitialized) = monitoring st.
Proof.
  cbn [loaderStep].
  destruct (phpModuleArgs !! "onRuntimeInitialized") as [[name|v]|];
    [done| |done].
  destruct (truthy (Data v)); split; reflexivity.
Qed.

Lemma loader_phpReady evs st :
  hookCallable phpModuleArgs →
  phpReady (foldl (loaderStep phpModuleArgs) st evs) = true ↔
  phpReady st = true ∨ OnRuntimeInitialized ∈ evs.
Proof.
  intros Hhook. revert st. induction evs as [|ev evs IH]; intros st.
  - simpl. split; [by left|]. intros [?|[]%elem_of_nil]. done.
  - cbn [foldl]. rewrite IH, elem_of_cons. destruct ev as [|n].
    + rewrite step_init_phpReady by done. intuition congruence.
    + rewrite step_monitor_phpReady. intuition congruence.
Qed.

Lemma loader_phpReady_bad_hook evs st v :
  phpModuleArgs !! "onRuntimeInitialized" = Some (Data v) →
  truthy (Data v) = true →
  phpReady (foldl (loaderStep phpModuleArgs) st evs) = phpReady st.
Proof.
  intros Hhook Hv. revert st. induction evs as [|ev evs IH]; intros st; [done|].
  cbn [foldl]. rewrite IH. destruct ev as [|n].
  - cbn [loaderStep]. by rewrite Hhook, Hv.
  - apply step_monitor_phpReady.
Qed.

Lemma loader_depsReady evs st :
  (monitoring st = false → depsReady st = true) →
  depsReady (foldl (loaderStep phpModuleArgs) st evs) = true ↔
  depsReady st = true ∨ MonitorRunDependencies 0 ∈ evs.
Proof.
  revert st. induction evs as [|ev evs IH]; intros st Hinv.
  - simpl. split; [by left|]. intros [?|[]%elem_of_nil]. done.
  - cbn [foldl]. rewrite elem_of_cons. destruct ev as [|n].
    + destruct (step_init_rest st) as [Hd Hm].
      rewrite IH by (by rewrite Hd, Hm). rewrite Hd. intuition congruence.
    + simpl. destruct (Z.eqb_spec n 0) as [->|Hn].
      * destruct (monitoring st) eqn:Hm; simpl.
        -- rewrite IH by (intros _; reflexivity). simpl. intuition congruence.
        -- rewrite IH by (intros _; by apply Hinv).
           rewrite Hinv by done. intuition congruence.
      * rewrite andb_false_r, IH by done.
        split; [intuition congruence|]. intros [?|[[= ?]|?]]; [by left|lia|by right].
Qed.

Lemma loader_calls evs st name :
  phpModuleArgs !! "onRuntimeInitialized" = Some (Fn name) →
  callerInitCalls (foldl (loaderStep phpModuleArgs) st evs) =
    callerInitCalls st +
    length (filter (λ ev, ev = OnRuntimeInitialized) evs).
Proof.
  intros Hhook. revert st. induction evs as [|ev evs IH]; intros st.
  - simpl. lia.
  - cbn [foldl]. rewrite IH. destruct ev as [|n].
    + rewrite filter_cons_True by done. cbn [loaderStep]. rewrite Hhook.
      simpl. lia.
    + rewrite filter_cons_False by done.
      simpl. by destruct (monitoring st && (n =? 0)%Z).
Qed.
End loading.

End PHPFacts.

(** ** Counting the listeners of the event loop *)

Module CountFacts.
Import JS Messaging LoopFacts Extras.

Lemma sum_list_with_ext {A} (f g : A → nat) (l : list A) :
  (∀ x, x ∈ l → f x = g x) → sum_list_with f l = sum_list_with g l.
Proof.
  induction l as [|x l IH]; intros Hfg; [done|]. simpl.
  rewrite (Hfg x) by by left. rewrite IH; [done|].
  intros y Hy. apply Hfg. by right.
Qed.

Lemma sum_list_with_add {A} (f g : A → nat) (l : list A) :
  sum_list_with (λ x, f x + g x) l = sum_list_with f l + sum_list_with g l.
Proof. induction l as [|x l IH]; simpl; [done|]. rewrite IH. lia. Qed.

Lemma sum_list_with_zero {A} (l : list A) : sum_list_with (λ _, 0) l = 0.
Proof. by induction l. Qed.

Lemma sum_indicator v j n :
  sum_list_with (λ k, if decide (v = k) then 1 else 0) (seq j n) =
    if decide (j ≤ v < j + n) then 1 else 0.
Proof.
  revert j. induction n as [|n IH]; intros j; simpl.
  - case_decide; [lia|done].
  - rewrite IH. repeat case_decide; lia.
Qed.

Lemma length_filter_indicator {A} (P : A → Prop) `{!∀ x, Decision (P x)}
    (l : list A) :
  length (filter P l) = sum_list_with (λ x, if decide (P x) then 1 else 0) l.
Proof.
  induction l as [|x l IH]; [done|]. rewrite filter_cons. simpl.
  case_decide; simpl; by rewrite IH.
Qed.

(** A list is as long as the sum, over the keys, of the number of its
    elements with that key. *)
Lemma length_by_key {A} (f : A → nat) (l : list A) n :
  (∀ x, x ∈ l → f x < n) →
  length l = sum_list_with (λ k, length (filter (λ x, f x = k) l)) (seq 0 n).
Proof.
  induction l as [|x l IH]; intros Hlt.
  - by rewrite sum_list_with_zero.
  - rewrite (sum_list_with_ext _
      (λ k, (if decide (f x = k) then 1 else 0) +
            length (filter (λ y, f y = k) l))).
    + rewrite sum_list_with_add, sum_indicator, <- IH.
      * assert (f x < n) by (apply Hlt; by left).
        rewrite decide_True by lia. done.
      * intros y Hy. apply Hlt. by right.
    + intros k _. rewrite filter_cons. by case_decide.
Qed.

(** In a reachable loop every listener and every timer belongs to a call
    that was made. *)
Lemma listener_ids_bounded st l :
  wf st → l ∈ listeners st → l_id l < fresh st.
Proof.
  intros Hwf Hl. destruct (decide (l_id l < fresh st)) as [|Hge]; [done|].
  destruct (Hwf (l_id l)) as [Hun _].
  assert (unused (l_id l) st) as Hu by (apply Hun; lia).
  unfold unused, view in Hu. injection Hu as HL _ _.
  by apply (listenersOf_nil_not_elem _ l st) in HL.
Qed.

Lemma timer_ids_bounded st t :
  wf st → t ∈ timers st → t_id t < fresh st.
Proof.
  intros Hwf Ht. destruct (decide (t_id t < fresh st)) as [|Hge]; [done|].
  destruct (Hwf (t_id t)) as [Hun _].
  assert (unused (t_id t) st) as Hu by (apply Hun; lia).
  unfold unused, view in Hu. injection Hu as _ HT _.
  by apply (timersOf_nil_not_elem _ t st) in HT.
Qed.

(** The listener and the timer of a call are there exactly while it is
    pending. *)
Lemma per_call_counts st k :
  wf st → k < fresh st →
  length (listenersOf k st) =
    (if decide (isPending (promiseState k st) = true) then 1 else 0) ∧
  length (timersOf k st) =
    (if decide (isPending (promiseState k st) = true) then 1 else 0).
Proof.
  intros Hwf Hk.
  destruct (proj2 (Hwf k) Hk) as [(tg & id & dl & Hw)|[s Hs]].
  - pose proof (waiting_observed _ _ _ _ _ Hw) as (HP & _ & HT & _).
    apply waiting_inv in Hw as (HL & _ & _).
    rewrite HL, HT, HP. done.
  - pose proof (settled_observed _ _ _ Hs) as (HP & _ & HT & _).
    unfold settled, view in Hs. injection Hs as HL _ _.
    rewrite HL, HT, HP. by destruct s.
Qed.

Lemma counts_agree st :
  wf st →
  length (listeners st) = length (pendingCalls st) ∧
  length (timers st) = length (pendingCalls st).
Proof.
  intros Hwf. unfold pendingCalls.
  rewrite length_filter_indicator.
  rewrite (length_by_key l_id (listeners st) (fresh st))
    by (intros l; by apply listener_ids_bounded).
  rewrite (length_by_key t_id (timers st) (fresh st))
    by (intros t; by apply timer_ids_bounded).
  split; apply sum_list_with_ext; intros k [_ Hk]%elem_of_seq;
    by apply per_call_counts.
Qed.

End CountFacts.

(** ** Headers, form data and scopes in the fetch listener *)

Module ListenerFacts.
Import JS Messaging ServiceWorker StringFacts Extras.

Lemma get_Object (props : gmap string Value) key :
  get (Object props) key = default Undefined (props !! key).
Proof. reflexivity. Qed.

(** Inserting, key by key, the value that a function gives for the key. *)
Lemma foldl_insert_lookup {V} (g : string → option V) (ks : list string)
    (m : gmap string V) (key : string) :
  foldl (λ m k, match g k with Some v => <[k := v]> m | None => m end) m ks !! key =
    if decide (key ∈ ks)
    then match g key with Some v => Some v | None => m !! key end
    else m !! key.
Proof.
  revert m. induction ks as [|k ks IH]; intros m.
  - cbn [foldl]. destruct (decide (key ∈ [])) as [Hin|_]; [|done].
    by apply elem_of_nil in Hin.
  - cbn [foldl]. rewrite IH. destruct (decide (key = k)) as [->|Hne].
    + destruct (decide (k ∈ k :: ks)) as [_|Hn]; [|by destruct Hn; left].
      destruct (g k) as [v|]; [|by case_decide].
      rewrite lookup_insert_eq. by case_decide.
    + assert ((match g k with Some v => <[k := v]> m | None => m end) !! key
              = m !! key) as ->.
      { destruct (g k); [by rewrite lookup_insert_ne|done]. }
      destruct (decide (key ∈ ks)) as [Hin|Hnin];
        destruct (decide (key ∈ k :: ks)) as [Hin'|Hnin']; try done.
      * destruct Hnin'. by right.
      * apply elem_of_cons in Hin' as [?|?]; done.
Qed.

Lemma formDataGet_None key fd : formDataGet key fd = None ↔ key ∉ fd.*1.
Proof.
  induction fd as [|[k v] fd IH]; simpl.
  - split; [intros _; apply not_elem_of_nil | done].
  - rewrite not_elem_of_cons. destruct (String.eqb_spec k key) as [->|Hne].
    + split; [done | intros [? _]; done].
    + rewrite IH. split; [intros ?; split; [congruence|done] | by intros [_ ?]].
Qed.

Lemma sortEntries_folds fd :
  sortEntries fd =
    (foldl (λ (m : gmap string Value) k,
              match fieldOf fd k with Some v => <[k := v]> m | None => m end)
       ∅ (fd.*1),
     foldl (λ (m : gmap string Value) k,
              match fileOf fd k with Some v => <[k := v]> m | None => m end)
       ∅ (fd.*1)).
Proof.
  unfold sortEntries.
  match goal with |- foldl ?F _ _ = _ => set (step := F) end.
  enough (∀ ks post files,
            foldl step (post, files) ks =
              (foldl (λ (m : gmap string Value) k,
                        match fieldOf fd k with Some v => <[k := v]> m | None => m end)
                 post ks,
               foldl (λ (m : gmap string Value) k,
                        match fileOf fd k with Some v => <[k := v]> m | None => m end)
                 files ks)) as H by apply H.
  induction ks as [|k ks IH]; intros post files; [done|].
  cbn [foldl]. rewrite <- IH. f_equal. unfold step, fieldOf, fileOf.
  by destruct (formDataGet k fd) as [[value|name type content]|].
Qed.

Lemma requestHeadersOf_fold hs (m : gmap string Value) name :
  foldl (λ requestHeaders pair, <[pair.1 := Str pair.2]> requestHeaders) m hs
    !! name =
    match lastHeader name hs with
    | Some v => Some (Str v)
    | None => m !! name
    end.
Proof.
  revert m. induction hs as [|[k v] hs IH]; intros m; [done|].
  cbn [foldl lastHeader]. rewrite IH.
  destruct (lastHeader name hs) as [v'|]; [done|]. simpl.
  destruct (String.eqb_spec k name) as [->|Hne].
  - by rewrite lookup_insert_eq.
  - by rewrite lookup_insert_ne.
Qed.

(** A token read from a URL has no slash. *)
Lemma substringFrom_no_slash n s :
  includes s "/" = false → includes (Scope.substringFrom n s) "/" = false.
Proof.
  revert s. induction n as [|n IH]; intros s Hs; [by destruct s|].
  destruct s as [|c s]; [done|]. cbn [Scope.substringFrom]. apply IH.
  rewrite includes_char_cons in Hs. by apply orb_false_iff in Hs as [_ ?].
Qed.

Lemma getURLScope_Some url token :
  Scope.getURLScope url = Some token →
  Scope.isURLScoped url = true ∧ Scope.validToken token = true.
Proof.
  unfold Scope.getURLScope.
  destruct (Scope.isURLScoped url) eqn:Hs; [|done].
  pose proof (split_segments "/" (Scope.pathname url)) as Hall.
  destruct (split "/" (Scope.pathname url)) as [|s0 [|segment segs]]; [done..|].
  apply Forall_cons in Hall as [_ [Hseg _]%Forall_cons].
  apply (substringFrom_no_slash 6) in Hseg.
  intros Heq. split; [done|].
  assert (token = Scope.substringFrom 6 segment) as -> by congruence.
  unfold Scope.validToken. by rewrite Hseg.
Qed.

End ListenerFacts.

(** * The messaging layer *)

Section messaging_claims.
Import JS Messaging LoopFacts.

(** C1.  [awaitReply(channel, id)] resolves with the [response] field of the
    first message on the channel whose [type] is ['response'] and whose
    [requestId] is [id] (first conjunct; whatever follows does not change
    the outcome).  A message that is not such a reply, on any channel,
    leaves the call pending with its listener in place (second conjunct).
    Two calls on one channel with different ids do not interfere: a reply
    to the second id resolves that call only, the other stays pending and
    still resolves with its own reply afterwards, whichever of the two
    calls was made first (third conjunct). *)
Theorem awaitReply_resolves_with_first_matching_reply :
  (∀ st0 target requestId timeout pre data post,
     reachable st0 →
     noReplyIn target requestId pre →
     (elapsed pre < timeoutOrDefault timeout)%Z →
     isReplyTo requestId data = true →
     let '(k, st1) := awaitReply target requestId timeout st0 in
     promiseState k (run (pre ++ EvMessage target data :: post) st1)
       = Fulfilled (get data "response")) ∧
  (∀ st0 target requestId timeout target' data,
     reachable st0 →
     isReplyTo requestId data = false →
     let '(k, st1) := awaitReply target requestId timeout st0 in
     let st2 := step st1 (EvMessage target' data) in
     promiseState k st2 = Pending ∧ listening k st2 = true) ∧
  (∀ st0 target id1 id2 timeout1 timeout2 r1 r2,
     reachable st0 →
     id1 ≠ id2 →
     let '(k1, st1) := awaitReply target id1 timeout1 st0 in
     let '(k2, st2) := awaitReply target id2 timeout2 st1 in
     let st3 := step st2 (EvMessage target (responseTo id2 r2)) in
     let st4 := step st3 (EvMessage target (responseTo id1 r1)) in
     promiseState k2 st3 = Fulfilled r2 ∧
     promiseState k1 st3 = Pending ∧ listening k1 st3 = true ∧
     promiseState k1 st4 = Fulfilled r1 ∧
     promiseState k2 st4 = Fulfilled r2).
Proof.
  split_and!.
  - intros st0 target requestId timeout pre data post Hr Hq Hel Hm.
    pose proof (awaitReply_first_reply st0 target requestId timeout
                  pre data post Hr Hq Hel Hm) as Hs.
    destruct (awaitReply target requestId timeout st0) as [k st1].
    simpl in Hs. by apply settled_observed in Hs as (-> & _).
  - intros st0 target requestId timeout target' data Hr Hm.
    pose proof (awaitReply_waiting target requestId timeout st0 Hr) as H0.
    destruct (awaitReply target requestId timeout st0) as [k st1].
    cbv zeta in H0. cbn [fst snd] in H0. destruct H0 as (_ & Hlt & _ & _ & Hw).
    pose proof (step_waiting _ _ _ _ _ (EvMessage target' data) Hw ltac:(lia)) as H.
    cbn [step] in H. rewrite Hm, andb_false_r in H.
    by apply waiting_observed in H as (? & ? & _).
  - intros st0 target id1 id2 timeout1 timeout2 r1 r2 Hr Hne.
    pose proof (awaitReply_waiting target id1 timeout1 st0 Hr) as H1.
    destruct (awaitReply target id1 timeout1 st0) as [k1 st1].
    cbv zeta in H1. cbn [fst snd] in H1.
    destruct H1 as (_ & Hlt1 & _ & Hr1 & Hw1).
    pose proof (awaitReply_waiting target id2 timeout2 st1 Hr1) as H2.
    pose proof (step_waiting _ _ _ _ _ (EvAwait target id2 timeout2) Hw1
                  ltac:(lia)) as Hw1'.
    cbn [step] in Hw1'.
    destruct (awaitReply target id2 timeout2 st1) as [k2 st2].
    cbv zeta in H2. cbn [fst snd] in H2, Hw1'.
    destruct H2 as (Hk2 & Hlt2 & _ & _ & Hw2).
    assert (k1 < fresh st2) as Hlt1' by lia.
    pose proof (step_waiting _ _ _ _ _ (EvMessage target (responseTo id2 r2))
                  Hw2 ltac:(lia)) as Hs2.
    pose proof (step_waiting _ _ _ _ _ (EvMessage target (responseTo id2 r2))
                  Hw1' ltac:(lia)) as Hw1''.
    cbn [step] in Hs2, Hw1''.
    rewrite isReplyTo_responseTo, !bool_decide_eq_true_2 in Hs2 by done.
    rewrite isReplyTo_responseTo, (bool_decide_eq_false_2 (id2 = id1)),
      andb_false_r in Hw1'' by done.
    rewrite (proj2 (proj2 (get_responseTo id2 r2))) in Hs2. simpl in Hs2.
    cbv zeta. cbn [step].
    set (st3 := dispatchMessage target (responseTo id2 r2) st2) in *.
    assert (fresh st3 = fresh st2) as Hf3
      by apply (step_fresh st2 (EvMessage target (responseTo id2 r2))).
    pose proof (step_waiting _ _ _ _ _ (EvMessage target (responseTo id1 r1))
                  Hw1'' ltac:(lia)) as Hs1.
    cbn [step] in Hs1.
    rewrite isReplyTo_responseTo, !bool_decide_eq_true_2 in Hs1 by done.
    rewrite (proj2 (proj2 (get_responseTo id1 r1))) in Hs1. simpl in Hs1.
    pose proof (step_settled _ _ _ (EvMessage target (responseTo id1 r1))
                  Hs2 ltac:(lia)) as Hs2'.
    cbn [step] in Hs2'.
    apply settled_observed in Hs2 as (-> & _).
    apply settled_observed in Hs2' as (-> & _).
    apply settled_observed in Hs1 as (-> & _).
    apply waiting_observed in Hw1'' as (-> & -> & _).
    done.
Qed.

Lemma awaitReply_resolves_with_first_matching_reply_witness :
  promiseState 0
    (run ([EvElapse 5; EvMessage 0 (responseTo 2 (Str "other"))] ++
          EvMessage 0 (responseTo 1 (Str "first")) ::
          [EvMessage 0 (responseTo 1 (Str "second")); EvElapse 100])
       (awaitReply 0 1 (Some 10%Z) initialLoop).2)
    = Fulfilled (Str "first") ∧
  (promiseState 0
     (step (awaitReply 0 1 None initialLoop).2
        (EvMessage 0 (responseTo 2 (Str "other")))) = Pending ∧
   listening 0
     (step (awaitReply 0 1 None initialLoop).2
        (EvMessage 0 (responseTo 2 (Str "other")))) = true) ∧
  promiseState 1
    (step (awaitReply 0 2 None (awaitReply 0 1 None initialLoop).2).2
       (EvMessage 0 (responseTo 2 (Str "b")))) = Fulfilled (Str "b").
Proof.
  assert (reachable initialLoop) as Hr by (by exists []).
  split; [|split].
  - apply (proj1 awaitReply_resolves_with_first_matching_reply
             initialLoop 0 1%Z (Some 10%Z)
             [EvElapse 5; EvMessage 0 (responseTo 2 (Str "other"))]
             (responseTo 1 (Str "first"))
             [EvMessage 0 (responseTo 1 (Str "second")); EvElapse 100]).
    + exact Hr.
    + repeat constructor.
    + vm_compute. reflexivity.
    + vm_compute. reflexivity.
  - apply (proj1 (proj2 awaitReply_resolves_with_first_matching_reply)
             initialLoop 0 1%Z None 0 (responseTo 2 (Str "other"))).
    + exact Hr.
    + vm_compute. reflexivity.
  - apply (proj2 (proj2 awaitReply_resolves_with_first_matching_reply)
             initialLoop 0 1%Z 2%Z None None (Str "a") (Str "b")).
    + exact Hr.
    + lia.
Defined.

(** C2.  If no message with [type === 'response'] and the awaited
    [requestId] arrives within the timeout, the promise of [awaitReply] is
    rejected with the error 'Request timed out', by exactly one call of
    [reject], and its listener and timer are gone, whatever happens
    afterwards (first conjunct); until the timeout has passed the call is
    still pending (second conjunct); a call without a timeout argument
    waits 25000 ms (third conjunct).  In every state the event loop can
    reach, the [resolve] and [reject] of a promise were called at most once
    in total, a settled promise has neither listener nor timer left, and a
    pending one still has its listener (fourth conjunct). *)
Theorem awaitReply_times_out_and_settles_once :
  (∀ st0 target requestId timeout pre d post,
     reachable st0 →
     noReplyIn target requestId pre →
     (timeoutOrDefault timeout <= elapsed pre + Z.max 0 d)%Z →
     let '(k, st1) := awaitReply target requestId timeout st0 in
     let st' := run (pre ++ EvElapse d :: post) st1 in
     promiseState k st' = Rejected "Request timed out" ∧
     settlesOf k st' = [(k, Reject "Request timed out")] ∧
     listening k st' = false ∧ timersOf k st' = []) ∧
  (∀ st0 target requestId timeout evs,
     reachable st0 →
     noReplyIn target requestId evs →
     (elapsed evs < timeoutOrDefault timeout)%Z →
     let '(k, st1) := awaitReply target requestId timeout st0 in
     promiseState k (run evs st1) = Pending ∧ listening k (run evs st1) = true) ∧
  timeoutOrDefault None = 25000%Z ∧
  (∀ st k,
     reachable st →
     length (settlesOf k st) ≤ 1 ∧
     (promiseState k st ≠ Pending →
        length (settlesOf k st) = 1 ∧ listening k st = false ∧ timersOf k st = []) ∧
     (k < fresh st → promiseState k st = Pending → listening k st = true)).
Proof.
  split; [|split; [|split]].
  - intros st0 target requestId timeout pre d post Hr Hq Hel.
    pose proof (awaitReply_timeout st0 target requestId timeout pre d post
                  Hr Hq Hel) as Hs.
    destruct (awaitReply target requestId timeout st0) as [k st1].
    cbn [fst snd] in Hs. cbv zeta.
    by apply settled_observed in Hs as (-> & -> & -> & ->).
  - intros st0 target requestId timeout evs Hr Hq Hel.
    pose proof (awaitReply_waiting target requestId timeout st0 Hr) as H0.
    destruct (awaitReply target requestId timeout st0) as [k st1].
    cbv zeta in H0. cbn [fst snd] in H0. destruct H0 as (_ & Hlt & Hc & _ & Hw).
    assert (waiting k target requestId
              (clock st0 + Z.max 0 (timeoutOrDefault timeout)) (run evs st1)) as Hw'.
    { apply run_waiting; [done..|]. lia. }
    by apply waiting_observed in Hw' as (-> & -> & _).
  - reflexivity.
  - intros st k Hr. apply wf_reachable in Hr.
    destruct (Hr k) as [Hun Hborn].
    destruct (decide (k < fresh st)) as [Hlt|Hge].
    + destruct (Hborn Hlt) as [(tg & id & dl & Hw)|[s Hs]].
      * apply waiting_observed in Hw as (HP & HL & _ & HS).
        rewrite HS, HP. simpl. split_and!; [lia|done|done].
      * apply settled_observed in Hs as (HP & HL & HT & HS).
        rewrite HS, HP. simpl. split_and!; [lia|done|].
        intros _. by destruct s.
    + assert (unused k st) as Hu by (apply Hun; lia).
      unfold unused, view in Hu. injection Hu as _ _ HS.
      unfold promiseState. rewrite HS. simpl. split_and!; [lia|done|lia].
Qed.

Lemma awaitReply_times_out_and_settles_once_witness :
  (promiseState 0
     (run ([EvElapse 4; EvMessage 0 (responseTo 2 (Str "other"))] ++
           EvElapse 6 :: [EvMessage 0 (responseTo 1 (Str "late"))])
        (awaitReply 0 1 (Some 10%Z) initialLoop).2)
     = Rejected "Request timed out") ∧
  (promiseState 0
     (run [EvElapse 24999] (awaitReply 0 1 None initialLoop).2) = Pending) ∧
  length (settlesOf 0
     (run [EvAwait 0 1 None; EvMessage 0 (responseTo 1 (Str "r")); EvElapse 30000]
        initialLoop)) ≤ 1.
Proof.
  assert (reachable initialLoop) as Hr by (by exists []).
  split; [|split].
  - apply (proj1 awaitReply_times_out_and_settles_once
             initialLoop 0 1%Z (Some 10%Z)
             [EvElapse 4; EvMessage 0 (responseTo 2 (Str "other"))] 6%Z
             [EvMessage 0 (responseTo 1 (Str "late"))]).
    + exact Hr.
    + repeat constructor.
    + vm_compute. discriminate.
  - apply (proj1 (proj2 awaitReply_times_out_and_settles_once)
             initialLoop 0 1%Z None [EvElapse 24999]).
    + exact Hr.
    + repeat constructor.
    + vm_compute. reflexivity.
  - apply (proj2 (proj2 (proj2 awaitReply_times_out_and_settles_once))).
    eexists. reflexivity.
Defined.

(** C10.  [responseTo(n, r)] is the object with exactly the properties
    [type: 'response'], [requestId: n] and [response: r]; it passes the test
    that the handler of [awaitReply(channel, n)] makes, so a call waiting for
    [n] that receives it as its first reply resolves with exactly [r]. *)
Theorem responseTo_matches_awaitReply :
  ∀ (n : Z) (r : Value),
    (∀ key,
       get (responseTo n r) key =
         if decide (key = "type") then Str "response"
         else if decide (key = "requestId") then Number n
         else if decide (key = "response") then r
         else Undefined) ∧
    isReplyTo n (responseTo n r) = true ∧
    (∀ st0 target timeout pre post,
       reachable st0 →
       noReplyIn target n pre →
       (elapsed pre < timeoutOrDefault timeout)%Z →
       let '(k, st1) := awaitReply target n timeout st0 in
       promiseState k (run (pre ++ EvMessage target (responseTo n r) :: post) st1)
         = Fulfilled r).
Proof.
  intros n r. split; [|split].
  - intros key. unfold responseTo, get.
    repeat (case_decide; [subst key|]).
    + by rewrite lookup_insert_eq.
    + rewrite lookup_insert_ne by done. by rewrite lookup_insert_eq.
    + do 2 (rewrite lookup_insert_ne by done). by rewrite lookup_insert_eq.
    + by do 3 (rewrite lookup_insert_ne by done).
  - rewrite isReplyTo_responseTo. by apply bool_decide_eq_true_2.
  - intros st0 target timeout pre post Hr Hq Hel.
    assert (isReplyTo n (responseTo n r) = true) as Hm.
    { rewrite isReplyTo_responseTo. by apply bool_decide_eq_true_2. }
    pose proof (awaitReply_first_reply st0 target n timeout pre
                  (responseTo n r) post Hr Hq Hel Hm) as Hs.
    destruct (awaitReply target n timeout st0) as [k st1].
    cbn [fst snd] in Hs. apply settled_observed in Hs as (-> & _).
    by rewrite (proj2 (proj2 (get_responseTo n r))).
Qed.

Lemma responseTo_matches_awaitReply_witness :
  promiseState 0
    (run ([EvElapse 3] ++ EvMessage 7 (responseTo 5 (Number 42)) :: [])
       (awaitReply 7 5 None initialLoop).2)
    = Fulfilled (Number 42).
Proof.
  apply (proj2 (proj2 (responseTo_matches_awaitReply 5 (Number 42)))
           initialLoop 7 None [EvElapse 3] []).
  - by exists [].
  - repeat constructor.
  - vm_compute. reflexivity.
Defined.

(** C3.  Every call of [postMessageExpectReply] returns a request id that is
    greater than every id returned before it: the ids returned by any
    sequence of N calls since the start are 1, 2, ..., N in call order, hence
    strictly increasing and pairwise distinct, and each posted message
    carries the id that its call returned.  (Ids are integers here; a
    JavaScript number holds them exactly below 2^53.) *)
Theorem postMessageExpectReply_ids_strictly_increase :
  ∀ calls : list (Target * gmap string Value * list Value),
    let '(ids, s) := postAll calls initialSender in
    ids = seqZ 1 (Z.of_nat (length calls)) ∧
    (∀ i j a b, ids !! i = Some a → ids !! j = Some b → i < j → (a < b)%Z) ∧
    StronglySorted Z.lt ids ∧
    NoDup ids ∧
    Forall (λ id, (0 < id)%Z) ids ∧
    posted s = zip_with branded ids calls ∧
    lastRequestId s = Z.of_nat (length calls).
Proof.
  intros calls.
  pose proof (SenderFacts.postAll_ids calls initialSender) as Hids.
  pose proof (SenderFacts.postAll_sorted calls initialSender) as [Hgt Hs].
  pose proof (SenderFacts.postAll_posted calls initialSender) as Hp.
  pose proof (SenderFacts.postAll_lastRequestId calls initialSender) as Hl.
  destruct (postAll calls initialSender) as [ids s]. cbn [fst snd] in *.
  split_and!; try done.
  - intros i j a b. by apply SenderFacts.StronglySorted_lt_lookup.
  - by apply SenderFacts.StronglySorted_lt_NoDup.
Qed.

End messaging_claims.

(** * The scope codec *)

Section scope_claims.
Import JS Scope StringFacts ScopeFacts.

(** C4, as the spec states it, fails on a URL that is already scoped:
    whether embedding then fails or leaves the URL as it is, stripping does
    not give the scoped URL back and the token read is the old one. *)
Lemma round_trip_fails_on_scoped_url :
  let url := {| origin := "http://localhost:8777";
                pathname := "/scope:abc/index.php";
                search := ""; hash := "" |} in
  ¬ roundTrip Fails url "def" ∧ ¬ roundTrip NoOp url "def".
Proof.
  split; intros (url' & Hset & Hremove & Hget).
  - discriminate Hset.
  - injection Hset as <-. discriminate Hget.
Qed.

(** C4, amended.  For every URL that is not scoped yet (its path, as that of
    any [http] URL, starting with a slash) and every token (a string
    without a slash), embedding the token succeeds; the scoped URL differs
    from the original only by the leading [/scope:<token>] of its path;
    reading it gives the token, stripping it gives the original URL, and
    embedding the token again in the stripped URL gives the scoped URL. *)
Theorem scope_round_trip :
  ∀ choice url token,
    absolute url →
    isURLScoped url = false →
    validToken token = true →
    ∃ url',
      setURLScope choice url token = Some url' ∧
      removeURLScope url' = url ∧
      getURLScope url' = Some token ∧
      isURLScoped url' = true ∧
      pathname url' = "/scope:" +:+ token +:+ pathname url ∧
      origin url' = origin url ∧ search url' = search url ∧ hash url' = hash url ∧
      setURLScope choice (removeURLScope url') token = Some url'.
Proof.
  intros choice url token Ha Hu Ht.
  destruct (embed_then_read choice url token Ha Hu Ht) as (Hset & Hs & Hget & Hrm).
  eexists. split; [exact Hset|]. rewrite Hrm. by split_and!.
Qed.

Lemma scope_round_trip_witness :
  let url := {| origin := "http://localhost:8777"; pathname := "/index.php";
                search := "?p=1"; hash := "" |} in
  ∃ url',
    setURLScope Fails url "abc" = Some url' ∧
    removeURLScope url' = url ∧
    getURLScope url' = Some "abc" ∧
    isURLScoped url' = true ∧
    pathname url' = "/scope:abc/index.php".
Proof.
  intros url.
  destruct (scope_round_trip Fails url "abc") as (url' & H1 & H2 & H3 & H4 & H5 & _).
  - by exists "index.php".
  - reflexivity.
  - reflexivity.
  - exists url'. by split_and!.
Defined.

End scope_claims.

(** * The service worker *)

Section service_worker_claims.
Import JS Messaging Scope ServiceWorker StringFacts LoopFacts.

(** C5.  The default forwarding policy accepts a path exactly when it ends
    in [.php], or contains [.php/] (a script followed by further segments),
    or has a final segment without a dot.  It accepts [/index.php],
    [/index.php/extra/segment], [/] and [/blog/], and refuses
    [/style.css]. *)
Theorem seemsLikeAPHPServerPath_default_policy :
  (∀ path,
     seemsLikeAPHPServerPath path = true ↔
       (∃ a, path = a +:+ ".php") ∨
       occursIn ".php/" path ∨
       (∃ segment, finalSegment path segment ∧ ¬ occursIn "." segment)) ∧
  seemsLikeAPHPServerPath "/index.php" = true ∧
  seemsLikeAPHPServerPath "/index.php/extra/segment" = true ∧
  seemsLikeAPHPServerPath "/" = true ∧
  seemsLikeAPHPServerPath "/blog/" = true ∧
  seemsLikeAPHPServerPath "/style.css" = false.
Proof.
  split; [|by vm_compute].
  intros path. unfold seemsLikeAPHPServerPath, seemsLikeAPHPFile.
  rewrite !orb_true_iff, endsWith_spec, includes_spec.
  assert (∀ sub s, includes s sub = false ↔ ¬ occursIn sub s) as Hno.
  { intros sub s. unfold occursIn. rewrite <- includes_spec.
    by destruct (includes s sub). }
  assert (seemsLikeADirectoryRoot path = true ↔
          ∃ segment, finalSegment path segment ∧ ¬ occursIn "." segment) as ->.
  { unfold seemsLikeADirectoryRoot, finalSegment. split.
    - destruct (pop (split "/" path)) as [seg|] eqn:Hpop; [|done].
      intros Hdot%negb_true_iff. apply pop_split in Hpop as [Hseg Hpath].
      exists seg. by rewrite <- !Hno.
    - intros (seg & [Hseg Hpath] & Hdot).
      rewrite (proj2 (pop_split "/" path seg)) by by rewrite Hno.
      apply negb_true_iff. by apply Hno. }
  unfold occursIn. tauto.
Qed.

(** C6, as the spec states it, fails for a navigation: the request that is
    fetched instead has mode [same-origin], not the mode of the original. *)
Lemma unscoped_refetch_changes_navigate_mode :
  let request := exampleRequest "GET" "/scope:abc/logo.png" "navigate" [] None in
  ∃ newRequest,
    exampleListener NoOp request [] exampleWorld =
      (RespondWith true (SettledWith (AFetch newRequest)), exampleWorld) ∧
    mode newRequest ≠ mode request.
Proof. eexists. split; [by vm_compute | by vm_compute]. Qed.

(** C6, amended.  When the URL of a fetch event is scoped, by itself or by
    the scope of its referer, and the forwarding policy refuses it, the
    listener prevents the default handling and responds with one fetch, of
    a request that has the unscoped URL, the method, headers, referrer,
    referrer policy, credentials, cache mode, redirect mode and integrity
    of the original, its body unless the method is [GET] or [HEAD], and its
    mode except that [navigate] becomes [same-origin]; nothing is posted to
    any client.  With the scope codec of the spec, [/scope:abc/logo.png] is
    fetched as [/logo.png], and so is [/logo.png] requested from a page at
    [/scope:abc/index.php]. *)
Theorem scoped_request_not_forwarded_is_refetched_unscoped :
  (∀ isURLScoped getURLScope setURLScope removeURLScope newURL self
     config request future w,
     let url := resolveScope isURLScoped getURLScope setURLScope newURL request in
     isURLScoped url = true →
     shouldForward config request (removeURLScope url) = false →
     ∃ newRequest,
       initializeServiceWorker isURLScoped getURLScope setURLScope
         removeURLScope newURL self config request future w =
         (RespondWith true (SettledWith (AFetch newRequest)), w) ∧
       ServiceWorker.url newRequest = removeURLScope url ∧
       method newRequest = method request ∧
       headers newRequest = headers request ∧
       body newRequest =
         (if bool_decide (method request ∈ ["GET"; "HEAD"]) then None
          else body request) ∧
       referrer newRequest = referrer request ∧
       referrerPolicy newRequest = referrerPolicy request ∧
       mode newRequest =
         (if String.eqb (mode request) "navigate" then "same-origin"
          else mode request) ∧
       credentials newRequest = credentials request ∧
       cache newRequest = cache request ∧
       redirect newRequest = redirect request ∧
       integrity newRequest = integrity request) ∧
  (∀ choice,
     exampleListener choice
       (exampleRequest "GET" "/scope:abc/logo.png" "no-cors" [] None) []
       exampleWorld =
       (RespondWith true
          (SettledWith
             (AFetch (exampleRequest "GET" "/logo.png" "no-cors" [] None))),
        exampleWorld)) ∧
  (∀ choice,
     let headers := [("referer", "http://localhost:8777/scope:abc/index.php")] in
     exampleListener choice
       (exampleRequest "GET" "/logo.png" "no-cors" headers None) []
       exampleWorld =
       (RespondWith true
          (SettledWith
             (AFetch (exampleRequest "GET" "/logo.png" "no-cors" headers None))),
        exampleWorld)).
Proof.
  split; [|split].
  - intros isS getS setS rmS newURL self config request future w url Hs Hf.
    eexists. split.
    + by apply ServiceWorkerFacts.listener_passthrough.
    + unfold cloneRequest, onlyUrl; simpl. rewrite orb_false_r. done.
  - by intros [].
  - by intros [].
Qed.

Lemma scoped_request_not_forwarded_is_refetched_unscoped_witness :
  ∃ newRequest,
    exampleListener Fails
      (exampleRequest "POST" "/scope:abc/upload.bin" "cors" []
         (Some {| blob := "bytes"; formData := Throw "TypeError";
                  json := Throw "SyntaxError" |})) []
      exampleWorld =
      (RespondWith true (SettledWith (AFetch newRequest)), exampleWorld) ∧
    ServiceWorker.url newRequest = exampleURL "/upload.bin" ∧
    body newRequest =
      Some {| blob := "bytes"; formData := Throw "TypeError";
              json := Throw "SyntaxError" |}.
Proof.
  destruct (proj1 scoped_request_not_forwarded_is_refetched_unscoped
              Scope.isURLScoped Scope.getURLScope (specSetURLScope Fails)
              Scope.removeURLScope
              (λ s, if String.eqb s "http://localhost:8777/scope:abc/index.php"
                    then Some (exampleURL "/scope:abc/index.php") else None)
              0 {| shouldForwardRequestToPHPServer := None |}
              (exampleRequest "POST" "/scope:abc/upload.bin" "cors" []
                 (Some {| blob := "bytes"; formData := Throw "TypeError";
                          json := Throw "SyntaxError" |}))
              [] exampleWorld)
    as (newRequest & H1 & H2 & _ & _ & H3 & _).
  - reflexivity.
  - reflexivity.
  - exists newRequest. split; [exact H1|]. split; [exact H2|exact H3].
Defined.

(** C7, as the spec states it, fails for a [POST] body that is neither form
    data nor JSON: [parsePost] has no result, it throws the error of the
    JSON parser, and the listener never answers the event. *)
Lemma parsePost_throws_on_unparsable_body :
  let request :=
    exampleRequest "POST" "/scope:abc/index.php" "cors" [] (Some unparsableBody) in
  parsePost request = Throw "SyntaxError" ∧
  (¬ ∃ parsed, parsePost request = Return parsed) ∧
  exampleListener NoOp request [] exampleWorld =
    (RespondWith true (NeverSettles (Some "SyntaxError")), exampleWorld).
Proof.
  split; [reflexivity|]. split; [|by vm_compute].
  intros [parsed H]. discriminate H.
Qed.

(** C7, amended.  A request that is not a [POST] is parsed as having
    neither fields nor files.  For a [POST], form-data extraction is tried
    first and decides the result when it succeeds; when it fails, the
    failure is dropped and the body is parsed as JSON, whose value becomes
    the fields, with no files; when JSON parsing fails too, [parsePost]
    fails with that error: there is no empty-body fallback.  Whatever
    [parsePost] returns is what the forwarded message carries as [_POST] and
    [files]. *)
Theorem parsePost_tries_form_data_then_json :
  (∀ request,
     method request ≠ "POST" →
     parsePost request = Return {| post := Undefined; files := Undefined |}) ∧
  (∀ request fd,
     method request = "POST" →
     requestFormData request = Return fd →
     parsePost request =
       Return {| post := Object (sortEntries fd).1;
                 files := Object (sortEntries fd).2 |}) ∧
  (∀ request e v,
     method request = "POST" →
     requestFormData request = Throw e →
     requestJson request = Return v →
     parsePost request = Return {| post := v; files := Object ∅ |}) ∧
  (∀ request e e',
     method request = "POST" →
     requestFormData request = Throw e →
     requestJson request = Throw e' →
     parsePost request = Throw e') ∧
  (∀ getURLScope request url parsed,
     get (get (Object (forwardedMessage getURLScope request url parsed)) "request")
       "_POST" = post parsed ∧
     get (get (Object (forwardedMessage getURLScope request url parsed)) "request")
       "files" = files parsed).
Proof.
  split_and!.
  - intros request Hm. unfold parsePost.
    by rewrite (proj2 (String.eqb_neq _ _) Hm).
  - intros request fd Hm Hfd. unfold parsePost.
    rewrite Hm, Hfd. simpl. by destruct (sortEntries fd).
  - intros request e v Hm Hfd Hj. unfold parsePost. by rewrite Hm, Hfd, Hj.
  - intros request e e' Hm Hfd Hj. unfold parsePost. by rewrite Hm, Hfd, Hj.
  - intros getS request url parsed. unfold forwardedMessage, get.
    rewrite !lookup_insert_ne, lookup_insert_eq by done. simpl.
    rewrite !lookup_insert_ne, !lookup_insert_eq by done. simpl.
    split; [done|].
    rewrite !lookup_insert_ne, !lookup_insert_eq by done. done.
Qed.

Lemma parsePost_tries_form_data_then_json_witness :
  parsePost (exampleRequest "GET" "/scope:abc/index.php" "cors" [] None)
    = Return {| post := Undefined; files := Undefined |} ∧
  parsePost (exampleRequest "POST" "/scope:abc/index.php" "cors" []
               (Some {| blob := "a=1"; formData := Return [("a", FieldValue "1")];
                        json := Throw "SyntaxError" |}))
    = Return {| post := Object {["a" := Str "1"]}; files := Object ∅ |} ∧
  parsePost (exampleRequest "POST" "/scope:abc/index.php" "cors" []
               (Some (jsonBody (Number 7))))
    = Return {| post := Number 7; files := Object ∅ |} ∧
  parsePost (exampleRequest "POST" "/scope:abc/index.php" "cors" []
               (Some unparsableBody))
    = Throw "SyntaxError".
Proof.
  split; [|split; [|split]].
  - by apply (proj1 parsePost_tries_form_data_then_json).
  - by apply (proj1 (proj2 parsePost_tries_form_data_then_json)
                (exampleRequest "POST" "/scope:abc/index.php" "cors" []
                   (Some {| blob := "a=1";
                            formData := Return [("a", FieldValue "1")];
                            json := Throw "SyntaxError" |}))
                [("a", FieldValue "1")]).
  - by apply (proj1 (proj2 (proj2 parsePost_tries_form_data_then_json))
                _ "TypeError").
  - by apply (proj1 (proj2 (proj2 (proj2 parsePost_tries_form_data_then_json)))
                _ "TypeError").
Defined.

(** C8.  What the listener does when a forwarded request fails.  When the
    body cannot be parsed, or when no reply comes within the 25000 ms that
    [awaitReply] waits, the error is thrown inside the async executor of
    the promise handed to [respondWith]: that promise is then neither
    rejected nor fulfilled, it stays unsettled for good.  The request
    message was broadcast once (not at all after a parse failure) and is not
    sent again.  So no empty response is made up and nothing is retried, but
    the fetch is not failed either. *)
Theorem failed_forward_never_settles :
  ∀ isURLScoped getURLScope setURLScope removeURLScope newURL self
    config request w,
    let url := resolveScope isURLScoped getURLScope setURLScope newURL request in
    let listener :=
      initializeServiceWorker isURLScoped getURLScope setURLScope
        removeURLScope newURL self config request in
    isURLScoped url = true →
    shouldForward config request (removeURLScope url) = true →
    (∀ e future,
       parsePost request = Throw e →
       listener future w = (RespondWith true (NeverSettles (Some e)), w)) ∧
    (∀ parsed pre d post,
       parsePost request = Return parsed →
       reachable (loop w) →
       noReplyIn self (lastRequestId (sender w) + 1) pre →
       (DEFAULT_RESPONSE_TIMEOUT <= elapsed pre + Z.max 0 d)%Z →
       listener (pre ++ EvElapse d :: post) w =
         (RespondWith true (NeverSettles (Some "Request timed out")),
          afterForward getURLScope self request url parsed
            (pre ++ EvElapse d :: post) w) ∧
       length (posted (sender (listener (pre ++ EvElapse d :: post) w).2)) =
         length (posted (sender w)) + length (clients w)).
Proof.
  intros isS getS setS rmS newURL self config request w url listener Hs Hf.
  split.
  - intros e future Hp. unfold listener.
    rewrite ServiceWorkerFacts.listener_forward by done.
    fold url. by rewrite (ServiceWorkerFacts.forward_parse_failure _ _ _ _ _ _ e).
  - intros parsed pre d post Hp Hr Hq Hel.
    assert (listener (pre ++ EvElapse d :: post) w =
              (RespondWith true (NeverSettles (Some "Request timed out")),
               afterForward getS self request url parsed
                 (pre ++ EvElapse d :: post) w)) as Hl.
    { unfold listener.
      rewrite ServiceWorkerFacts.listener_forward by done. fold url.
      rewrite (ServiceWorkerFacts.forward_outcome _ _ _ _ _ _ parsed) by done.
      pose proof (awaitReply_timeout (loop w) self (lastRequestId (sender w) + 1)
                    None pre d post Hr Hq Hel) as Hset.
      apply settled_observed in Hset as (-> & _). done. }
    split; [exact Hl|]. rewrite Hl. simpl.
    by rewrite length_app, length_fmap.
Qed.

Lemma failed_forward_never_settles_witness :
  exampleListener NoOp
    (exampleRequest "GET" "/scope:abc/index.php" "navigate" [] None)
    ([EvElapse 20000; EvMessage 0 (responseTo 7 (engineReply 200 "other"))] ++
     EvElapse 5000 :: [EvMessage 0 (responseTo 1 (engineReply 200 "late"))])
    exampleWorld
  = (RespondWith true (NeverSettles (Some "Request timed out")),
     afterForward Scope.getURLScope 0
       (exampleRequest "GET" "/scope:abc/index.php" "navigate" [] None)
       (exampleURL "/scope:abc/index.php")
       {| post := Undefined; files := Undefined |}
       ([EvElapse 20000; EvMessage 0 (responseTo 7 (engineReply 200 "other"))] ++
        EvElapse 5000 :: [EvMessage 0 (responseTo 1 (engineReply 200 "late"))])
       exampleWorld).
Proof.
  refine (proj1 (proj2 (failed_forward_never_settles
            Scope.isURLScoped Scope.getURLScope (specSetURLScope NoOp)
            Scope.removeURLScope
            (λ s, if String.eqb s "http://localhost:8777/scope:abc/index.php"
                  then Some (exampleURL "/scope:abc/index.php") else None)
            0 {| shouldForwardRequestToPHPServer := None |}
            (exampleRequest "GET" "/scope:abc/index.php" "navigate" [] None)
            exampleWorld _ _)
          {| post := Undefined; files := Undefined |}
          [EvElapse 20000; EvMessage 0 (responseTo 7 (engineReply 200 "other"))]
          5000%Z [EvMessage 0 (responseTo 1 (engineReply 200 "late"))]
          _ _ _ _)).
  - reflexivity.
  - reflexivity.
  - reflexivity.
  - by exists [].
  - repeat constructor.
  - vm_compute. discriminate.
Defined.




End service_worker_claims.

(** * Further properties of the sources *)

(** ** The development server *)

Section dev_server.
Import JS DevServer StringFacts.

(** X1.  The middleware of the development server strips one leading
    [/scope:<token>] segment from a request path: [/scope:<token>/<rest>]
    becomes [/<rest>] (query string included), a bare [/scope:<token>]
    becomes [/], and a path that does not start with [/scope:] is left as
    it is.  A stripped path always starts with a slash. *)
Theorem unscope_strips_one_scope_segment :
  (∀ url, startsWith url "/scope:" = false → unscope url = url) ∧
  (∀ token rest,
     includes token "/" = false →
     unscope ("/scope:" +:+ token +:+ "/" +:+ rest) = "/" +:+ rest) ∧
  (∀ token,
     includes token "/" = false → unscope ("/scope:" +:+ token) = "/") ∧
  (∀ url, startsWith url "/scope:" = true → startsWith (unscope url) "/" = true).
Proof.
  split_and!.
  - intros url Hu. unfold unscope. by rewrite Hu.
  - intros token rest Ht. unfold unscope.
    assert (startsWith ("/scope:" +:+ token +:+ "/" +:+ rest) "/scope:" = true)
      as -> by (apply startsWith_spec; eauto).
    change ("/scope:" +:+ token +:+ "/" +:+ rest)
      with ("/scope:" +:+ token +:+ String "/" rest).
    rewrite ScopeFacts.split_scoped
      by (unfold Scope.validToken; by rewrite Ht).
    change (slice 2 ("" :: ("scope:" +:+ token) :: split "/" rest))
      with (split "/" rest).
    by rewrite join_split.
  - intros token Ht. unfold unscope.
    assert (startsWith ("/scope:" +:+ token) "/scope:" = true)
      as -> by (apply startsWith_spec; eauto).
    change ("/scope:" +:+ token) with ("" +:+ String "/" ("scope:" +:+ token)).
    rewrite split_app_sep, (split_no_sep _ ("scope:" +:+ token)).
    + reflexivity.
    + apply ScopeFacts.scope_segment_no_slash.
      unfold Scope.validToken. by rewrite Ht.
  - intros url Hu. unfold unscope. rewrite Hu.
    apply startsWith_spec. eauto.
Qed.

Lemma unscope_strips_one_scope_segment_witness :
  unscope "/wp-admin/index.php" = "/wp-admin/index.php" ∧
  unscope ("/scope:" +:+ "0.42" +:+ "/" +:+ "wp-admin/index.php?a=/b")
    = "/" +:+ "wp-admin/index.php?a=/b" ∧
  unscope ("/scope:" +:+ "0.42") = "/" ∧
  startsWith (unscope "/scope:a/scope:b/x") "/" = true.
Proof.
  split; [|split; [|split]].
  - by apply (proj1 unscope_strips_one_scope_segment).
  - by apply (proj1 (proj2 unscope_strips_one_scope_segment)).
  - by apply (proj1 (proj2 (proj2 unscope_strips_one_scope_segment))).
  - by apply (proj2 (proj2 (proj2 unscope_strips_one_scope_segment))).
Defined.

(** X2.  The plugin name taken from the query string loses only the first
    character outside [a-zA-Z0-9.-_]: the number of such characters drops
    by exactly one when there is any, a clean name is proxied unchanged,
    and a name with two or more of them still contains one when it is put
    in the upstream URL. *)
Theorem sanitizePluginName_removes_first_only :
  ∀ name,
    disallowedCount (sanitizePluginName name) = pred (disallowedCount name) ∧
    String.length (sanitizePluginName name) =
      String.length name - (if Nat.eqb (disallowedCount name) 0 then 0 else 1) ∧
    (disallowedCount name = 0 → sanitizePluginName name = name) ∧
    (2 ≤ disallowedCount name → 0 < disallowedCount (sanitizePluginName name)).
Proof.
  intros name. split_and!.
  - apply DevServerFacts.sanitize_count.
  - apply DevServerFacts.sanitize_length.
  - apply DevServerFacts.sanitize_clean.
  - rewrite DevServerFacts.sanitize_count. lia.
Qed.

Lemma sanitizePluginName_removes_first_only_witness :
  disallowedCount "../../evil" = 2 ∧
  sanitizePluginName "../../evil" = "..../evil" ∧
  0 < disallowedCount (sanitizePluginName "../../evil") ∧
  sanitizePluginName "gutenberg.latest-stable.zip" = "gutenberg.latest-stable.zip".
Proof.
  split; [reflexivity|]. split; [reflexivity|]. split.
  - apply (proj2 (proj2 (proj2 (sanitizePluginName_removes_first_only "../../evil")))).
    vm_compute. lia.
  - apply (proj1 (proj2 (proj2 (sanitizePluginName_removes_first_only
                                  "gutenberg.latest-stable.zip")))).
    reflexivity.
Defined.

(** X3.  [copyToDist] copies a source file [<dir>/<name>] to
    [<outdir>/<name>], whatever its directory: the directories of the
    source are not made again under the output directory.  It makes one
    call of [copyFileSync], from the source to that path; when the call
    returns, [copyToDist] returns the path, and when it throws (a missing
    source, a missing output directory), [copyToDist] throws the same error
    and returns no path.  So two sources with the same file name in
    different directories are copied to one and the same destination. *)
Theorem copyToDist_flattens_directories :
  ∀ (FS : Type) (copyFileSync : string → string → FS → option string * FS)
    outdir name,
    includes name "/" = false →
    (∀ dir fs,
       copyToDist copyFileSync outdir (dir +:+ "/" +:+ name) fs =
         match copyFileSync (dir +:+ "/" +:+ name) (outdir +:+ "/" +:+ name) fs with
         | (Some e, fs') => (Throw e, fs')
         | (None, fs') => (Return (outdir +:+ "/" +:+ name), fs')
         end) ∧
    (∀ dir1 dir2 fs fs' path1 path2,
       (copyToDist copyFileSync outdir (dir1 +:+ "/" +:+ name) fs).1 = Return path1 →
       (copyToDist copyFileSync outdir (dir2 +:+ "/" +:+ name) fs').1 = Return path2 →
       path1 = path2).
Proof.
  intros FS copyFileSync outdir name Hname.
  assert (∀ dir, pop (split "/" (dir +:+ "/" +:+ name)) = Some name) as Hpop.
  { intros dir. apply pop_split. split; [done|]. right. by exists dir. }
  assert (∀ dir fs,
            copyToDist copyFileSync outdir (dir +:+ "/" +:+ name) fs =
              match copyFileSync (dir +:+ "/" +:+ name)
                      (outdir +:+ "/" +:+ name) fs with
              | (Some e, fs') => (Throw e, fs')
              | (None, fs') => (Return (outdir +:+ "/" +:+ name), fs')
              end) as Hcopy.
  { intros dir fs. unfold copyToDist. by rewrite Hpop. }
  split; [exact Hcopy|].
  intros dir1 dir2 fs fs' path1 path2. rewrite !Hcopy.
  destruct (copyFileSync (dir1 +:+ "/" +:+ name) _ fs) as [[e1|] fs1];
    destruct (copyFileSync (dir2 +:+ "/" +:+ name) _ fs') as [[e2|] fs2];
    cbn [fst]; congruence.
Qed.

Lemma copyToDist_flattens_directories_witness :
  copyToDist exampleCopyFileSync "build" ("src/wordpress" +:+ "/" +:+ "index.php")
    {| directories := ["src/wordpress"];
       contents := {["src/wordpress/index.php" := "<?php wp();"]} |}
  = match exampleCopyFileSync ("src/wordpress" +:+ "/" +:+ "index.php")
            ("build" +:+ "/" +:+ "index.php")
            {| directories := ["src/wordpress"];
               contents := {["src/wordpress/index.php" := "<?php wp();"]} |} with
    | (Some e, fs') => (Throw e, fs')
    | (None, fs') => (Return ("build" +:+ "/" +:+ "index.php"), fs')
    end.
Proof.
  apply (proj1 (copyToDist_flattens_directories ExampleFS exampleCopyFileSync
                  "build" "index.php" eq_refl)).
Defined.

End dev_server.

(** ** The API extractor script *)

Section api_extractor.
Import JS ApiExtractor ApiExtractorFacts.

(** X4.  In the script that runs the API extractor, a failing entry point
    ends the loop over the entry points of its own package only.  With the
    configuration file in place the script always runs to the end; it runs
    the extractor on an entry point whenever all earlier entry points of
    the same package succeeded, whatever happened in other packages, and
    not when an earlier one of the same package failed; the exit code is
    set to 1 exactly when some run failed and is otherwise left alone; one
    line is logged per run.  Without the configuration file the first entry
    point already throws. *)
Theorem extractor_failure_skips_rest_of_package_only :
  ∀ path invoke packages,
    (∃ p,
       overPackages path true invoke packages start = Return p ∧
       (∀ before package e1 ep e2 after,
          packages = before ++ (package, e1 ++ ep :: e2) :: after →
          Forall (λ e, succeeded (invoke package e) = true) e1 →
          (package, ep) ∈ invoked p) ∧
       (∀ before package e1 ep e2 after,
          packages = before ++ (package, e1 ++ ep :: e2) :: after →
          Exists (λ e, succeeded (invoke package e) = false) e1 →
          package ∉ (before ++ after).*1 →
          ep ∉ e1 →
          (package, ep) ∉ invoked p) ∧
       exitCode p =
         (if forallb (λ run, succeeded (invoke run.1 run.2)) (invoked p)
          then None else Some 1%Z) ∧
       length (logged p) = length (invoked p)) ∧
    (∀ package ep eps rest,
       packages = (package, ep :: eps) :: rest →
       overPackages path false invoke packages start =
         Throw ("Config file not found: " +:+ path)).
Proof.
  intros path invoke packages. split.
  - destruct (overPackages_spec path invoke packages start)
      as (p & Hrun & Hinv & Hexit & Hlog).
    simpl in Hinv, Hlog. exists p. split; [exact Hrun|].
    assert (∀ package ep,
              (package, ep) ∈ invoked p ↔
              ∃ eps, (package, eps) ∈ packages ∧
                     ep ∈ attempted invoke package eps) as Hin.
    { intros package ep. rewrite Hinv, list_elem_of_bind. split.
      - intros ([pkg eps] & Hep & Hpe). simpl in Hep.
        apply list_elem_of_fmap in Hep as (e & [= -> ->] & He). eauto.
      - intros (eps & Hpe & He). exists (package, eps). split; [|done].
        simpl. apply list_elem_of_fmap. eauto. }
    split_and!.
    + intros before package e1 ep e2 after -> Hall. apply Hin.
      exists (e1 ++ ep :: e2). split.
      * apply elem_of_app. right. by left.
      * by apply attempted_reached.
    + intros before package e1 ep e2 after -> Hex Hpkg Hep
        (eps & Hpe & He)%Hin.
      apply elem_of_app in Hpe as [Hpe|[Hpe|Hpe]%elem_of_cons].
      * apply Hpkg. rewrite fmap_app. apply elem_of_app. left.
        apply list_elem_of_fmap. by exists (package, eps).
      * injection Hpe as ->.
        rewrite attempted_cut in He by done.
        by apply attempted_subseteq in He.
      * apply Hpkg. rewrite fmap_app. apply elem_of_app. right.
        apply list_elem_of_fmap. by exists (package, eps).
    + rewrite Hexit, Hinv. done.
    + rewrite Hlog. lia.
  - intros package ep eps rest ->. reflexivity.
Qed.

Lemma extractor_failure_skips_rest_of_package_only_witness :
  let invoke :=
    (λ (package entrypoint : string),
       {| succeeded := negb (String.eqb entrypoint "php-wasm-browser");
          errorCount := 1 |}) in
  ∃ p,
    overPackages "api-extractor.json" true invoke recipe start = Return p ∧
    ("wordpress-wasm", "wordpress-wasm/worker-thread") ∈ invoked p ∧
    (("php-wasm-browser", "php-wasm-browser/worker-thread") ∉ invoked p) ∧
    exitCode p = Some 1%Z.
Proof.
  intros invoke.
  destruct (proj1 (extractor_failure_skips_rest_of_package_only
                     "api-extractor.json" invoke recipe))
    as (p & Hrun & Hreach & Hskip & Hexit & _).
  exists p. split; [exact Hrun|]. split; [|split].
  - apply (Hreach [("php-wasm", ["php-wasm"]);
                   ("php-wasm-browser",
                    ["php-wasm-browser"; "php-wasm-browser/worker-thread";
                     "php-wasm-browser/service-worker"])]
             "wordpress-wasm" ["wordpress-wasm"] "wordpress-wasm/worker-thread"
             ["wordpress-wasm/service-worker"] []).
    + reflexivity.
    + repeat constructor.
  - apply (Hskip [("php-wasm", ["php-wasm"])]
             "php-wasm-browser" ["php-wasm-browser"]
             "php-wasm-browser/worker-thread"
             ["php-wasm-browser/service-worker"]
             [("wordpress-wasm",
               ["wordpress-wasm"; "wordpress-wasm/worker-thread";
                "wordpress-wasm/service-worker"])]).
    + reflexivity.
    + constructor. reflexivity.
    + vm_compute. intros H. repeat (inversion H as [|? ? ? H']; subst; clear H; rename H' into H).
    + intros H. repeat (inversion H as [|? ? ? H']; subst; clear H; rename H' into H).
  - rewrite Hexit. injection Hrun as <-. reflexivity.
Defined.

End api_extractor.

(** ** The PHP runtime wrapper *)

Section php_wrapper.
Import JS PHPWrapper PHPFacts.

(** X5.  What [PHP.run] hands out.  The standard output is the string of
    what the stream held and what the script printed.  The standard error
    is the array of the stream itself, and [run] calls [#refresh] before it
    returns: the array that the caller gets holds what the stream held,
    what the script wrote and also what the refresh wrote.  After that the
    streams are two new empty arrays, so a later run neither reports
    anything of this run nor writes to the array handed out. *)
Theorem run_output_is_not_carried_over :
  ∀ (Runtime : Type) (ccall : string → list string → Runtime → Called Runtime)
    code codes (php : PHP Runtime),
    let r := ccall "phpwasm_run" ["?>" +:+ code] (runtime php) in
    let q := ccall "phpwasm_refresh" [] (after r) in
    let output := (run ccall code php).1 in
    let php1 := (run ccall code php).2 in
    streamsAllocated php →
    out_exitCode output = returned r ∧
    out_stdout output =
      join LF (readArray (stdout (streams php)) (heap php) ++
               (if pushesToStdout (args php !! "print") then printed r else [])) ∧
    readArray (out_stderr output) (heap php1) =
      readArray (stderr (streams php)) (heap php) ++
      (if pushesToStderr (args php !! "printErr") then printedErr r else []) ++
      (if pushesToStderr (args php !! "printErr") then printedErr q else []) ∧
    streamsAllocated php1 ∧
    readArray (stdout (streams php1)) (heap php1) = [] ∧
    readArray (stderr (streams php1)) (heap php1) = [] ∧
    out_stderr output ≠ stdout (streams php1) ∧
    out_stderr output ≠ stderr (streams php1) ∧
    readArray (out_stderr output) (heap (runAll ccall codes php1).2) =
      readArray (out_stderr output) (heap php1).
Proof.
  intros Runtime ccall code codes php r q output php1 Hwf.
  destruct (run_allocated Runtime ccall code php)
    as (Hwf1 & _ & Hout & Herr & Hempty1 & Hempty2).
  destruct (run_spec Runtime ccall code php) as (Hexit & _ & Hse & _).
  fold output in Hexit, Hse. fold php1 in Hwf1, Hout, Herr, Hempty1, Hempty2.
  destruct Hwf as (Ho & He & Hne).
  split_and!.
  - exact Hexit.
  - by apply run_stdout.
  - by apply run_stderr.
  - exact Hwf1.
  - exact Hempty1.
  - exact Hempty2.
  - rewrite Hse. lia.
  - rewrite Hse. lia.
  - by apply run_stderr_detached.
Qed.

Lemma run_output_is_not_carried_over_witness :
  let ccall := λ (name : string) (arguments : list string) (rt : nat),
    {| returned := 0%Z; printed := arguments;
       printedErr := if String.eqb name "phpwasm_refresh" then ["shutdown"] else [];
       after := S rt |} in
  let php :=
    {| runtime := 0; streams := {| stdout := 0; stderr := 1 |};
       args := emscriptenArgs ∅; heap := [[]; ["Warning"]] |} in
  readArray (out_stderr (run ccall "<?php echo 1;" php).1)
    (heap (run ccall "<?php echo 1;" php).2) =
    readArray (stderr (streams php)) (heap php) ++
    (if pushesToStderr (args php !! "printErr")
     then printedErr (ccall "phpwasm_run" ["?>" +:+ "<?php echo 1;"] (runtime php))
     else []) ++
    (if pushesToStderr (args php !! "printErr")
     then printedErr
            (ccall "phpwasm_refresh" []
               (after (ccall "phpwasm_run" ["?>" +:+ "<?php echo 1;"] (runtime php))))
     else []).
Proof.
  intros ccall php.
  apply (run_output_is_not_carried_over nat ccall "<?php echo 1;" [] php).
  unfold streamsAllocated. simpl. lia.
Defined.

(** X6.  In the argument object that [startPHP] gives to the Emscripten
    loader, the caller's [phpModuleArgs] replace the default [onAbort],
    [print] and [printErr] and add any other property, but never replace
    [noInitialRun], [onRuntimeInitialized] or [monitorRunDependencies]. *)
Theorem caller_args_cannot_replace_loader_hooks :
  ∀ phpModuleArgs : gmap string CallerArg,
    emscriptenArgs phpModuleArgs !! "noInitialRun" = Some ForcedTrue ∧
    emscriptenArgs phpModuleArgs !! "onRuntimeInitialized" = Some InitHook ∧
    emscriptenArgs phpModuleArgs !! "monitorRunDependencies"
      = Some DependencyMonitor ∧
    (∀ key x,
       key ∉ ["noInitialRun"; "onRuntimeInitialized"; "monitorRunDependencies"] →
       phpModuleArgs !! key = Some x →
       emscriptenArgs phpModuleArgs !! key = Some (FromCaller x)) ∧
    (phpModuleArgs !! "onAbort" = None →
     emscriptenArgs phpModuleArgs !! "onAbort" = Some LogAbort) ∧
    (phpModuleArgs !! "print" = None →
     emscriptenArgs phpModuleArgs !! "print" = Some PushToStdout) ∧
    (phpModuleArgs !! "printErr" = None →
     emscriptenArgs phpModuleArgs !! "printErr" = Some PushToStderr).
Proof.
  intros a. destruct (emscriptenArgs_forced a) as (H1 & H2 & H3).
  split_and!; [done..| | | |].
  - intros key x Hkey Hx.
    rewrite emscriptenArgs_other, Hx; [done|..];
      intros ->; apply Hkey; set_solver.
  - intros Hx. by rewrite emscriptenArgs_other, Hx.
  - intros Hx. by rewrite emscriptenArgs_other, Hx.
  - intros Hx. by rewrite emscriptenArgs_other, Hx.
Qed.

Lemma caller_args_cannot_replace_loader_hooks_witness :
  let phpModuleArgs : gmap string CallerArg :=
    <["print" := Fn "log"]> (<["noInitialRun" := Data (Boolean false)]> ∅) in
  emscriptenArgs phpModuleArgs !! "print" = Some (FromCaller (Fn "log")) ∧
  emscriptenArgs phpModuleArgs !! "noInitialRun" = Some ForcedTrue ∧
  emscriptenArgs phpModuleArgs !! "printErr" = Some PushToStderr.
Proof.
  intros phpModuleArgs.
  destruct (caller_args_cannot_replace_loader_hooks phpModuleArgs)
    as (H1 & _ & _ & Hcaller & _ & _ & Herr).
  split; [|split].
  - apply Hcaller; [|reflexivity].
    intros H. repeat (inversion H as [|? ? ? H']; subst; clear H; rename H' into H).
  - exact H1.
  - apply Herr. reflexivity.
Defined.

(** X7.  When the caller of [startPHP] passes a [print] function of its
    own, the runtime's output no longer reaches the stream: from an empty
    stream, every [PHP.run] returns the empty string as its standard
    output, whatever the scripts print.  In the same way a [printErr]
    function of the caller leaves every array handed out as standard error
    empty, whatever the scripts and the refreshes write. *)
Theorem caller_print_silences_run :
  ∀ (Runtime : Type) (ccall : string → list string → Runtime → Called Runtime)
    (phpModuleArgs : gmap string CallerArg) (php : PHP Runtime) codes,
    args php = emscriptenArgs phpModuleArgs →
    streamsAllocated php →
    ((∃ f, phpModuleArgs !! "print" = Some (Fn f)) →
     readArray (stdout (streams php)) (heap php) = [] →
     Forall (λ output, out_stdout output = "") (runAll ccall codes php).1) ∧
    ((∃ f, phpModuleArgs !! "printErr" = Some (Fn f)) →
     readArray (stderr (streams php)) (heap php) = [] →
     Forall (λ output,
               readArray (out_stderr output) (heap (runAll ccall codes php).2) = [])
       (runAll ccall codes php).1).
Proof.
  intros Runtime ccall a php codes Hargs Hwf. split.
  - intros [f Hf] Hs. apply runAll_silent; [|done|done].
    rewrite Hargs, emscriptenArgs_other, Hf by done. done.
  - intros [f Hf] Hs. apply runAll_silent_stderr; [|done|done].
    rewrite Hargs, emscriptenArgs_other, Hf by done. done.
Qed.

Lemma caller_print_silences_run_witness :
  let ccall := λ (name : string) (arguments : list string) (rt : nat),
    {| returned := 0%Z; printed := arguments; printedErr := ["Notice"];
       after := S rt |} in
  let php :=
    {| runtime := 0; streams := {| stdout := 0; stderr := 1 |};
       args := emscriptenArgs {["print" := Fn "log"; "printErr" := Fn "warn"]};
       heap := [[]; []] |} in
  Forall (λ output, out_stdout output = "")
    (runAll ccall ["<?php echo 1;"; "<?php echo 2;"] php).1 ∧
  Forall (λ output,
            readArray (out_stderr output)
              (heap (runAll ccall ["<?php echo 1;"; "<?php echo 2;"] php).2) = [])
    (runAll ccall ["<?php echo 1;"; "<?php echo 2;"] php).1.
Proof.
  intros ccall php.
  destruct (caller_print_silences_run nat ccall
              {["print" := Fn "log"; "printErr" := Fn "warn"]} php
              ["<?php echo 1;"; "<?php echo 2;"]) as [Hout Herr].
  - reflexivity.
  - unfold streamsAllocated. simpl. lia.
  - split.
    + apply Hout; [by exists "log"|reflexivity].
    + apply Herr; [by exists "warn"|reflexivity].
Defined.

(** X8.  [startPHP] returns only when the runtime has called
    [onRuntimeInitialized] and either there is no data dependency or
    [monitorRunDependencies] was called with 0, in whichever order these
    calls come (first conjunct, for a caller hook that can be called).  A
    caller's [onRuntimeInitialized] that is truthy but not a function keeps
    [startPHP] from ever returning; one that is a function is called once
    per call of the runtime's hook. *)
Theorem startPHP_returns_when_initialized_and_loaded :
  ∀ (phpModuleArgs : gmap string CallerArg) dataDependenciesModules evs,
    let final :=
      foldl (loaderStep phpModuleArgs) (startLoading dataDependenciesModules) evs in
    (hookCallable phpModuleArgs →
     started final = true ↔
       OnRuntimeInitialized ∈ evs ∧
       (dataDependenciesModules = 0 ∨ MonitorRunDependencies 0 ∈ evs)) ∧
    (∀ v,
       phpModuleArgs !! "onRuntimeInitialized" = Some (Data v) →
       truthy (Data v) = true →
       started final = false) ∧
    (∀ name,
       phpModuleArgs !! "onRuntimeInitialized" = Some (Fn name) →
       callerInitCalls final =
         length (filter (λ ev, ev = OnRuntimeInitialized) evs)).
Proof.
  intros a n evs final. split_and!.
  - intros Hhook. unfold started, final.
    rewrite andb_true_iff, loader_phpReady, loader_depsReady by done.
    simpl. rewrite Nat.eqb_eq. intuition congruence.
  - intros v Hhook Hv. unfold started, final.
    rewrite (loader_phpReady_bad_hook a evs _ v) by done.
    simpl. apply andb_false_r.
  - intros name Hhook. unfold final. by rewrite (loader_calls a evs _ name).
Qed.

Lemma startPHP_returns_when_initialized_and_loaded_witness :
  started
    (foldl (loaderStep ∅) (startLoading 1)
       [MonitorRunDependencies 2; OnRuntimeInitialized; MonitorRunDependencies 0])
  = true.
Proof.
  apply (proj1 (startPHP_returns_when_initialized_and_loaded ∅ 1
                  [MonitorRunDependencies 2; OnRuntimeInitialized;
                   MonitorRunDependencies 0])).
  - exact I.
  - split; [|right]; repeat constructor.
Defined.

End php_wrapper.

(** ** Messaging *)

Section messaging.
Import JS Messaging LoopFacts Extras CountFacts.

(** X9.  [awaitReply] leaks neither listeners nor timers: after any
    sequence of calls of [awaitReply], messages and delays, the registered
    [message] listeners and the armed timers are one each for every promise
    that is still pending, and nothing else. *)
Theorem awaitReply_keeps_one_listener_and_timer_per_pending_call :
  ∀ evs,
    let st := run evs initialLoop in
    length (listeners st) = length (pendingCalls st) ∧
    length (timers st) = length (pendingCalls st) ∧
    (∀ k, k ∈ pendingCalls st ↔ listening k st = true) ∧
    (∀ k, k ∈ pendingCalls st ↔ timersOf k st ≠ []).
Proof.
  intros evs st.
  assert (reachable st) as Hr by by exists evs.
  pose proof (wf_reachable st Hr) as Hwf.
  destruct (counts_agree st Hwf) as [HL HT].
  split; [exact HL|]. split; [exact HT|].
  assert (∀ k, k ∈ pendingCalls st ↔ k < fresh st ∧ promiseState k st = Pending)
    as Hpend.
  { intros k. unfold pendingCalls. rewrite list_elem_of_filter, elem_of_seq.
    split.
    - intros [Hp [_ Hk]]. split; [simpl in Hk; lia|].
      by destruct (promiseState k st).
    - intros [Hk Hp]. rewrite Hp. split; [done|]. simpl; lia. }
  assert (∀ k, (k ∈ pendingCalls st ∧ listening k st = true ∧ timersOf k st ≠ []) ∨
               ((k ∉ pendingCalls st) ∧ listening k st = false ∧ timersOf k st = []))
    as Hcase.
  { intros k. rewrite Hpend. destruct (Hwf k) as [Hunused Hused].
    destruct (decide (k < fresh st)) as [Hk|Hk].
    - destruct (Hused Hk) as [(target & requestId & deadline & Hw)|[s Hs]].
      + apply waiting_observed in Hw as (Hp & Hl & Ht & _).
        left. rewrite Ht. done.
      + apply settled_observed in Hs as (Hp & Hl & Ht & _).
        right. split; [|done]. rewrite Hp. intros [_ ?]. by destruct s.
    - right. assert (unused k st) as Hu by (apply Hunused; lia).
      unfold unused, view in Hu. injection Hu as HlO HtO _.
      split; [by intros [? _]|]. split; [|done].
      unfold listening. apply bool_decide_eq_false_2.
      rewrite Exists_exists. intros (l & Hin & Hid).
      by apply (listenersOf_nil_not_elem k l st HlO Hid). }
  split; intros k; destruct (Hcase k) as [(Hin & Hl & Ht)|(Hin & Hl & Ht)];
    rewrite ?Hl, ?Ht; intuition congruence.
Qed.

(** X10.  Replies are not kept for later: a reply that is delivered before
    [awaitReply] is called for its request id is lost.  When no other reply
    follows, the call is rejected with "Request timed out" once the timeout
    has passed, and it is still pending before. *)
Theorem reply_before_awaitReply_is_lost :
  ∀ st0 target requestId timeout response pre d post,
    reachable st0 →
    let early := step st0 (EvMessage target (responseTo requestId response)) in
    let k := (awaitReply target requestId timeout early).1 in
    let st1 := (awaitReply target requestId timeout early).2 in
    noReplyIn target requestId pre →
    (elapsed pre < timeoutOrDefault timeout)%Z →
    (timeoutOrDefault timeout <= elapsed pre + Z.max 0 d)%Z →
    promiseState k (run pre st1) = Pending ∧
    promiseState k (run (pre ++ EvElapse d :: post) st1) =
      Rejected "Request timed out".
Proof.
  intros st0 target requestId timeout response pre d post Hr early k st1
    Hq Hlt Hge.
  assert (reachable early) as Hre.
  { apply (reachable_run [EvMessage target (responseTo requestId response)]) in Hr.
    exact Hr. }
  split.
  - destruct (awaitReply_waiting target requestId timeout early Hre)
      as (Hk & Hfresh & Hclock & _ & Hw).
    fold k st1 in Hk, Hfresh, Hclock, Hw.
    assert (waiting k target requestId
              (clock early + Z.max 0 (timeoutOrDefault timeout)) (run pre st1))
      as Hw'.
    { apply run_waiting; [done|done|done|]. rewrite Hclock. lia. }
    by apply waiting_observed in Hw' as (Hp & _).
  - pose proof (awaitReply_timeout early target requestId timeout pre d post
                  Hre Hq Hge) as Hs.
    by apply settled_observed in Hs as (Hp & _).
Qed.

Lemma reply_before_awaitReply_is_lost_witness :
  promiseState 0
    (run ([EvElapse 100%Z]) (awaitReply 7 1%Z (Some 500%Z)
       (step initialLoop (EvMessage 7 (responseTo 1%Z (Str "done"))))).2) = Pending ∧
  promiseState 0
    (run ([EvElapse 100%Z] ++ EvElapse 400%Z :: [])
       (awaitReply 7 1%Z (Some 500%Z)
          (step initialLoop (EvMessage 7 (responseTo 1%Z (Str "done"))))).2) =
    Rejected "Request timed out".
Proof.
  refine (reply_before_awaitReply_is_lost initialLoop 7 1%Z (Some 500%Z) (Str "done")
            [EvElapse 100%Z] 400%Z [] _ _ _ _).
  - by exists [].
  - repeat constructor.
  - vm_compute. reflexivity.
  - vm_compute. intros H; discriminate H.
Defined.

(** X11.  Request and reply fit together.  [postMessageExpectReply] posts
    the message with all its properties and with [requestId] set to the id
    it returns, also when the message came with a [requestId] of its own.
    When the receiver answers with [responseTo] of the id it reads from the
    posted message, and that is the first reply to arrive in time, the
    promise of [awaitReply] for the returned id is fulfilled with the
    response. *)
Theorem request_and_reply_round_trip :
  ∀ target message postMessageArgs s st0 channel timeout pre response post,
    let requestId := (postMessageExpectReply target message postMessageArgs s).1 in
    let s' := (postMessageExpectReply target message postMessageArgs s).2 in
    let k := (awaitReply channel requestId timeout st0).1 in
    let st1 := (awaitReply channel requestId timeout st0).2 in
    reachable st0 →
    noReplyIn channel requestId pre →
    (elapsed pre < timeoutOrDefault timeout)%Z →
    ∃ sent,
      posted s' = posted s ++ [(target, sent, postMessageArgs)] ∧
      (∀ key, key ≠ "requestId" → sent !! key = message !! key) ∧
      dom sent = {["requestId"]} ∪ dom message ∧
      ∃ n,
        get (Object sent) "requestId" = Number n ∧
        promiseState k
          (run (pre ++ EvMessage channel (responseTo n response) :: post) st1) =
          Fulfilled response.
Proof.
  intros target message args s st0 channel timeout pre response post
    requestId s' k st1 Hr Hq Hlt.
  exists (<["requestId" := Number requestId]> message). split_and!.
  - reflexivity.
  - intros key Hkey. by rewrite lookup_insert_ne.
  - by rewrite dom_insert_L.
  - exists requestId. split.
    + simpl. by rewrite lookup_insert_eq.
    + assert (isReplyTo requestId (responseTo requestId response) = true) as Hm.
      { rewrite isReplyTo_responseTo. by apply bool_decide_eq_true_2. }
      pose proof (awaitReply_first_reply st0 channel requestId timeout pre
                    (responseTo requestId response) post Hr Hq Hlt Hm) as Hs.
      apply settled_observed in Hs as (Hp & _).
      fold k st1 in Hp. rewrite Hp.
      by rewrite (proj2 (proj2 (get_responseTo requestId response))).
Qed.

Lemma request_and_reply_round_trip_witness :
  ∃ sent,
    posted (postMessageExpectReply 3 {["requestId" := Number 99%Z; "type" := Str "ping"]}
              [] initialSender).2 = posted initialSender ++ [(3, sent, [])] ∧
    (∀ key, key ≠ "requestId" →
       sent !! key =
         ({["requestId" := Number 99%Z; "type" := Str "ping"]} : gmap string Value)
           !! key) ∧
    dom sent =
      {["requestId"]} ∪
      dom ({["requestId" := Number 99%Z; "type" := Str "ping"]} : gmap string Value) ∧
    ∃ n,
      get (Object sent) "requestId" = Number n ∧
      promiseState
        (awaitReply 4
           (postMessageExpectReply 3
              {["requestId" := Number 99%Z; "type" := Str "ping"]} [] initialSender).1
           None initialLoop).1
        (run ([EvElapse 10%Z] ++ EvMessage 4 (responseTo n (Str "pong")) :: [])
           (awaitReply 4
              (postMessageExpectReply 3
                 {["requestId" := Number 99%Z; "type" := Str "ping"]} [] initialSender).1
              None initialLoop).2) =
        Fulfilled (Str "pong").
Proof.
  refine (request_and_reply_round_trip 3
            {["requestId" := Number 99%Z; "type" := Str "ping"]} [] initialSender
            initialLoop 4 None [EvElapse 10%Z] (Str "pong") [] _ _ _).
  - by exists [].
  - repeat constructor.
  - vm_compute. reflexivity.
Defined.

End messaging.

(** ** The fetch listener of the service worker *)

Section service_worker.
Import JS Messaging ServiceWorker LoopFacts ServiceWorkerFacts ListenerFacts Extras.

(** X12.  A request whose URL has no scope, and whose referer is missing,
    is not a URL or has no scope either, is left to the browser: the
    listener returns without calling [respondWith], whatever the forwarding
    policy says, and posts and registers nothing. *)
Theorem request_without_scope_is_left_to_the_browser :
  ∀ isURLScoped getURLScope setURLScope removeURLScope newURL self
    config request future w,
    isURLScoped (url request) = false →
    match newURL (default "" (headersGet "referer" (headers request))) with
    | Some referer => isURLScoped referer = false
    | None => True
    end →
    initializeServiceWorker isURLScoped getURLScope setURLScope removeURLScope
      newURL self config request future w = (BrowserDefault, w).
Proof.
  intros isS getS setS rmS newURL self config request future w Hu Href.
  apply listener_default. unfold resolveScope. rewrite Hu. simpl.
  destruct (newURL _) as [referer|]; [|done]. by rewrite Href.
Qed.

Lemma request_without_scope_is_left_to_the_browser_witness :
  exampleListener Scope.NoOp
    (exampleRequest "GET" "/wp-admin/index.php" "navigate" [] None)
    [] exampleWorld = (BrowserDefault, exampleWorld).
Proof.
  apply (request_without_scope_is_left_to_the_browser
           Scope.isURLScoped Scope.getURLScope (specSetURLScope Scope.NoOp)
           Scope.removeURLScope
           (λ s, if String.eqb s "http://localhost:8777/scope:abc/index.php"
                 then Some (exampleURL "/scope:abc/index.php") else None)
           0 {| shouldForwardRequestToPHPServer := None |}
           (exampleRequest "GET" "/wp-admin/index.php" "navigate" [] None)
           [] exampleWorld).
  - reflexivity.
  - exact I.
Defined.

(** X13.  A request without scope that comes from a scoped page takes the
    scope of its referer.  With a scope module for which the URL so scoped
    is scoped and unscopes to the URL of the request, the forwarding policy
    is asked about the request's own URL; when it refuses, the request is
    fetched again under its own URL, and when it accepts, the world is the
    one after forwarding under the scoped URL. *)
Theorem request_takes_the_scope_of_its_referer :
  ∀ isURLScoped getURLScope setURLScope removeURLScope newURL self
    config request referer future w,
    let scoped := setURLScope (url request) (getURLScope referer) in
    let listener :=
      initializeServiceWorker isURLScoped getURLScope setURLScope
        removeURLScope newURL self config request in
    isURLScoped (url request) = false →
    newURL (default "" (headersGet "referer" (headers request))) = Some referer →
    isURLScoped referer = true →
    isURLScoped scoped = true →
    removeURLScope scoped = url request →
    resolveScope isURLScoped getURLScope setURLScope newURL request = scoped ∧
    (shouldForward config request (url request) = false →
     listener future w =
       (RespondWith true
          (SettledWith (AFetch (cloneRequest request (onlyUrl (url request))))),
        w)) ∧
    (∀ parsed,
       shouldForward config request (url request) = true →
       parsePost request = Return parsed →
       (listener future w).2 =
         afterForward getURLScope self request scoped parsed future w).
Proof.
  intros isS getS setS rmS newURL self config request referer future w
    scoped listener Hu Href Hrs Hss Hrm.
  assert (resolveScope isS getS setS newURL request = scoped) as Hres.
  { unfold resolveScope. rewrite Hu. simpl. by rewrite Href, Hrs. }
  split; [exact Hres|]. split.
  - intros Hf. unfold listener.
    rewrite listener_passthrough; rewrite ?Hres, ?Hrm; done.
  - intros parsed Hf Hp. unfold listener.
    rewrite listener_forward by (rewrite ?Hres, ?Hrm; done).
    rewrite Hres. by rewrite (forward_outcome _ _ _ _ _ _ parsed).
Qed.

Lemma request_takes_the_scope_of_its_referer_witness :
  resolveScope Scope.isURLScoped Scope.getURLScope (specSetURLScope Scope.Fails)
    (λ s, if String.eqb s "http://localhost:8777/scope:abc/index.php"
          then Some (exampleURL "/scope:abc/index.php") else None)
    (exampleRequest "GET" "/wp-includes/style.css" "no-cors"
       [("referer", "http://localhost:8777/scope:abc/index.php")] None)
  = specSetURLScope Scope.Fails (exampleURL "/wp-includes/style.css")
      (Scope.getURLScope (exampleURL "/scope:abc/index.php")).
Proof.
  apply (request_takes_the_scope_of_its_referer
           Scope.isURLScoped Scope.getURLScope (specSetURLScope Scope.Fails)
           Scope.removeURLScope
           (λ s, if String.eqb s "http://localhost:8777/scope:abc/index.php"
                 then Some (exampleURL "/scope:abc/index.php") else None)
           0 {| shouldForwardRequestToPHPServer := None |}
           (exampleRequest "GET" "/wp-includes/style.css" "no-cors"
              [("referer", "http://localhost:8777/scope:abc/index.php")] None)
           (exampleURL "/scope:abc/index.php") [] exampleWorld).
  - reflexivity.
  - reflexivity.
  - reflexivity.
  - reflexivity.
  - reflexivity.
Defined.

(** X14.  The [headers] object of the forwarded message is filled from the
    entries of the request headers in order: it has one property for each
    header name that occurs, and a name listed more than once keeps the
    value listed last. *)
Theorem forwarded_headers_keep_last_value :
  ∀ getURLScope request url parsed name,
    get (get (get (Object (forwardedMessage getURLScope request url parsed))
                "request") "headers") name =
      match lastHeader name (headers request) with
      | Some value => Str value
      | None => Undefined
      end ∧
    (lastHeader name (headers request) = None ↔ name ∉ (headers request).*1).
Proof.
  intros getS request url parsed name. split.
  - unfold forwardedMessage.
    rewrite get_Object, !lookup_insert_ne, lookup_insert_eq by done.
    cbn [default from_option id].
    rewrite get_Object, !lookup_insert_ne, lookup_insert_eq by done.
    cbn [default from_option id]. rewrite get_Object. unfold requestHeadersOf.
    rewrite requestHeadersOf_fold, lookup_empty.
    by destruct (lastHeader name (headers request)).
  - induction (headers request) as [|[k v] hs IH]; simpl.
    + split; [intros _; apply not_elem_of_nil|done].
    + rewrite not_elem_of_cons. destruct (lastHeader name hs) as [v'|].
      * split; [done|]. intros [_ Hn]. by apply IH in Hn.
      * destruct (String.eqb_spec k name) as [->|Hne].
        -- split; [done|]. by intros [? _].
        -- split; [|done]. intros _. split; [congruence|]. by apply IH.
Qed.

(** X15.  For a POST request whose body reads as form data, [parsePost]
    puts every key either in [post] or in [files], never in both, and by
    the first value listed under the key: a field gives a property of
    [post], a file gives a property of [files], and later values under the
    same key are dropped.  Keys that the form does not have are in
    neither. *)
Theorem parsePost_sorts_form_data_by_first_value :
  ∀ request fd,
    method request = "POST" →
    requestFormData request = Return fd →
    ∃ post files,
      parsePost request =
        Return {| post := Object post; files := Object files |} ∧
      ∀ key,
        (post !! key, files !! key) =
          match formDataGet key fd with
          | Some (FieldValue value) => (Some (Str value), None)
          | Some (FileValue name type content) =>
              (None, Some (File name type content))
          | None => (None, None)
          end.
Proof.
  intros request fd Hm Hfd.
  exists (sortEntries fd).1, (sortEntries fd).2. split.
  - unfold parsePost. rewrite Hm, Hfd. simpl. by destruct (sortEntries fd).
  - intros key. rewrite sortEntries_folds. cbn [fst snd].
    rewrite !foldl_insert_lookup, lookup_empty.
    unfold fieldOf, fileOf.
    destruct (decide (key ∈ fd.*1)) as [Hin|Hnin].
    + destruct (formDataGet key fd) as [[value|name type content]|] eqn:Hget;
        [done|done|].
      by apply formDataGet_None in Hget.
    + apply formDataGet_None in Hnin. by rewrite Hnin.
Qed.

Lemma parsePost_sorts_form_data_by_first_value_witness :
  ∃ post files,
    parsePost
      (exampleRequest "POST" "/scope:abc/wp-admin/upload.php" "cors" []
         (Some {| blob := "";
                  formData := Return [("title", FieldValue "a");
                                      ("upload", FileValue "a.png" "image/png" "PNG");
                                      ("title", FieldValue "b")];
                  json := Throw "SyntaxError" |})) =
      Return {| post := Object post; files := Object files |} ∧
    ∀ key,
      (post !! key, files !! key) =
        match formDataGet key [("title", FieldValue "a");
                               ("upload", FileValue "a.png" "image/png" "PNG");
                               ("title", FieldValue "b")] with
        | Some (FieldValue value) => (Some (Str value), None)
        | Some (FileValue name type content) =>
            (None, Some (File name type content))
        | None => (None, None)
        end.
Proof.
  apply (parsePost_sorts_form_data_by_first_value
           (exampleRequest "POST" "/scope:abc/wp-admin/upload.php" "cors" []
              (Some {| blob := "";
                       formData := Return [("title", FieldValue "a");
                                           ("upload", FileValue "a.png" "image/png" "PNG");
                                           ("title", FieldValue "b")];
                       json := Throw "SyntaxError" |}))).
  - reflexivity.
  - reflexivity.
Defined.

(** X16.  Copying a request under another URL, as the listener does for a
    scoped request that is not forwarded, is done once and for all: the
    copy is never a navigation, copying the copy changes the URL and
    nothing else, and a request without body that is not a navigation is
    copied to itself when the URL is its own. *)
Theorem cloneRequest_normalises_mode_and_body :
  ∀ request u1 u2,
    mode (cloneRequest request (onlyUrl u1)) ≠ "navigate" ∧
    cloneRequest (cloneRequest request (onlyUrl u1)) (onlyUrl u2) =
      cloneRequest request (onlyUrl u2) ∧
    (body request = None →
     (cloneRequest request (onlyUrl (url request)) = request ↔
        mode request ≠ "navigate")).
Proof.
  intros request u1 u2. destruct request as [u m h b r rp md c ca rd i].
  unfold cloneRequest, onlyUrl; simpl. rewrite !orb_false_r. split_and!.
  - destruct (String.eqb_spec md "navigate") as [->|Hmd]; [done|done].
  - f_equal.
    + by case_bool_decide.
    + destruct (String.eqb md "navigate") eqn:Hmd; [done|]. by rewrite Hmd.
  - intros ->. destruct (String.eqb_spec md "navigate") as [->|Hmd].
    + split; [intros [=]|done].
    + split; [done|]. intros _. by case_bool_decide.
Qed.

Lemma cloneRequest_normalises_mode_and_body_witness :
  cloneRequest
    (exampleRequest "GET" "/logo.png" "no-cors" [] None)
    (onlyUrl (url (exampleRequest "GET" "/logo.png" "no-cors" [] None)))
  = exampleRequest "GET" "/logo.png" "no-cors" [] None ↔
  mode (exampleRequest "GET" "/logo.png" "no-cors" [] None) ≠ "navigate".
Proof.
  apply (proj2 (proj2 (cloneRequest_normalises_mode_and_body
                         (exampleRequest "GET" "/logo.png" "no-cors" [] None)
                         (exampleURL "/a") (exampleURL "/b")))).
  reflexivity.
Defined.

(** X17.  A reply without payload leaves the fetch hanging.  When the
    first reply to a forwarded request arrives in time but its [response]
    is undefined or null, reading [phpResponse.body] throws inside the
    async executor: [accept] is never called and the promise given to
    [respondWith] is never settled. *)
Theorem reply_without_payload_never_settles :
  ∀ isURLScoped getURLScope setURLScope removeURLScope newURL self
    config request w parsed pre post response,
    let url := resolveScope isURLScoped getURLScope setURLScope newURL request in
    let requestId := (lastRequestId (sender w) + 1)%Z in
    let future := pre ++ EvMessage self (responseTo requestId response) :: post in
    isURLScoped url = true →
    shouldForward config request (removeURLScope url) = true →
    parsePost request = Return parsed →
    reachable (loop w) →
    noReplyIn self requestId pre →
    (elapsed pre < DEFAULT_RESPONSE_TIMEOUT)%Z →
    response = Undefined ∨ response = Null →
    initializeServiceWorker isURLScoped getURLScope setURLScope
      removeURLScope newURL self config request future w =
      (RespondWith true (NeverSettles (Some "TypeError")),
       afterForward getURLScope self request url parsed future w).
Proof.
  intros isS getS setS rmS newURL self config request w parsed pre post response
    url requestId future Hs Hf Hp Hr Hq Hel Hresp.
  rewrite listener_forward by done. fold url.
  rewrite (forward_outcome _ _ _ _ _ _ parsed) by done.
  assert (isReplyTo requestId (responseTo requestId response) = true) as Hm.
  { rewrite isReplyTo_responseTo. by apply bool_decide_eq_true_2. }
  pose proof (awaitReply_first_reply (loop w) self requestId None pre
                (responseTo requestId response) post Hr Hq Hel Hm) as Hset.
  apply settled_observed in Hset as (Hps & _).
  fold requestId. unfold future. rewrite Hps.
  rewrite (proj2 (proj2 (get_responseTo requestId response))).
  by destruct Hresp as [-> | ->].
Qed.

Lemma reply_without_payload_never_settles_witness :
  exampleListener Scope.NoOp
    (exampleRequest "GET" "/scope:abc/index.php" "navigate" [] None)
    ([EvElapse 40%Z] ++ EvMessage 0 (responseTo 1%Z Undefined) :: [])
    exampleWorld
  = (RespondWith true (NeverSettles (Some "TypeError")),
     afterForward Scope.getURLScope 0
       (exampleRequest "GET" "/scope:abc/index.php" "navigate" [] None)
       (exampleURL "/scope:abc/index.php")
       {| post := Undefined; files := Undefined |}
       ([EvElapse 40%Z] ++ EvMessage 0 (responseTo 1%Z Undefined) :: [])
       exampleWorld).
Proof.
  refine (reply_without_payload_never_settles
            Scope.isURLScoped Scope.getURLScope (specSetURLScope Scope.NoOp)
            Scope.removeURLScope
            (λ s, if String.eqb s "http://localhost:8777/scope:abc/index.php"
                  then Some (exampleURL "/scope:abc/index.php") else None)
            0 {| shouldForwardRequestToPHPServer := None |}
            (exampleRequest "GET" "/scope:abc/index.php" "navigate" [] None)
            exampleWorld {| post := Undefined; files := Undefined |}
            [EvElapse 40%Z] [] Undefined _ _ _ _ _ _ _).
  - reflexivity.
  - reflexivity.
  - reflexivity.
  - by exists [].
  - repeat constructor.
  - vm_compute. reflexivity.
  - by left.
Defined.

(** X18.  Forwarding a request posts one message to every client, in the
    order of the clients and to nobody else, whatever happens afterwards.
    All of them carry the same request id, the one after the last id given
    out, the type "HTTPRequest" and the scope of the URL; the worker then
    waits for the reply to that id on itself, so with no reply it holds one
    listener more until the timeout. *)
Theorem forward_posts_one_message_per_client :
  ∀ isURLScoped getURLScope setURLScope removeURLScope newURL self
    config request w parsed future,
    let url := resolveScope isURLScoped getURLScope setURLScope newURL request in
    let requestId := (lastRequestId (sender w) + 1)%Z in
    let w' :=
      (initializeServiceWorker isURLScoped getURLScope setURLScope
         removeURLScope newURL self config request future w).2 in
    isURLScoped url = true →
    shouldForward config request (removeURLScope url) = true →
    parsePost request = Return parsed →
    clients w' = clients w ∧
    lastRequestId (sender w') = requestId ∧
    (∃ message,
       posted (sender w') =
         posted (sender w) ++ broadcast requestId message (clients w) ∧
       (posted (sender w')).*1.*1 = (posted (sender w)).*1.*1 ++ clients w ∧
       get (Object (<["requestId" := Number requestId]> message)) "requestId" =
         Number requestId ∧
       get (Object (<["requestId" := Number requestId]> message)) "type" =
         Str "HTTPRequest" ∧
       get (Object (<["requestId" := Number requestId]> message)) "scope" =
         scopeValue (getURLScope url)) ∧
    loop w' = run future (awaitReply self requestId None (loop w)).2.
Proof.
  intros isS getS setS rmS newURL self config request w parsed future
    url requestId w' Hs Hf Hp.
  assert (w' = afterForward getS self request url parsed future w) as ->.
  { unfold w'. rewrite listener_forward by done. fold url.
    by rewrite (forward_outcome _ _ _ _ _ _ parsed). }
  split_and!; [reflexivity|reflexivity| |reflexivity].
  exists (forwardedMessage getS request url parsed). split_and!.
  - reflexivity.
  - unfold afterForward; cbn [sender posted].
    rewrite !fmap_app. f_equal. fold requestId.
    generalize (clients w). intros cs. induction cs as [|c cs IH]; [done|].
    simpl. by f_equal.
  - by rewrite get_Object, lookup_insert_eq.
  - unfold forwardedMessage.
    rewrite get_Object, lookup_insert_ne by done. by rewrite lookup_insert_eq.
  - unfold forwardedMessage.
    rewrite get_Object, !lookup_insert_ne by done. by rewrite lookup_insert_eq.
Qed.

Lemma forward_posts_one_message_per_client_witness :
  clients
    (exampleListener Scope.NoOp
       (exampleRequest "GET" "/scope:abc/index.php" "navigate" [] None)
       [] exampleWorld).2 = clients exampleWorld.
Proof.
  apply (forward_posts_one_message_per_client
           Scope.isURLScoped Scope.getURLScope (specSetURLScope Scope.NoOp)
           Scope.removeURLScope
           (λ s, if String.eqb s "http://localhost:8777/scope:abc/index.php"
                 then Some (exampleURL "/scope:abc/index.php") else None)
           0 {| shouldForwardRequestToPHPServer := None |}
           (exampleRequest "GET" "/scope:abc/index.php" "navigate" [] None)
           exampleWorld {| post := Undefined; files := Undefined |} []).
  - reflexivity.
  - reflexivity.
  - reflexivity.
Defined.

End service_worker.
